(** * blarser-prototype: the feed-driven game-state machine of [GameState.py]

    A shallow embedding of [src/GameState.py].  The running document
    [self.game_update] is a Python [dict] keyed by strings and is modelled as a
    [gmap string value]; keys are built the way the source builds them
    ([prefix + 'Score']).  Handlers mutate [self] and raise on a failed
    [assert], a missing key or an out-of-range index: they become computations
    in a state-and-error monad over the record [GameState].

    Conventions of the embedding:
    - a raised exception of any kind is the result [None];
    - a document field that holds a value of a JSON type on which the Python
      operation applied to it raises (arithmetic on a string, [append] on a
      number) makes the computation fail; list fields are expected to hold
      lists and numeric fields numbers;
    - a lark [Token] is a [str] and is modelled by its text;
    - the snapshot handed to one event is a value of its own (it is not the
      list object of an earlier snapshot). *)

From Stdlib Require Import ZArith Floats.
From stdpp Require Import gmap strings list fin_maps pretty.

Open Scope Z_scope.
Set Warnings "-register-all".

(** ** Python values *)

(** The JSON-like values a game document holds. *)
Inductive value : Type :=
  | VNone
  | VBool (b : bool)
  | VInt (z : Z)
  | VFloat (f : float)
  | VStr (s : string)
  | VList (l : list value).

(** Python numbers: [int] is unbounded, [float] is IEEE binary64. *)
Inductive num : Type :=
  | NInt (z : Z)
  | NFloat (f : float).

(** [bool] is a subclass of [int]. *)
Definition as_num (v : value) : option num :=
  match v with
  | VBool b => Some (NInt (if b then 1 else 0))
  | VInt z => Some (NInt z)
  | VFloat f => Some (NFloat f)
  | _ => None
  end.

Definition of_num (n : num) : value :=
  match n with
  | NInt z => VInt z
  | NFloat f => VFloat f
  end.

(** [float(z)]: round to nearest even; [OverflowError] when out of range. *)
Definition float_of_Z (z : Z) : option float :=
  let f := SF2Prim (binary_normalize prec emax z 0 false) in
  if PrimFloat.is_infinity f then None else Some f.

Definition num_add (a b : num) : option num :=
  match a, b with
  | NInt x, NInt y => Some (NInt (x + y))
  | NInt x, NFloat g => f ← float_of_Z x; Some (NFloat (PrimFloat.add f g))
  | NFloat f, NInt y => g ← float_of_Z y; Some (NFloat (PrimFloat.add f g))
  | NFloat f, NFloat g => Some (NFloat (PrimFloat.add f g))
  end.

Definition num_sub (a b : num) : option num :=
  match a, b with
  | NInt x, NInt y => Some (NInt (x - y))
  | NInt x, NFloat g => f ← float_of_Z x; Some (NFloat (PrimFloat.sub f g))
  | NFloat f, NInt y => g ← float_of_Z y; Some (NFloat (PrimFloat.sub f g))
  | NFloat f, NFloat g => Some (NFloat (PrimFloat.sub f g))
  end.

(** Python compares an [int] with a [float] exactly, without converting. *)
Definition Z_compare_float (z : Z) (f : float) : option comparison :=
  match Prim2SF f with
  | S754_zero _ => Some (z ?= 0)
  | S754_infinity neg => Some (if neg then Gt else Lt)
  | S754_nan => None
  | S754_finite neg m e =>
      let sm := if neg then Z.neg m else Z.pos m in
      Some (if 0 <=? e then z ?= sm * 2 ^ e else z * 2 ^ (- e) ?= sm)
  end.

Definition float_compare (f g : float) : option comparison :=
  match PrimFloat.compare f g with
  | FEq => Some Eq
  | FLt => Some Lt
  | FGt => Some Gt
  | FNotComparable => None
  end.

(** [None] is the unordered outcome (a NaN operand). *)
Definition num_compare (a b : num) : option comparison :=
  match a, b with
  | NInt x, NInt y => Some (x ?= y)
  | NInt x, NFloat g => Z_compare_float x g
  | NFloat f, NInt y => CompOpp <$> Z_compare_float y f
  | NFloat f, NFloat g => float_compare f g
  end.

Definition num_eqb (a b : num) : bool :=
  match num_compare a b with Some Eq => true | _ => false end.
Definition num_ltb (a b : num) : bool :=
  match num_compare a b with Some Lt => true | _ => false end.
Definition num_leb (a b : num) : bool :=
  match num_compare a b with Some Lt | Some Eq => true | _ => false end.

(** [a == b] on values. *)
Fixpoint py_eq (a b : value) : bool :=
  match a, b with
  | VNone, VNone => true
  | VStr s, VStr t => String.eqb s t
  | VList l, VList k =>
      (fix go (l k : list value) : bool :=
         match l, k with
         | [], [] => true
         | x :: l', y :: k' => py_eq x y && go l' k'
         | _, _ => false
         end) l k
  | _, _ =>
      match as_num a, as_num b with
      | Some x, Some y => num_eqb x y
      | _, _ => false
      end
  end.

(** [a + b], [a - b], [a < b], [a <= b] where the source applies them: to
    numbers.  Other operand types raise [TypeError]. *)
Definition py_add (a b : value) : option value :=
  x ← as_num a; y ← as_num b; of_num <$> num_add x y.
Definition py_sub (a b : value) : option value :=
  x ← as_num a; y ← as_num b; of_num <$> num_sub x y.
Definition py_lt (a b : value) : option bool :=
  x ← as_num a; y ← as_num b; Some (num_ltb x y).
Definition py_le (a b : value) : option bool :=
  x ← as_num a; y ← as_num b; Some (num_leb x y).

(** Truthiness, as [if v:] tests it. *)
Definition truthy (v : value) : bool :=
  match v with
  | VNone => false
  | VBool b => b
  | VInt z => negb (z =? 0)
  | VFloat f => negb (PrimFloat.eqb f 0%float)
  | VStr s => negb (String.eqb s "")
  | VList l => match l with [] => false | _ => true end
  end.

(** [l[i]] with Python's negative indices; [IndexError] is [None]. *)
Definition py_nth {A} (l : list A) (i : Z) : option A :=
  let n := Z.of_nat (length l) in
  if (0 <=? i) && (i <? n) then l !! Z.to_nat i
  else if (- n <=? i) && (i <? 0) then l !! Z.to_nat (n + i)
  else None.

(** [l.index(x)]: the first position whose element equals [x]. *)
Fixpoint py_index (l : list value) (x : value) : option nat :=
  match l with
  | [] => None
  | y :: l' => if py_eq y x then Some 0%nat else S <$> py_index l' x
  end.

(** [l.pop(i)] for a position [i]: the list without it. *)
Definition py_pop {A} (l : list A) (i : nat) : option (list A) :=
  if bool_decide (i < length l)%nat then Some (delete i l) else None.

(** [l[i] = x] for a position [i]. *)
Definition py_setitem {A} (l : list A) (i : nat) (x : A) : option (list A) :=
  if bool_decide (i < length l)%nat then Some (<[i:=x]> l) else None.

(** [x in l]. *)
Definition py_in (x : value) (l : list value) : bool :=
  existsb (fun y => py_eq y x) l.

(** The elements [set(l)] can hold are the hashable ones. *)
Definition hashable (v : value) : bool :=
  match v with VList _ => false | _ => true end.

(** [set(l) - set(k)] as a duplicate-free list. *)
Fixpoint py_dedup (l : list value) : list value :=
  match l with
  | [] => []
  | x :: l' => if py_in x l' then py_dedup l' else x :: py_dedup l'
  end.

Definition py_set_diff (l k : list value) : option (list value) :=
  if forallb hashable l && forallb hashable k
  then Some (py_dedup (filter (fun x => py_in x k = false) l))
  else None.

(** ** Players and teams *)

(** The part of a roster-service player that [PlayerState.from_player] and
    [mods_for_player] read. *)
Record Player := {
  player_id : string;
  player_name : string;
  perm_attr : list string;
  seas_attr : list string;
  game_attr : list string;
  item_attr : list string;
  bat_id : string;
  bat_name : string;
  bat_attr : option string;
}.

Record PlayerState := {
  id : string;
  name : string;
  mods : gset string;
  legacy_item : option string;
}.

Definition mods_for_player (player : Player) : list string :=
  perm_attr player ++ seas_attr player ++ game_attr player ++ item_attr player
  ++ match bat_attr player with Some a => [a] | None => [] end.

Definition from_player (player : Player) : PlayerState :=
  {| id := player_id player;
     name := player_name player;
     mods := list_to_set (mods_for_player player);
     legacy_item :=
       if negb (String.eqb (bat_id player) "") then Some (bat_name player)
       else None |}.

Definition set_mods (m : gset string) (p : PlayerState) : PlayerState :=
  {| id := id p; name := name p; mods := m; legacy_item := legacy_item p |}.

Record TeamState := {
  nickname : string;
  pitcher : PlayerState;
  lineup : list PlayerState;
  batter_index : Z;
}.

Definition set_pitcher (p : PlayerState) (t : TeamState) : TeamState :=
  {| nickname := nickname t; pitcher := p; lineup := lineup t;
     batter_index := batter_index t |}.
Definition set_lineup (l : list PlayerState) (t : TeamState) : TeamState :=
  {| nickname := nickname t; pitcher := pitcher t; lineup := l;
     batter_index := batter_index t |}.
Definition set_batter_index (i : Z) (t : TeamState) : TeamState :=
  {| nickname := nickname t; pitcher := pitcher t; lineup := lineup t;
     batter_index := i |}.

Definition advance_batter (t : TeamState) : TeamState :=
  let i := batter_index t + 1 in
  set_batter_index (if Z.of_nat (length (lineup t)) <=? i then 0 else i) t.

Definition PITCHER_MOD_ORDER : list string := ["COFFEE_RALLY"].
Definition BATTER_MOD_ORDER : list string := ["COFFEE_RALLY"].
Definition BASERUNNER_MOD_ORDER : list string := ["BLASERUNNING"; "COFFEE_RALLY"].

Fixpoint show_mod_from_list (mod_list : list string) (player : PlayerState)
  : string :=
  match mod_list with
  | [] => ""
  | m :: rest =>
      if bool_decide (m ∈ mods player) then m
      else show_mod_from_list rest player
  end.

Definition show_pitcher_mod := show_mod_from_list PITCHER_MOD_ORDER.
Definition show_batter_mod := show_mod_from_list BATTER_MOD_ORDER.
Definition show_runner_mod := show_mod_from_list BASERUNNER_MOD_ORDER.

Definition BASE_NUM_FOR_HIT (k : string) : option Z :=
  if String.eqb k "Single" then Some 0
  else if String.eqb k "Double" then Some 1
  else if String.eqb k "Triple" then Some 2
  else if String.eqb k "Quadruple" then Some 3
  else None.

Definition BASE_NUM_FOR_NAME (k : string) : option Z :=
  if String.eqb k "first" then Some 0
  else if String.eqb k "second" then Some 1
  else if String.eqb k "third" then Some 2
  else if String.eqb k "fourth" then Some 3
  else None.

(** ** Parse trees *)

(** What a parser of the [parsers] module returns: a tree whose nodes carry a
    rule name ([data]) and whose leaves are tokens. *)
Inductive tree : Type :=
  | Token (s : string)
  | Tree (data : string) (children : list tree).

Fixpoint tree_eqb (a b : tree) : bool :=
  match a, b with
  | Token s, Token t => String.eqb s t
  | Tree d l, Tree e k =>
      String.eqb d e &&
      (fix go (l k : list tree) : bool :=
         match l, k with
         | [], [] => true
         | x :: l', y :: k' => tree_eqb x y && go l' k'
         | _, _ => false
         end) l k
  | _, _ => false
  end.

(** [t == s] for a string [s]: a tree node never equals a string. *)
Definition tree_eq_str (t : tree) (s : string) : bool :=
  match t with Token s' => String.eqb s' s | Tree _ _ => false end.

(** [v == t] for a document value [v]. *)
Definition value_eq_tree (v : value) (t : tree) : bool :=
  match t with Token s => py_eq v (VStr s) | Tree _ _ => false end.

(** [t.data] and [t.children]; a token has neither. *)
Definition tree_data (t : tree) : option string :=
  match t with Tree d _ => Some d | Token _ => None end.
Definition tree_children (t : tree) : option (list tree) :=
  match t with Tree _ c => Some c | Token _ => None end.

(** A Chronicler update handed to [GameState.__init__]. *)
Record Update := {
  timestamp : string;
  data_of : gmap string value;
}.

(** The feed event, as far as the handlers read it. *)
Record FeedEvent := {
  type : Z;
  description : string;
  created : string;
  playerTags : list string;
}.

(** ** What the source imports *)

(** The module [parsers] is not part of the verified sources and neither are
    the roster service and the Python built-ins: the machine takes them as
    parameters.  The coffee-bean parser returns what its handler unpacks, two
    pairs of strings.  [load_one_at_time] is [Player.load_one_at_time],
    [load_at_time] is [Team.load_at_time] followed by [get_nickname] and
    [lineup].  [py_int] is [int(s)], [float_str] and [list_str] are [str] on
    floats and lists. *)
Record Env := {
  Parsers_batter_up : string → option tree;
  Parsers_steal : string → option tree;
  Parsers_walk : string → option tree;
  Parsers_strikeout : string → option tree;
  Parsers_fielding_out : string → option tree;
  Parsers_hit : string → option tree;
  Parsers_home_run : string → option tree;
  Parsers_mild_pitch : string → option tree;
  Parsers_blooddrain : string → option tree;
  Parsers_coffee_bean : string → option (list (list string));
  load_one_at_time : string → string → option Player;
  load_at_time : value → string → option (string * list Player);
  py_int : string → option Z;
  float_str : float → string;
  list_str : list value → string;
}.

(** ** The state machine *)

Record GameState := {
  expects_lets_go : bool;
  expects_play_ball : bool;
  expects_half_inning_start : bool;
  expects_batter_up : bool;
  expects_pitch : bool;
  expects_inning_end : bool;
  expects_game_end : bool;
  expects_reverberate : gmap string value;
  away : TeamState;
  home : TeamState;
  haunter : option PlayerState;
  game_update : gmap string value;
}.

Definition set_expects_lets_go (b : bool) (s : GameState) : GameState :=
  {| expects_lets_go := b; expects_play_ball := expects_play_ball s;
     expects_half_inning_start := expects_half_inning_start s;
     expects_batter_up := expects_batter_up s; expects_pitch := expects_pitch s;
     expects_inning_end := expects_inning_end s;
     expects_game_end := expects_game_end s;
     expects_reverberate := expects_reverberate s; away := away s;
     home := home s; haunter := haunter s; game_update := game_update s |}.
Definition set_expects_play_ball (b : bool) (s : GameState) : GameState :=
  {| expects_lets_go := expects_lets_go s; expects_play_ball := b;
     expects_half_inning_start := expects_half_inning_start s;
     expects_batter_up := expects_batter_up s; expects_pitch := expects_pitch s;
     expects_inning_end := expects_inning_end s;
     expects_game_end := expects_game_end s;
     expects_reverberate := expects_reverberate s; away := away s;
     home := home s; haunter := haunter s; game_update := game_update s |}.
Definition set_expects_half_inning_start (b : bool) (s : GameState)
  : GameState :=
  {| expects_lets_go := expects_lets_go s;
     expects_play_ball := expects_play_ball s;
     expects_half_inning_start := b;
     expects_batter_up := expects_batter_up s; expects_pitch := expects_pitch s;
     expects_inning_end := expects_inning_end s;
     expects_game_end := expects_game_end s;
     expects_reverberate := expects_reverberate s; away := away s;
     home := home s; haunter := haunter s; game_update := game_update s |}.
Definition set_expects_batter_up (b : bool) (s : GameState) : GameState :=
  {| expects_lets_go := expects_lets_go s;
     expects_play_ball := expects_play_ball s;
     expects_half_inning_start := expects_half_inning_start s;
     expects_batter_up := b; expects_pitch := expects_pitch s;
     expects_inning_end := expects_inning_end s;
     expects_game_end := expects_game_end s;
     expects_reverberate := expects_reverberate s; away := away s;
     home := home s; haunter := haunter s; game_update := game_update s |}.
Definition set_expects_pitch (b : bool) (s : GameState) : GameState :=
  {| expects_lets_go := expects_lets_go s;
     expects_play_ball := expects_play_ball s;
     expects_half_inning_start := expects_half_inning_start s;
     expects_batter_up := expects_batter_up s; expects_pitch := b;
     expects_inning_end := expects_inning_end s;
     expects_game_end := expects_game_end s;
     expects_reverberate := expects_reverberate s; away := away s;
     home := home s; haunter := haunter s; game_update := game_update s |}.
Definition set_expects_inning_end (b : bool) (s : GameState) : GameState :=
  {| expects_lets_go := expects_lets_go s;
     expects_play_ball := expects_play_ball s;
     expects_half_inning_start := expects_half_inning_start s;
     expects_batter_up := expects_batter_up s; expects_pitch := expects_pitch s;
     expects_inning_end := b;
     expects_game_end := expects_game_end s;
     expects_reverberate := expects_reverberate s; away := away s;
     home := home s; haunter := haunter s; game_update := game_update s |}.
Definition set_expects_game_end (b : bool) (s : GameState) : GameState :=
  {| expects_lets_go := expects_lets_go s;
     expects_play_ball := expects_play_ball s;
     expects_half_inning_start := expects_half_inning_start s;
     expects_batter_up := expects_batter_up s; expects_pitch := expects_pitch s;
     expects_inning_end := expects_inning_end s;
     expects_game_end := b;
     expects_reverberate := expects_reverberate s; away := away s;
     home := home s; haunter := haunter s; game_update := game_update s |}.
Definition set_expects_reverberate (r : gmap string value) (s : GameState)
  : GameState :=
  {| expects_lets_go := expects_lets_go s;
     expects_play_ball := expects_play_ball s;
     expects_half_inning_start := expects_half_inning_start s;
     expects_batter_up := expects_batter_up s; expects_pitch := expects_pitch s;
     expects_inning_end := expects_inning_end s;
     expects_game_end := expects_game_end s;
     expects_reverberate := r; away := away s;
     home := home s; haunter := haunter s; game_update := game_update s |}.
Definition set_away (t : TeamState) (s : GameState) : GameState :=
  {| expects_lets_go := expects_lets_go s;
     expects_play_ball := expects_play_ball s;
     expects_half_inning_start := expects_half_inning_start s;
     expects_batter_up := expects_batter_up s; expects_pitch := expects_pitch s;
     expects_inning_end := expects_inning_end s;
     expects_game_end := expects_game_end s;
     expects_reverberate := expects_reverberate s; away := t;
     home := home s; haunter := haunter s; game_update := game_update s |}.
Definition set_home (t : TeamState) (s : GameState) : GameState :=
  {| expects_lets_go := expects_lets_go s;
     expects_play_ball := expects_play_ball s;
     expects_half_inning_start := expects_half_inning_start s;
     expects_batter_up := expects_batter_up s; expects_pitch := expects_pitch s;
     expects_inning_end := expects_inning_end s;
     expects_game_end := expects_game_end s;
     expects_reverberate := expects_reverberate s; away := away s;
     home := t; haunter := haunter s; game_update := game_update s |}.
Definition set_haunter (h : option PlayerState) (s : GameState) : GameState :=
  {| expects_lets_go := expects_lets_go s;
     expects_play_ball := expects_play_ball s;
     expects_half_inning_start := expects_half_inning_start s;
     expects_batter_up := expects_batter_up s; expects_pitch := expects_pitch s;
     expects_inning_end := expects_inning_end s;
     expects_game_end := expects_game_end s;
     expects_reverberate := expects_reverberate s; away := away s;
     home := home s; haunter := h; game_update := game_update s |}.
Definition set_game_update (d : gmap string value) (s : GameState)
  : GameState :=
  {| expects_lets_go := expects_lets_go s;
     expects_play_ball := expects_play_ball s;
     expects_half_inning_start := expects_half_inning_start s;
     expects_batter_up := expects_batter_up s; expects_pitch := expects_pitch s;
     expects_inning_end := expects_inning_end s;
     expects_game_end := expects_game_end s;
     expects_reverberate := expects_reverberate s; away := away s;
     home := home s; haunter := haunter s; game_update := d |}.

(** *** The monad of handlers: state over [GameState], failure for a raised
    exception. *)

Definition M (A : Type) : Type := GameState → option (A * GameState).

Definition ret {A} (a : A) : M A := fun s => Some (a, s).
Definition bind {A B} (m : M A) (k : A → M B) : M B :=
  fun s => match m s with Some (a, s') => k a s' | None => None end.
Definition fail {A} : M A := fun _ => None.

Notation "x <- m ;; k" := (bind m (fun x => k))
  (at level 100, m at next level, right associativity).
Notation "m ;; k" := (bind m (fun _ => k))
  (at level 100, right associativity).

(** An [Optional] that raises when absent. *)
Definition liftO {A} (o : option A) : M A :=
  fun s => match o with Some a => Some (a, s) | None => None end.
Definition assert (b : bool) : M unit := if b then ret tt else fail.
Definition gets {A} (f : GameState → A) : M A := fun s => Some (f s, s).
Definition modify (f : GameState → GameState) : M unit :=
  fun s => Some (tt, f s).

(** [for x in l: f x] *)
Fixpoint forM_ {A} (l : list A) (f : A → M unit) : M unit :=
  match l with
  | [] => ret tt
  | x :: l' => f x ;; forM_ l' f
  end.

(** [self.game_update[k]], [self.game_update[k] = v],
    [self.game_update[k] += n]. *)
Definition doc_get (k : string) : M value :=
  fun s => match game_update s !! k with Some v => Some (v, s) | None => None end.
Definition doc_set (k : string) (v : value) : M unit :=
  modify (fun s => set_game_update (<[k:=v]> (game_update s)) s).
Definition doc_add (k : string) (n : value) : M unit :=
  v <- doc_get k ;; w <- liftO (py_add v n) ;; doc_set k w.
Definition doc_sub (k : string) (n : value) : M unit :=
  v <- doc_get k ;; w <- liftO (py_sub v n) ;; doc_set k w.
(** A field read as the list it has to be. *)
Definition doc_list (k : string) : M (list value) :=
  v <- doc_get k ;;
  match v with VList l => ret l | _ => fail end.
(** [self.game_update[k].append(x)], [self.game_update[k].pop(i)],
    [self.game_update[k][i] = x], [self.game_update[k][i] += n]. *)
Definition doc_append (k : string) (x : value) : M unit :=
  l <- doc_list k ;; doc_set k (VList (l ++ [x])).
Definition doc_pop (k : string) (i : nat) : M unit :=
  l <- doc_list k ;; l <- liftO (py_pop l i) ;; doc_set k (VList l).
Definition doc_item_set (k : string) (i : nat) (x : value) : M unit :=
  l <- doc_list k ;; l <- liftO (py_setitem l i x) ;; doc_set k (VList l).
Definition doc_item_add (k : string) (i : nat) (n : value) : M unit :=
  l <- doc_list k ;;
  x <- liftO (l !! i) ;;
  x <- liftO (py_add x n) ;;
  doc_item_set k i x.

(** [str(v)], as an f-string formats a value. *)
Definition py_str (E : Env) (v : value) : string :=
  match v with
  | VNone => "None"
  | VBool b => if b then "True" else "False"
  | VInt z => pretty z
  | VFloat f => float_str E f
  | VStr s => s
  | VList l => list_str E l
  end.

Section Machine.

Context (E : Env).

(** [Parsers.x.parse(description)]; a parse error is an exception. *)
Definition parse (p : string → option tree) (d : string) : M tree :=
  liftO (p d).
Definition data (t : tree) : M string := liftO (tree_data t).
Definition children (t : tree) : M (list tree) := liftO (tree_children t).
(** [int(t)] of a token. *)
Definition int_of_tree (t : tree) : M Z :=
  match t with Token s => liftO (py_int E s) | Tree _ _ => fail end.

Definition prefix (negate : bool) : M string :=
  t <- doc_get "topOfInning" ;;
  ret (if negb (py_eq t (VBool negate)) then "away" else "home").

Definition top_or_bottom (negate : bool) : M string :=
  t <- doc_get "topOfInning" ;;
  ret (if negb (py_eq t (VBool negate)) then "top" else "bottom").

Definition batting_team : M TeamState :=
  t <- doc_get "topOfInning" ;;
  gets (fun s => if truthy t then away s else home s).

Definition fielding_team : M TeamState :=
  t <- doc_get "topOfInning" ;;
  gets (fun s => if truthy t then home s else away s).

(** Mutation of the object [self.batting_team()] / [self.fielding_team()]. *)
Definition modify_batting_team (f : TeamState → TeamState) : M unit :=
  t <- doc_get "topOfInning" ;;
  modify (fun s => if truthy t then set_away (f (away s)) s
                   else set_home (f (home s)) s).

Definition modify_fielding_team (f : TeamState → TeamState) : M unit :=
  t <- doc_get "topOfInning" ;;
  modify (fun s => if truthy t then set_home (f (home s)) s
                   else set_away (f (away s)) s).

Definition batter : M PlayerState :=
  h <- gets haunter ;;
  match h with
  | Some p => ret p
  | None =>
      team_state <- batting_team ;;
      liftO (py_nth (lineup team_state) (batter_index team_state))
  end.

Definition assert_flag (f : GameState → bool) : M unit :=
  b <- gets f ;; assert b.

Definition update_lets_go (feed_event : FeedEvent) (_ : option (gmap string value))
  : M (option (gmap string value)) :=
  assert_flag expects_lets_go ;;
  assert (String.eqb (description feed_event) "Let's Go!") ;;
  modify (set_expects_lets_go false) ;;
  modify (set_expects_play_ball true) ;;
  doc_set "lastUpdate" (VStr "Let's Go!") ;;
  doc_set "gameStart" (VBool true) ;;
  doc_set "phase" (VInt 1) ;;
  a <- gets away ;;
  doc_set "awayPitcher" (VStr (id (pitcher a))) ;;
  doc_set "awayPitcherName" (VStr (name (pitcher a))) ;;
  doc_set "awayPitcherMod" (VStr (show_pitcher_mod (pitcher a))) ;;
  doc_set "awayTeamBatterCount" (VInt (-1)) ;;
  h <- gets home ;;
  doc_set "homePitcher" (VStr (id (pitcher h))) ;;
  doc_set "homePitcherName" (VStr (name (pitcher h))) ;;
  doc_set "homePitcherMod" (VStr (show_pitcher_mod (pitcher h))) ;;
  doc_set "homeTeamBatterCount" (VInt (-1)) ;;
  ret None.

Definition update_play_ball (feed_event : FeedEvent) (_ : option (gmap string value))
  : M (option (gmap string value)) :=
  assert_flag expects_play_ball ;;
  assert (String.eqb (description feed_event) "Play ball!") ;;
  modify (set_expects_play_ball false) ;;
  modify (set_expects_half_inning_start true) ;;
  doc_set "phase" (VInt 2) ;;
  doc_set "inning" (VInt (-1)) ;;
  doc_set "lastUpdate" (VStr "Play ball!") ;;
  doc_set "topOfInning" (VBool false) ;;
  doc_add "playCount" (VInt 1) ;;
  g <- gets game_update ;;
  let special_game_update :=
    <["homeTeamBatterCount" := VInt (-1)]>
    (<["homePitcherMod" := VStr ""]>
    (<["homePitcherName" := VStr ""]>
    (<["homePitcher" := VNone]>
    (<["awayPitcherMod" := VStr ""]>
    (<["awayPitcherName" := VStr ""]>
    (<["awayPitcher" := VNone]> g)))))) in
  ret (Some special_game_update).

Definition update_half_inning_start (feed_event : FeedEvent)
  (_ : option (gmap string value)) : M (option (gmap string value)) :=
  assert_flag expects_half_inning_start ;;
  doc_set "phase" (VInt 6) ;;
  t <- doc_get "topOfInning" ;;
  (if negb (truthy t) then
     i <- doc_get "inning" ;;
     (if py_eq i (VInt (-1)) then doc_set "gameStartPhase" (VInt 10)
      else doc_add "gameStartPhase" (VInt 1)) ;;
     doc_add "inning" (VInt 1)
   else ret tt) ;;
  t <- doc_get "topOfInning" ;;
  doc_set "topOfInning" (VBool (negb (truthy t))) ;;
  doc_set "halfInningScore" (VInt 0) ;;
  t <- doc_get "topOfInning" ;;
  let top_or_bottom := if truthy t then "Top" else "Bottom" in
  i <- doc_get "inning" ;;
  inning <- liftO (py_add i (VInt 1)) ;;
  p <- prefix false ;;
  team_name <- doc_get (p +:+ "TeamName") ;;
  let description' :=
    top_or_bottom +:+ " of " +:+ py_str E inning +:+ ", "
    +:+ py_str E team_name +:+ " batting." in
  assert (String.eqb (description feed_event) description') ;;
  doc_set "lastUpdate" (VStr description') ;;
  modify (set_expects_half_inning_start false) ;;
  modify (set_expects_batter_up true) ;;
  ret None.

Definition update_batter_up (feed_event : FeedEvent)
  (_ : option (gmap string value)) : M (option (gmap string value)) :=
  assert_flag expects_batter_up ;;
  parsed <- parse (Parsers_batter_up E) (description feed_event) ;;
  p <- prefix false ;;
  r <- gets (fun s => expects_reverberate s !! p) ;;
  r <- liftO r ;;
  (if negb (truthy r) then modify_batting_team advance_batter else ret tt) ;;
  cs <- children parsed ;;
  c0 <- liftO (head cs) ;;
  d0 <- data c0 ;;
  cs <- (if String.eqb d0 "inhabiting" then
           ch <- children c0 ;;
           match ch with
           | [haunter_name; haunted_name] =>
               tag <- liftO (head (playerTags feed_event)) ;;
               haunter' <- liftO (load_one_at_time E tag (created feed_event)) ;;
               assert (tree_eq_str haunter_name (player_name haunter')) ;;
               b <- batter ;;
               assert (tree_eq_str haunted_name (name b)) ;;
               modify (set_haunter (Some (from_player haunter'))) ;;
               ret (tail cs)
           | _ => fail
           end
         else ret cs) ;;
  match cs with
  | [] => fail
  | parsed_batter_up :: parsed_rest =>
      bc <- children parsed_batter_up ;;
      match bc with
      | [parsed_batter_name; parsed_team_name] =>
          batter' <- batter ;;
          team_state <- batting_team ;;
          assert (tree_eq_str parsed_team_name (nickname team_state)) ;;
          assert (tree_eq_str parsed_batter_name (name batter')) ;;
          forM_ parsed_rest (fun parsed_item =>
            d <- data parsed_item ;;
            assert (String.eqb d "wielding") ;;
            ic <- children parsed_item ;;
            match ic with
            | [parsed_bat] =>
                assert (match legacy_item batter' with
                        | Some it => tree_eq_str parsed_bat it
                        | None => false
                        end)
            | _ => fail
            end) ;;
          p <- prefix false ;;
          doc_set (p +:+ "Batter") (VStr (id batter')) ;;
          doc_set (p +:+ "BatterName") (VStr (name batter')) ;;
          doc_set (p +:+ "BatterMod") (VStr (show_batter_mod batter')) ;;
          doc_set "lastUpdate" (VStr (description feed_event)) ;;
          doc_add (p +:+ "TeamBatterCount") (VInt 1) ;;
          modify (set_expects_batter_up false) ;;
          modify (set_expects_pitch true) ;;
          ret None
      | _ => fail
      end
  end.

Definition _end_atbat : M unit :=
  p <- prefix false ;;
  doc_set (p +:+ "Batter") VNone ;;
  doc_set (p +:+ "BatterName") (VStr "") ;;
  doc_set (p +:+ "BatterMod") (VStr "") ;;
  doc_set "atBatBalls" (VInt 0) ;;
  doc_set "atBatStrikes" (VInt 0) ;;
  modify (set_expects_pitch false) ;;
  modify (set_expects_batter_up true) ;;
  modify (set_haunter None).

Definition _end_game : M unit :=
  doc_set "topInningScore" (VInt 0) ;;
  doc_set "bottomInningScore" (VInt 0) ;;
  doc_set "halfInningScore" (VInt 0) ;;
  doc_set "phase" (VInt 7) ;;
  modify (set_expects_pitch false) ;;
  modify (set_expects_game_end true).

Definition _end_half_inning (for_batter : bool) : M unit :=
  _end_atbat ;;
  doc_set "baseRunners" (VList []) ;;
  doc_set "baseRunnerNames" (VList []) ;;
  doc_set "baseRunnerMods" (VList []) ;;
  doc_set "baseRunnerMods" (VList []) ;;
  doc_set "basesOccupied" (VList []) ;;
  doc_set "baserunnerCount" (VInt 0) ;;
  doc_set "halfInningOuts" (VInt 0) ;;
  doc_set "phase" (VInt 3) ;;
  tb <- top_or_bottom false ;;
  (if String.eqb tb "bottom" then
     doc_set "topInningScore" (VInt 0) ;;
     doc_set "bottomInningScore" (VInt 0) ;;
     doc_set "halfInningScore" (VInt 0)
   else ret tt) ;;
  (if negb for_batter then
     p <- prefix false ;;
     doc_sub (p +:+ "TeamBatterCount") (VInt 1) ;;
     modify_batting_team (fun t => set_batter_index (batter_index t - 1) t)
   else ret tt) ;;
  modify (set_expects_batter_up false) ;;
  i <- doc_get "inning" ;;
  late <- liftO (py_le (VInt 8) i) ;;
  losing <- (if late then
               p <- prefix false ;;
               mine <- doc_get (p +:+ "Score") ;;
               q <- prefix true ;;
               theirs <- doc_get (q +:+ "Score") ;;
               liftO (py_lt mine theirs)
             else ret false) ;;
  if losing then _end_game
  else
    t <- doc_get "topOfInning" ;;
    if truthy t then modify (set_expects_half_inning_start true)
    else modify (set_expects_inning_end true).

(** The first half of [_update_out]: count the out, end the half-inning or
    the at-bat.  It returns the [prefix] the second half uses. *)
Definition _update_out_count (for_batter : bool) : M string :=
  doc_add "halfInningOuts" (VInt 1) ;;
  p <- prefix false ;;
  h <- doc_get "halfInningOuts" ;;
  o <- doc_get (p +:+ "Outs") ;;
  ended <- liftO (py_le o h) ;;
  (if ended then _end_half_inning for_batter
   else if for_batter then _end_atbat
   else ret tt) ;;
  ret p.

Definition set_reverberate (p : string) (v : value) : M unit :=
  modify (fun s => set_expects_reverberate (<[p:=v]> (expects_reverberate s)) s).

(** The second half of [_update_out]: the reverberation latch. *)
Definition _update_out_reverberate (p : string)
  (game_update' : option (gmap string value)) : M unit :=
  match game_update' with
  | None => set_reverberate p VNone
  | Some g =>
      mine <- doc_get (p +:+ "TeamBatterCount") ;;
      theirs <- liftO (g !! (p +:+ "TeamBatterCount")) ;;
      tbc_diff <- liftO (py_sub mine theirs) ;;
      if negb (py_eq tbc_diff (VInt 0)) then
        assert (py_eq tbc_diff (VInt 1)) ;;
        set_reverberate p (VBool true) ;;
        doc_sub (p +:+ "TeamBatterCount") (VInt 1)
      else set_reverberate p (VBool false)
  end.

Definition _update_out (game_update' : option (gmap string value))
  (for_batter : bool) : M unit :=
  p <- _update_out_count for_batter ;;
  _update_out_reverberate p game_update'.

Definition _maybe_advance_baserunners
  (game_update' : option (gmap string value)) : M unit :=
  match game_update' with
  | Some g =>
      mine <- doc_list "basesOccupied" ;;
      theirs <- liftO (g !! "basesOccupied") ;;
      match theirs with
      | VList l =>
          assert (bool_decide (length mine = length l)) ;;
          doc_set "basesOccupied" (VList l)
      | _ => fail
      end
  | None => ret tt
  end.

Definition _record_runs (runs_scored : num) : M unit :=
  if num_eqb runs_scored (NInt 1) then
    doc_set "scoreUpdate" (VStr "1 Run scored!")
  else if negb (num_eqb runs_scored (NInt 0)) then
    doc_set "scoreUpdate"
      (VStr (py_str E (of_num runs_scored) +:+ " Runs scored!"))
  else ret tt.

Definition _remove_baserunner_by_index (list_index : nat) : M unit :=
  doc_pop "baseRunners" list_index ;;
  doc_pop "baseRunnerNames" list_index ;;
  doc_pop "baseRunnerMods" list_index ;;
  doc_pop "basesOccupied" list_index ;;
  doc_sub "baserunnerCount" (VInt 1).

Definition _score_runs (runs : num) : M num :=
  p <- prefix false ;;
  doc_add (p +:+ "Score") (of_num runs) ;;
  doc_add "halfInningScore" (of_num runs) ;;
  tb <- top_or_bottom false ;;
  doc_add (tb +:+ "InningScore") (of_num runs) ;;
  ret runs.

(** [l.index(t)] for a parsed name [t]. *)
Fixpoint index_where (f : value → bool) (l : list value) : option nat :=
  match l with
  | [] => None
  | y :: l' => if f y then Some 0%nat else S <$> index_where f l'
  end.

Definition _score_player (scoring_player_name : tree) : M num :=
  names <- doc_list "baseRunnerNames" ;;
  index <- liftO (index_where (fun v => value_eq_tree v scoring_player_name)
                    names) ;;
  _remove_baserunner_by_index index ;;
  _score_runs (NInt 1).

(** The loop of [_player_to_base], run from the last runner to the first:
    the result for a list is computed from the result for its tail, together
    with [highest_occupied_base]. *)
Fixpoint advance_runners (l : list value) : option (list value * value) :=
  match l with
  | [] => Some ([], VInt (-1))
  | x :: l' =>
      match advance_runners l' with
      | Some (l'', highest_occupied_base) =>
          match py_le x highest_occupied_base with
          | Some true =>
              match py_add highest_occupied_base (VInt 1) with
              | Some next_base => Some (next_base :: l'', next_base)
              | None => None
              end
          | Some false => Some (x :: l'', x)
          | None => None
          end
      | None => None
      end
  end.

Definition _player_to_base (batter' : PlayerState) (base_num : Z) : M unit :=
  doc_append "baseRunners" (VStr (id batter')) ;;
  doc_append "baseRunnerNames" (VStr (name batter')) ;;
  doc_append "baseRunnerMods" (VStr (show_runner_mod batter')) ;;
  doc_append "basesOccupied" (VInt base_num) ;;
  doc_add "baserunnerCount" (VInt 1) ;;
  l <- doc_list "basesOccupied" ;;
  r <- liftO (advance_runners l) ;;
  doc_set "basesOccupied" (VList r.1).

(** [[i for i, p in enumerate(l) if f p]] *)
Fixpoint positions_where {A} (f : A → bool) (i : nat) (l : list A) : list nat :=
  match l with
  | [] => []
  | x :: l' =>
      if f x then i :: positions_where f (S i) l'
      else positions_where f (S i) l'
  end.

Definition _apply_scoring_extras (parsed_extras : list tree) : M unit :=
  forM_ parsed_extras (fun parsed_sub_item =>
    d <- data parsed_sub_item ;;
    assert (String.eqb d "use_free_refill") ;;
    c <- children parsed_sub_item ;;
    match c with
    | [parsed_name; parsed_name2] =>
        assert (tree_eqb parsed_name parsed_name2) ;;
        b <- batter ;;
        known <-
          (if tree_eq_str parsed_name (name b) then ret true
           else
             ft <- fielding_team ;;
             if tree_eq_str parsed_name (name (pitcher ft)) then ret true
             else
               names <- doc_list "baseRunnerNames" ;;
               ret (existsb (fun v => value_eq_tree v parsed_name) names)) ;;
        assert known ;;
        doc_sub "halfInningOuts" (VInt 1) ;;
        ft <- fielding_team ;;
        if tree_eq_str parsed_name (name (pitcher ft))
           && bool_decide ("COFFEE_RALLY" ∈ mods (pitcher ft))
        then
          modify_fielding_team (fun t =>
            set_pitcher
              (set_mods (mods (pitcher t) ∖ {["COFFEE_RALLY"]}) (pitcher t)) t) ;;
          q <- prefix true ;;
          ft <- fielding_team ;;
          doc_set (q +:+ "PitcherMod") (VStr (show_pitcher_mod (pitcher ft)))
        else
          bt <- batting_team ;;
          let possible_refillers :=
            positions_where
              (fun p => tree_eq_str parsed_name (name p)
                        && bool_decide ("COFFEE_RALLY" ∈ mods p))
              0 (lineup bt) in
          match possible_refillers with
          | [i] =>
              r <- liftO (lineup bt !! i) ;;
              let refiller := set_mods (mods r ∖ {["COFFEE_RALLY"]}) r in
              modify_batting_team (fun t =>
                set_lineup (<[i:=refiller]> (lineup t)) t) ;;
              b <- batter ;;
              (if String.eqb (id b) (id refiller) then
                 p <- prefix false ;;
                 doc_set (p +:+ "BatterMod") (VStr (show_batter_mod refiller))
               else ret tt) ;;
              runners <- doc_list "baseRunners" ;;
              forM_ (zip (seq 0 (length runners)) runners)
                (fun '(runner_i, runner_id) =>
                   if py_eq runner_id (VStr (id refiller)) then
                     doc_item_set "baseRunnerMods" runner_i
                       (VStr (show_runner_mod refiller))
                   else ret tt)
          | _ => fail
          end
    | _ => fail
    end).

(** A loop that carries an accumulator. *)
Fixpoint foldM {A B} (l : list A) (acc : B) (f : B → A → M B) : M B :=
  match l with
  | [] => ret acc
  | x :: l' => acc' <- f acc x ;; foldM l' acc' f
  end.

Definition _update_scores (parsed_rest : list tree) : M unit :=
  runs_scored <- foldM parsed_rest (NInt 0) (fun runs_scored parsed_item =>
    d <- data parsed_item ;;
    assert (String.eqb d "score" || String.eqb d "sacrifice") ;;
    c <- children parsed_item ;;
    match c with
    | scoring_player_name :: parsed_extras =>
        _apply_scoring_extras parsed_extras ;;
        r <- _score_player scoring_player_name ;;
        liftO (num_add runs_scored r)
    | [] => fail
    end) ;;
  _record_runs runs_scored.

(** [parsed_extras and parsed_extras[0].data == tag] *)
Definition head_has_data (tag : string) (l : list tree) : M bool :=
  match l with
  | [] => ret false
  | t :: _ => d <- data t ;; ret (String.eqb d tag)
  end.

Definition update_base_steal (feed_event : FeedEvent)
  (game_update' : option (gmap string value))
  : M (option (gmap string value)) :=
  assert_flag expects_pitch ;;
  parsed <- parse (Parsers_steal E) (description feed_event) ;;
  cs <- children parsed ;;
  match cs with
  | [] => fail
  | parsed_steal :: parsed_extras =>
      kind <- data parsed_steal ;;
      assert (String.eqb kind "stolen_base"
              || String.eqb kind "caught_stealing") ;;
      sc <- children parsed_steal ;;
      match sc with
      | [stealer_name; base_name] =>
          base_stolen <-
            liftO (match base_name with
                   | Token b => BASE_NUM_FOR_NAME b
                   | Tree _ _ => None
                   end) ;;
          occupied <- doc_list "basesOccupied" ;;
          stealer_idx <- liftO (py_index occupied (VInt (base_stolen - 1))) ;;
          names <- doc_list "baseRunnerNames" ;;
          stealer <- liftO (names !! stealer_idx) ;;
          assert (value_eq_tree stealer stealer_name) ;;
          runs_scored <-
            (if String.eqb kind "stolen_base" then
               doc_item_add "basesOccupied" stealer_idx (VInt 1) ;;
               blaserunning <- head_has_data "blaserunning" parsed_extras ;;
               r1 <-
                 match parsed_extras with
                 | parsed_blaserunning :: rest =>
                     if blaserunning then
                       bc <- children parsed_blaserunning ;;
                       match bc with
                       | [parsed_blaserunner_name] =>
                           assert (tree_eqb stealer_name
                                     parsed_blaserunner_name) ;;
                           r <- _score_runs
                                  (NFloat 0x1.999999999999ap-3%float) ;;
                           r <- liftO (num_add (NInt 0) r) ;;
                           ret (r, rest, true)
                       | _ => fail
                       end
                     else ret (NInt 0, parsed_extras, false)
                 | [] => ret (NInt 0, parsed_extras, false)
                 end ;;
               let '(runs_scored, parsed_extras, expects_extras) := r1 in
               p <- prefix false ;;
               bases <- doc_get (p +:+ "Bases") ;;
               r2 <-
                 (if py_eq (VInt (base_stolen + 1)) bases then
                    r <- _score_player stealer_name ;;
                    r <- liftO (num_add runs_scored r) ;;
                    ret (r, true)
                  else ret (runs_scored, expects_extras)) ;;
               let '(runs_scored, expects_extras) := r2 in
               (if expects_extras then _apply_scoring_extras parsed_extras
                else assert (bool_decide (length parsed_extras = 0%nat))) ;;
               ret runs_scored
             else
               assert (String.eqb kind "caught_stealing") ;;
               _remove_baserunner_by_index stealer_idx ;;
               _update_out game_update' false ;;
               ret (NInt 0)) ;;
          _record_runs runs_scored ;;
          doc_set "lastUpdate" (VStr (description feed_event)) ;;
          ret None
      | _ => fail
      end
  end.

Definition _update_walk_generic (batter' : PlayerState) : M unit :=
  _player_to_base batter' 0 ;;
  _end_atbat.

Definition update_walk (feed_event : FeedEvent)
  (_ : option (gmap string value)) : M (option (gmap string value)) :=
  assert_flag expects_pitch ;;
  parsed <- parse (Parsers_walk E) (description feed_event) ;;
  cs <- children parsed ;;
  match cs with
  | [] => fail
  | parsed_walk :: parsed_rest =>
      wc <- children parsed_walk ;;
      match wc with
      | [parsed_walker_name] =>
          batter' <- batter ;;
          assert (tree_eq_str parsed_walker_name (name batter')) ;;
          _update_walk_generic batter' ;;
          _update_scores parsed_rest ;;
          doc_set "lastUpdate" (VStr (description feed_event)) ;;
          ret None
      | _ => fail
      end
  end.

Definition update_strikeout (feed_event : FeedEvent)
  (game_update' : option (gmap string value))
  : M (option (gmap string value)) :=
  assert_flag expects_pitch ;;
  parsed <- parse (Parsers_strikeout E) (description feed_event) ;;
  batter' <- batter ;;
  kind <- data parsed ;;
  (if String.eqb kind "strikeout" then
     c <- children parsed ;;
     match c with
     | [parsed_name; strikeout_type] =>
         assert (tree_eq_str parsed_name (name batter')) ;;
         strikes <- doc_get "atBatStrikes" ;;
         strikes <- liftO (py_add strikes (VInt 1)) ;;
         p <- prefix false ;;
         limit <- doc_get (p +:+ "Strikes") ;;
         assert (py_eq strikes limit)
     | _ => fail
     end
   else
     assert (String.eqb kind "charm_strikeout") ;;
     c <- children parsed ;;
     match c with
     | [charming_player_name; charmed_player_name; charmed_player_name2;
        parsed_swings] =>
         ft <- fielding_team ;;
         assert (tree_eq_str charming_player_name (name (pitcher ft))) ;;
         assert (tree_eq_str charmed_player_name (name batter')) ;;
         assert (tree_eq_str charmed_player_name2 (name batter')) ;;
         swings <- int_of_tree parsed_swings ;;
         p <- prefix false ;;
         limit <- doc_get (p +:+ "Strikes") ;;
         assert (py_eq (VInt swings) limit)
     | _ => fail
     end) ;;
  doc_set "lastUpdate" (VStr (description feed_event)) ;;
  _update_out game_update' true ;;
  ret None.

(** [(first, *middle, last) = l] *)
Definition split_ends {A} (l : list A) : option (A * list A * A) :=
  match l with
  | x :: rest =>
      match last rest with
      | Some z => Some (x, removelast rest, z)
      | None => None
      end
  | [] => None
  end.

Definition _update_fielding_out (feed_event : FeedEvent)
  (game_update' : option (gmap string value)) : M unit :=
  assert_flag expects_pitch ;;
  parsed <- parse (Parsers_fielding_out E) (description feed_event) ;;
  batter' <- batter ;;
  kind <- data parsed ;;
  cs <- children parsed ;;
  r <-
    (if String.eqb kind "ground_out_full" || String.eqb kind "flyout_full"
     then
       match cs with
       | parsed_out :: parsed_scores =>
           oc <- children parsed_out ;;
           match oc with
           | [batter_name; fielder] =>
               ft <- fielding_team ;;
               assert (existsb (fun defender =>
                                  tree_eq_str fielder (name defender))
                         (lineup ft)) ;;
               ret (batter_name, parsed_scores)
           | _ => fail
           end
       | [] => fail
       end
     else if String.eqb kind "double_play_full" then
       match cs with
       | parsed_out :: parsed_scores =>
           oc <- children parsed_out ;;
           match oc with
           | [batter_name] =>
               doc_add "halfInningOuts" (VInt 1) ;;
               h <- doc_get "halfInningOuts" ;;
               p <- prefix false ;;
               o <- doc_get (p +:+ "Outs") ;;
               inside <- liftO (py_lt h o) ;;
               assert inside ;;
               _update_scores parsed_scores ;;
               h <- doc_get "halfInningOuts" ;;
               h <- liftO (py_add h (VInt 1)) ;;
               p <- prefix false ;;
               o <- doc_get (p +:+ "Outs") ;;
               ending <- liftO (py_le o h) ;;
               (if negb ending then
                  g <- liftO game_update' ;;
                  mine <- doc_list "baseRunners" ;;
                  theirs <- liftO (g !! "baseRunners") ;;
                  match theirs with
                  | VList theirs =>
                      set_diff <- liftO (py_set_diff mine theirs) ;;
                      match set_diff with
                      | [out_id] =>
                          mine <- doc_list "baseRunners" ;;
                          out_i <- liftO (py_index mine out_id) ;;
                          _remove_baserunner_by_index out_i
                      | _ => fail
                      end
                  | _ => fail
                  end
                else ret tt) ;;
               ret (batter_name, [])
           | _ => fail
           end
       | [] => fail
       end
     else
       assert (String.eqb kind "fielders_choice") ;;
       match split_ends cs with
       | Some (parsed_out, parsed_scores, parsed_reaches) =>
           oc <- children parsed_out ;;
           match oc with
           | [runner_out; base_name] =>
               rc <- children parsed_reaches ;;
               match rc with
               | [batter_name] =>
                   names <- doc_list "baseRunnerNames" ;;
                   runner_i <-
                     liftO (index_where
                              (fun v => value_eq_tree v runner_out) names) ;;
                   _remove_baserunner_by_index runner_i ;;
                   _player_to_base batter' 0 ;;
                   ret (batter_name, parsed_scores)
               | _ => fail
               end
           | _ => fail
           end
       | None => fail
       end) ;;
  let '(batter_name, parsed_scores) := r in
  assert (tree_eq_str batter_name (name batter')) ;;
  _update_scores parsed_scores ;;
  doc_set "lastUpdate" (VStr (description feed_event)) ;;
  _update_out game_update' true ;;
  _maybe_advance_baserunners game_update'.

Definition update_flyout (feed_event : FeedEvent)
  (game_update' : option (gmap string value))
  : M (option (gmap string value)) :=
  _update_fielding_out feed_event game_update' ;; ret None.

Definition update_ground_out (feed_event : FeedEvent)
  (game_update' : option (gmap string value))
  : M (option (gmap string value)) :=
  _update_fielding_out feed_event game_update' ;; ret None.

(** The [for ... else] loop of [_update_count]. *)
Fixpoint _update_count_loop (feed_event : FeedEvent) (balls strikes : value)
  (text_options : list string) : M unit :=
  match text_options with
  | [] => fail
  | text :: rest =>
      let description' :=
        text +:+ ". " +:+ py_str E balls +:+ "-" +:+ py_str E strikes in
      if String.eqb (description feed_event) description' then
        doc_set "lastUpdate" (VStr description')
      else _update_count_loop feed_event balls strikes rest
  end.

Definition _update_count (feed_event : FeedEvent) (text_options : list string)
  : M unit :=
  balls <- doc_get "atBatBalls" ;;
  strikes <- doc_get "atBatStrikes" ;;
  _update_count_loop feed_event balls strikes text_options.

Definition update_ball (feed_event : FeedEvent)
  (_ : option (gmap string value)) : M (option (gmap string value)) :=
  assert_flag expects_pitch ;;
  doc_add "atBatBalls" (VInt 1) ;;
  _update_count feed_event ["Ball"] ;;
  ret None.

Definition update_foul_ball (feed_event : FeedEvent)
  (_ : option (gmap string value)) : M (option (gmap string value)) :=
  assert_flag expects_pitch ;;
  strikes <- doc_get "atBatStrikes" ;;
  strikes <- liftO (py_add strikes (VInt 1)) ;;
  p <- prefix false ;;
  limit <- doc_get (p +:+ "Strikes") ;;
  room <- liftO (py_lt strikes limit) ;;
  (if room then doc_add "atBatStrikes" (VInt 1) else ret tt) ;;
  _update_count feed_event ["Foul Ball"] ;;
  ret None.

Definition update_strike_zapped (feed_event : FeedEvent)
  (_ : option (gmap string value)) : M (option (gmap string value)) :=
  assert_flag expects_pitch ;;
  let description' := "The Electricity zaps a strike away!" in
  assert (String.eqb (description feed_event) description') ;;
  doc_set "lastUpdate" (VStr description') ;;
  strikes <- doc_get "atBatStrikes" ;;
  positive <- liftO (py_lt (VInt 0) strikes) ;;
  assert positive ;;
  doc_sub "atBatStrikes" (VInt 1) ;;
  ret None.

Definition update_mild_pitch (feed_event : FeedEvent)
  (_ : option (gmap string value)) : M (option (gmap string value)) :=
  assert_flag expects_pitch ;;
  parsed <- parse (Parsers_mild_pitch E) (description feed_event) ;;
  cs <- children parsed ;;
  match cs with
  | mild_pitch :: parsed_pitch :: parsed_rest =>
      d <- data mild_pitch ;;
      assert (String.eqb d "mild_pitch") ;;
      mc <- children mild_pitch ;;
      match mc with
      | [mild_pitcher_name] =>
          ft <- fielding_team ;;
          assert (tree_eq_str mild_pitcher_name (name (pitcher ft))) ;;
          kind <- data parsed_pitch ;;
          (if String.eqb kind "ball" then
             pc <- children parsed_pitch ;;
             match pc with
             | [parsed_balls; parsed_strikes] =>
                 doc_add "atBatBalls" (VInt 1) ;;
                 balls <- doc_get "atBatBalls" ;;
                 n <- int_of_tree parsed_balls ;;
                 assert (py_eq balls (VInt n)) ;;
                 strikes <- doc_get "atBatStrikes" ;;
                 n <- int_of_tree parsed_strikes ;;
                 assert (py_eq strikes (VInt n))
             | _ => fail
             end
           else
             assert (String.eqb kind "walk") ;;
             pc <- children parsed_pitch ;;
             match pc with
             | [parsed_walker] =>
                 batter' <- batter ;;
                 assert (tree_eq_str parsed_walker (name batter')) ;;
                 _update_walk_generic batter'
             | _ => fail
             end) ;;
          _update_scores parsed_rest ;;
          doc_set "lastUpdate" (VStr (description feed_event)) ;;
          ret None
      | _ => fail
      end
  | _ => fail
  end.

Definition update_strike (feed_event : FeedEvent)
  (_ : option (gmap string value)) : M (option (gmap string value)) :=
  assert_flag expects_pitch ;;
  doc_add "atBatStrikes" (VInt 1) ;;
  _update_count feed_event
    ["Strike, swinging"; "Strike, looking"; "Strike, flinching"] ;;
  ret None.

Definition update_home_run (feed_event : FeedEvent)
  (_ : option (gmap string value)) : M (option (gmap string value)) :=
  assert_flag expects_pitch ;;
  parsed <- parse (Parsers_home_run E) (description feed_event) ;;
  cs <- children parsed ;;
  match cs with
  | parsed_hr :: parsed_rest =>
      hc <- children parsed_hr ;;
      match hc with
      | [batter_name; parsed_hr_type] =>
          kind <- data parsed_hr_type ;;
          num_scores <-
            (if String.eqb kind "solo_hr" then ret 1
             else
               assert (String.eqb kind "multi_hr") ;;
               tc <- children parsed_hr_type ;;
               match tc with
               | [num_scores_str] => int_of_tree num_scores_str
               | _ => fail
               end) ;;
          _apply_scoring_extras parsed_rest ;;
          forM_ (replicate (Z.to_nat (num_scores - 1)) tt)
            (fun _ => _remove_baserunner_by_index 0) ;;
          runners <- doc_list "baseRunners" ;;
          assert (bool_decide (length runners = 0%nat)) ;;
          doc_set "lastUpdate" (VStr (description feed_event)) ;;
          _score_runs (NInt num_scores) ;;
          _record_runs (NInt num_scores) ;;
          _end_atbat ;;
          ret None
      | _ => fail
      end
  | [] => fail
  end.

(** The body of [update_hit] once the description is parsed. *)
Definition update_hit_parsed (parsed : tree) (feed_event : FeedEvent)
  (game_update' : option (gmap string value))
  : M (option (gmap string value)) :=
  cs <- children parsed ;;
  match cs with
  | parsed_hit :: parsed_rest =>
      hc <- children parsed_hit ;;
      match hc with
      | [batter_name; base_name] =>
          heating <- head_has_data "heating_up" parsed_rest ;;
          parsed_rest <-
            match parsed_rest with
            | heating_up :: rest =>
                if heating then
                  uc <- children heating_up ;;
                  match uc with
                  | [heating_up_name] =>
                      assert (tree_eqb heating_up_name batter_name) ;;
                      ret rest
                  | _ => fail
                  end
                else ret parsed_rest
            | [] => ret parsed_rest
            end ;;
          batter' <- batter ;;
          assert (tree_eq_str batter_name (name batter')) ;;
          _update_scores parsed_rest ;;
          doc_set "lastUpdate" (VStr (description feed_event)) ;;
          base_num <-
            liftO (match base_name with
                   | Token b => BASE_NUM_FOR_HIT b
                   | Tree _ _ => None
                   end) ;;
          _player_to_base batter' base_num ;;
          _end_atbat ;;
          _maybe_advance_baserunners game_update' ;;
          ret None
      | _ => fail
      end
  | [] => fail
  end.

Definition update_hit (feed_event : FeedEvent)
  (game_update' : option (gmap string value))
  : M (option (gmap string value)) :=
  assert_flag expects_pitch ;;
  parsed <- parse (Parsers_hit E) (description feed_event) ;;
  update_hit_parsed parsed feed_event game_update'.

(** The description [update_game_score] builds. *)
Definition game_score_description : M string :=
  a <- gets away ;;
  away_score <- doc_get "awayScore" ;;
  let away_text := nickname a +:+ " " +:+ py_str E away_score in
  h <- gets home ;;
  home_score <- doc_get "homeScore" ;;
  let home_text := nickname h +:+ " " +:+ py_str E home_score in
  home_score <- doc_get "homeScore" ;;
  away_score <- doc_get "awayScore" ;;
  home_wins <- liftO (py_lt away_score home_score) ;;
  ret (if home_wins then home_text +:+ ", " +:+ away_text
       else away_text +:+ ", " +:+ home_text).

Definition update_game_score (feed_event : FeedEvent)
  (_ : option (gmap string value)) : M (option (gmap string value)) :=
  assert_flag expects_game_end ;;
  description' <- game_score_description ;;
  assert (String.eqb description' (description feed_event)) ;;
  doc_set "lastUpdate" (VStr description') ;;
  doc_set "finalized" (VBool true) ;;
  doc_set "gameComplete" (VBool true) ;;
  ret None.

Definition update_blooddrain (feed_event : FeedEvent)
  (_ : option (gmap string value)) : M (option (gmap string value)) :=
  assert_flag expects_pitch ;;
  parsed <- parse (Parsers_blooddrain E) (description feed_event) ;;
  kind <- data parsed ;;
  (if String.eqb kind "siphon" then
     c <- children parsed ;;
     match c with
     | [siphon_target; siphon_action] =>
         tc <- children siphon_target ;;
         match tc with
         | [sipper_name; sipper_name2; sippee_name; sip_category] =>
             assert (tree_eqb sipper_name sipper_name2) ;;
             action <- data siphon_action ;;
             if String.eqb action "blooddrain_strike" then
               ac <- children siphon_action ;;
               match ac with
               | [sipper_name3] =>
                   assert (tree_eqb sipper_name sipper_name3) ;;
                   doc_add "atBatStrikes" (VInt 1) ;;
                   strikes <- doc_get "atBatStrikes" ;;
                   p <- prefix false ;;
                   limit <- doc_get (p +:+ "Strikes") ;;
                   inside <- liftO (py_lt strikes limit) ;;
                   assert inside
               | _ => fail
               end
             else fail
         | _ => fail
         end
     | _ => fail
     end
   else fail) ;;
  doc_set "lastUpdate" (VStr (description feed_event)) ;;
  ret None.

Definition update_inning_end (feed_event : FeedEvent)
  (_ : option (gmap string value)) : M (option (gmap string value)) :=
  assert_flag expects_inning_end ;;
  i <- doc_get "inning" ;;
  inning <- liftO (py_add i (VInt 1)) ;;
  let description' :=
    "Inning " +:+ py_str E inning +:+ " is now an Outing." in
  assert (String.eqb (description feed_event) description') ;;
  doc_set "lastUpdate" (VStr description') ;;
  doc_set "phase" (VInt 2) ;;
  modify (set_expects_inning_end false) ;;
  modify (set_expects_half_inning_start true) ;;
  ret None.

Definition update_no_state_change_pitch (feed_event : FeedEvent)
  (_ : option (gmap string value)) : M (option (gmap string value)) :=
  assert_flag expects_pitch ;;
  doc_set "lastUpdate" (VStr (description feed_event)) ;;
  ret None.

Definition update_no_state_change_batter_up (feed_event : FeedEvent)
  (_ : option (gmap string value)) : M (option (gmap string value)) :=
  assert_flag expects_batter_up ;;
  doc_set "lastUpdate" (VStr (description feed_event)) ;;
  ret None.

Definition update_coffee_bean (feed_event : FeedEvent)
  (_ : option (gmap string value)) : M (option (gmap string value)) :=
  assert_flag expects_pitch ;;
  parsed <- liftO (Parsers_coffee_bean E (description feed_event)) ;;
  match parsed with
  | [[bean_player_name; bean_flavor]; [mod_player_name; mod_name]] =>
      assert (String.eqb bean_player_name mod_player_name) ;;
      ret None
  | _ => fail
  end.

(** The table [GameState.update_type]. *)
Definition update_type (code : Z)
  : option (FeedEvent → option (gmap string value)
            → M (option (gmap string value))) :=
  match code with
  | 0 => Some update_lets_go
  | 1 => Some update_play_ball
  | 2 => Some update_half_inning_start
  | 4 => Some update_base_steal
  | 5 => Some update_walk
  | 6 => Some update_strikeout
  | 7 => Some update_flyout
  | 8 => Some update_ground_out
  | 9 => Some update_home_run
  | 10 => Some update_hit
  | 11 => Some update_game_score
  | 12 => Some update_batter_up
  | 13 => Some update_strike
  | 14 => Some update_ball
  | 15 => Some update_foul_ball
  | 25 => Some update_strike_zapped
  | 27 => Some update_mild_pitch
  | 28 => Some update_inning_end
  | 39 => Some update_coffee_bean
  | 52 => Some update_blooddrain
  | 73 => Some update_no_state_change_pitch
  | 92 => Some update_no_state_change_batter_up
  | _ => None
  end.

(** The driver [GameState.update]: it returns the emitted document. *)
Definition update (feed_event : FeedEvent)
  (game_update' : option (gmap string value)) : M (gmap string value) :=
  doc_set "scoreUpdate" (VStr "") ;;
  update_func <- liftO (update_type (type feed_event)) ;;
  returned <- update_func feed_event game_update' ;;
  match returned with
  | Some d => ret d
  | None =>
      doc_add "playCount" (VInt 1) ;;
      gets game_update
  end.

(** *** Construction *)

Fixpoint first_truthy (updates : list Update) (key : string) : option value :=
  match updates with
  | [] => Some VNone
  | u :: rest =>
      match data_of u !! key with
      | Some v => if truthy v then Some v else first_truthy rest key
      | None => None
      end
  end.

(** [{u['data'][key] for u in updates if u['data'][key] != ''}] *)
Fixpoint pitcher_mods (updates : list Update) (key : string)
  : option (gset string) :=
  match updates with
  | [] => Some ∅
  | u :: rest =>
      match data_of u !! key, pitcher_mods rest key with
      | Some (VStr m), Some ms =>
          Some (if String.eqb m "" then ms else {[m]} ∪ ms)
      | _, _ => None
      end
  end.

Definition TeamState_init (updates : list Update) (timestamp' : string)
  (prefix' : string) : option TeamState :=
  team_id ← first_truthy updates (prefix' +:+ "Team");
  team ← load_at_time E team_id timestamp';
  pitcher_id ← first_truthy updates (prefix' +:+ "Pitcher");
  pitcher_name ← first_truthy updates (prefix' +:+ "PitcherName");
  ms ← pitcher_mods updates (prefix' +:+ "PitcherMod");
  match pitcher_id, pitcher_name with
  | VStr i, VStr n =>
      if truthy pitcher_id && truthy pitcher_name then
        Some {| nickname := team.1;
                pitcher := {| id := i; name := n; mods := ms;
                              legacy_item := Some "" |};
                lineup := from_player <$> team.2;
                batter_index := -1 |}
      else None
  | _, _ => None
  end.

(** [next(u for u in updates if u['data']['playCount'] > 0)] *)
Fixpoint time_update (updates : list Update) : option Update :=
  match updates with
  | [] => None
  | u :: rest =>
      match data_of u !! "playCount" with
      | Some c =>
          match py_lt (VInt 0) c with
          | Some true => Some u
          | Some false => time_update rest
          | None => None
          end
      | None => None
      end
  end.

Definition GameState_init (updates : list Update) : option GameState :=
  tu ← time_update updates;
  away' ← TeamState_init updates (timestamp tu) "away";
  home' ← TeamState_init updates (timestamp tu) "home";
  u0 ← head updates;
  let first k := data_of u0 !! k in
  let truthy1 k := first_truthy updates k in
  id' ← first "id"; day ← first "day"; rules ← first "rules";
  season ← first "season"; weather ← first "weather";
  awayOdds ← truthy1 "awayOdds"; awayOuts ← truthy1 "awayOuts";
  awayTeam ← truthy1 "awayTeam"; homeOdds ← truthy1 "homeOdds";
  homeOuts ← truthy1 "homeOuts"; homeTeam ← truthy1 "homeTeam";
  awayBalls ← truthy1 "awayBalls"; awayBases ← truthy1 "awayBases";
  homeBalls ← truthy1 "homeBalls"; homeBases ← truthy1 "homeBases";
  stadiumId ← first "stadiumId"; statsheet ← first "statsheet";
  tournament ← first "tournament";
  awayStrikes ← truthy1 "awayStrikes"; homeStrikes ← truthy1 "homeStrikes";
  seriesIndex ← first "seriesIndex"; terminology ← first "terminology";
  awayTeamName ← truthy1 "awayTeamName";
  homeTeamName ← truthy1 "homeTeamName";
  isPostseason ← first "isPostseason"; isTitleMatch ← first "isTitleMatch";
  seriesLength ← first "seriesLength";
  awayTeamColor ← truthy1 "awayTeamColor";
  awayTeamEmoji ← truthy1 "awayTeamEmoji";
  homeTeamColor ← truthy1 "homeTeamColor";
  homeTeamEmoji ← truthy1 "homeTeamEmoji";
  awayTeamNickname ← truthy1 "awayTeamNickname";
  homeTeamNickname ← truthy1 "homeTeamNickname";
  awayTeamSecondaryColor ← truthy1 "awayTeamSecondaryColor";
  homeTeamSecondaryColor ← truthy1 "homeTeamSecondaryColor";
  Some {|
    expects_lets_go := true;
    expects_play_ball := false;
    expects_half_inning_start := false;
    expects_batter_up := false;
    expects_pitch := false;
    expects_inning_end := false;
    expects_game_end := false;
    expects_reverberate :=
      <["home" := VBool false]> (<["away" := VBool false]> ∅);
    away := away';
    home := home';
    haunter := None;
    game_update := list_to_map [
      ("id", id'); ("day", day); ("phase", VInt 2); ("rules", rules);
      ("shame", VBool false); ("inning", VInt 0); ("season", season);
      ("weather", weather); ("awayOdds", awayOdds); ("awayOuts", awayOuts);
      ("awayTeam", awayTeam); ("homeOdds", homeOdds); ("homeOuts", homeOuts);
      ("homeTeam", homeTeam); ("outcomes", VList []);
      ("awayBalls", awayBalls); ("awayBases", awayBases);
      ("awayScore", VInt 0); ("finalized", VBool false);
      ("gameStart", VBool false); ("homeBalls", homeBalls);
      ("homeBases", homeBases); ("homeScore", VInt 0); ("playCount", VInt 0);
      ("stadiumId", stadiumId); ("statsheet", statsheet);
      ("atBatBalls", VInt 0); ("awayBatter", VNone); ("homeBatter", VNone);
      ("lastUpdate", VStr ""); ("tournament", tournament);
      ("awayPitcher", VNone); ("awayStrikes", awayStrikes);
      ("baseRunners", VList []); ("homePitcher", VNone);
      ("homeStrikes", homeStrikes); ("repeatCount", VInt 0);
      ("scoreLedger", VStr ""); ("scoreUpdate", VStr "");
      ("seriesIndex", seriesIndex); ("terminology", terminology);
      ("topOfInning", VBool true); ("atBatStrikes", VInt 0);
      ("awayTeamName", awayTeamName); ("gameComplete", VBool false);
      ("homeTeamName", homeTeamName); ("isPostseason", isPostseason);
      ("isTitleMatch", isTitleMatch); ("seriesLength", seriesLength);
      ("awayBatterMod", VStr ""); ("awayTeamColor", awayTeamColor);
      ("awayTeamEmoji", awayTeamEmoji); ("basesOccupied", VList []);
      ("homeBatterMod", VStr ""); ("homeTeamColor", homeTeamColor);
      ("homeTeamEmoji", homeTeamEmoji); ("awayBatterName", VStr "");
      ("awayPitcherMod", VStr ""); ("baseRunnerMods", VList []);
      ("gameStartPhase", VInt (-1)); ("halfInningOuts", VInt 0);
      ("homeBatterName", VStr ""); ("homePitcherMod", VStr "");
      ("newInningPhase", VInt (-1)); ("topInningScore", VInt 0);
      ("awayPitcherName", VStr ""); ("baseRunnerNames", VList []);
      ("baserunnerCount", VInt 0); ("halfInningScore", VInt 0);
      ("homePitcherName", VStr "");
      ("awayTeamNickname", awayTeamNickname);
      ("homeTeamNickname", homeTeamNickname);
      ("secretBaserunner", VNone); ("bottomInningScore", VInt 0);
      ("awayTeamBatterCount", VInt 0); ("homeTeamBatterCount", VInt 0);
      ("awayTeamSecondaryColor", awayTeamSecondaryColor);
      ("homeTeamSecondaryColor", homeTeamSecondaryColor)
    ] |}.

End Machine.

(** The states the machine goes through: the constructed one and those an
    accepted event leads to. *)
Inductive reachable (E : Env) : GameState → Prop :=
  | reachable_init updates s :
      GameState_init E updates = Some s → reachable E s
  | reachable_update s feed_event game_update' d s' :
      reachable E s →
      update E feed_event game_update' s = Some (d, s') →
      reachable E s'.

(** * Specification vocabulary *)

(** ** Properties of handlers *)

(** A computation that keeps [I] whenever it returns. *)
Definition pres {A} (I : GameState → Prop) (m : M A) : Prop :=
  ∀ s a s', I s → m s = Some (a, s') → I s'.

(** A computation that leaves the state alone. *)
Definition readonly {A} (m : M A) : Prop :=
  ∀ s a s', m s = Some (a, s') → s' = s.

(** The result of a computation satisfies [Q], whatever the state. *)
Definition returns {A} (Q : A → Prop) (m : M A) : Prop :=
  ∀ s a s', m s = Some (a, s') → Q a.

(** After the computation the state satisfies [Q], whatever it was. *)
Definition establishes {A} (Q : GameState → Prop) (m : M A) : Prop :=
  ∀ s a s', m s = Some (a, s') → Q s'.

(** [ends_with suf k]: the key [k] ends with [suf]. *)
Fixpoint ends_with (suf k : string) : bool :=
  String.eqb suf k ||
  match k with
  | EmptyString => false
  | String _ k' => ends_with suf k'
  end.

(** A property of the document that reads the keys in [K] only. *)
Definition depends_on (K : list string)
  (P : gmap string value → Prop) : Prop :=
  ∀ d d', (∀ k, k ∈ K → d' !! k = d !! k) → P d → P d'.

Definition fresh_for (K : list string) (k : string) : Prop := k ∉ K.

(** The field [k] of the document holds [v]. *)
Definition holds (k : string) (v : value) (d : gmap string value) : Prop :=
  d !! k = Some v.

(** The field [k] of the document reads [o] ([None] when it is absent). *)
Definition field (k : string) (o : option value) (d : gmap string value)
  : Prop :=
  d !! k = o.

(** A handler that does not write [playCount] and returns no document of
    its own. *)
Definition leaves_playCount
  (f : FeedEvent → option (gmap string value)
       → M (option (gmap string value))) : Prop :=
  ∀ feed_event g v,
    pres (λ s, holds "playCount" v (game_update s)) (f feed_event g)
    ∧ returns (λ r, r = None) (f feed_event g).

(** ** The invariants of the claims *)

(** The four baserunner arrays are parallel and [baserunnerCount] is their
    length. *)
Definition parallel_arrays (d : gmap string value) : Prop :=
  ∃ runners names ms occupied : list value,
    d !! "baseRunners" = Some (VList runners)
    ∧ d !! "baseRunnerNames" = Some (VList names)
    ∧ d !! "baseRunnerMods" = Some (VList ms)
    ∧ d !! "basesOccupied" = Some (VList occupied)
    ∧ d !! "baserunnerCount" = Some (VInt (Z.of_nat (length runners)))
    ∧ length names = length runners
    ∧ length ms = length runners
    ∧ length occupied = length runners.

Definition baserunner_keys : list string :=
  ["baseRunners"; "baseRunnerNames"; "baseRunnerMods"; "basesOccupied";
   "baserunnerCount"].

(** [basesOccupied], read from its last element to its first, is strictly
    increasing. *)
Definition increasing_from_back (l : list Z) : Prop :=
  ∀ i j x y, (i < j)%nat → l !! i = Some x → l !! j = Some y → y < x.

(** ** A small game, for the examples

    Two teams of two batters each; the parsers of the missing module are
    tables from the descriptions used below to their parse trees. *)

Fixpoint table {A} (t : list (string * A)) (d : string) : option A :=
  match t with
  | [] => None
  | (k, v) :: t' => if String.eqb k d then Some v else table t' d
  end.

Definition demo_player (n i : string) (ms : list string) : Player :=
  {| player_id := i; player_name := n; perm_attr := ms; seas_attr := [];
     game_attr := []; item_attr := []; bat_id := ""; bat_name := "";
     bat_attr := None |}.

Definition demo_env : Env := {|
  Parsers_batter_up := table [
    ("Ann Apple batting for the Fridays.",
     Tree "start" [Tree "batter_up" [Token "Ann Apple"; Token "Fridays"]]);
    ("Bob Bean batting for the Fridays.",
     Tree "start" [Tree "batter_up" [Token "Bob Bean"; Token "Fridays"]])];
  Parsers_steal := table [
    ("Ann Apple steals second base!",
     Tree "start" [Tree "stolen_base" [Token "Ann Apple"; Token "second"]]);
    ("Ann Apple steals fourth base!",
     Tree "start" [Tree "stolen_base" [Token "Ann Apple"; Token "fourth"]]);
    ("Ann Apple gets caught stealing second base.",
     Tree "start" [Tree "caught_stealing"
                     [Token "Ann Apple"; Token "second"]])];
  Parsers_walk := table [];
  Parsers_strikeout := table [
    ("Bob Bean strikes out looking.",
     Tree "strikeout" [Token "Bob Bean"; Token "looking"])];
  Parsers_fielding_out := table [];
  Parsers_hit := table [
    ("Ann Apple hits a Single!",
     Tree "start" [Tree "hit" [Token "Ann Apple"; Token "Single"]]);
    ("Ann Apple hits a Double!",
     Tree "start" [Tree "hit" [Token "Ann Apple"; Token "Double"]]);
    ("Ann Apple hits a Double! Ann Apple is Heating Up!",
     Tree "start" [Tree "hit" [Token "Ann Apple"; Token "Double"];
                   Tree "heating_up" [Token "Ann Apple"]]);
    ("Ann Apple hits a Double! Bob Bean is Heating Up!",
     Tree "start" [Tree "hit" [Token "Ann Apple"; Token "Double"];
                   Tree "heating_up" [Token "Bob Bean"]])];
  Parsers_home_run := table [
    ("Bob Bean hits a solo home run!",
     Tree "start" [Tree "home_run" [Token "Bob Bean"; Tree "solo_hr" []]]);
    ("Bob Bean hits a 2-run home run!",
     Tree "start" [Tree "home_run"
                     [Token "Bob Bean"; Tree "multi_hr" [Token "2"]]]);
    ("Bob Bean hits a 2-run home run! Bob Bean used their Free Refill.",
     Tree "start" [Tree "home_run"
                     [Token "Bob Bean"; Tree "multi_hr" [Token "2"]];
                   Tree "use_free_refill"
                     [Token "Bob Bean"; Token "Bob Bean"]])];
  Parsers_mild_pitch := table [];
  Parsers_blooddrain := table [];
  Parsers_coffee_bean := table [
    ("Bob Bean is Beaned by a Flat White. Bob Bean gains a Free Refill.",
     [["Bob Bean"; "Flat White"]; ["Bob Bean"; "a Free Refill"]])];
  load_one_at_time := λ _ _, None;
  load_at_time := λ t _,
    match t with
    | VStr i =>
        if String.eqb i "away-team" then
          Some ("Fridays", [demo_player "Ann Apple" "p1" [];
                            demo_player "Bob Bean" "p2" ["COFFEE_RALLY"]])
        else if String.eqb i "home-team" then
          Some ("Tigers", [demo_player "Cat Cole" "p3" [];
                           demo_player "Dan Dill" "p4" []])
        else None
    | _ => None
    end;
  py_int := table [("1", 1); ("2", 2); ("3", 3)];
  float_str := λ _, "";
  list_str := λ _, "";
|}.

Definition demo_data (play_count : Z) : gmap string value := list_to_map [
  ("id", VStr "g"); ("day", VInt 3); ("rules", VStr "r");
  ("season", VInt 11); ("weather", VInt 1);
  ("awayOdds", VInt 1); ("awayOuts", VInt 3);
  ("awayTeam", VStr "away-team"); ("homeOdds", VInt 1);
  ("homeOuts", VInt 3); ("homeTeam", VStr "home-team");
  ("awayBalls", VInt 4); ("awayBases", VInt 4);
  ("homeBalls", VInt 4); ("homeBases", VInt 4); ("stadiumId", VNone);
  ("statsheet", VStr "s"); ("tournament", VInt (-1));
  ("awayStrikes", VInt 3); ("homeStrikes", VInt 3); ("seriesIndex", VInt 1);
  ("terminology", VStr "t"); ("awayTeamName", VStr "Hawai'i Fridays");
  ("homeTeamName", VStr "Hades Tigers");
  ("isPostseason", VBool false); ("isTitleMatch", VBool false);
  ("seriesLength", VInt 3);
  ("awayTeamColor", VStr "#0"); ("awayTeamEmoji", VStr "e");
  ("homeTeamColor", VStr "#1"); ("homeTeamEmoji", VStr "f");
  ("awayTeamNickname", VStr "Fridays"); ("homeTeamNickname", VStr "Tigers");
  ("awayTeamSecondaryColor", VStr "#2");
  ("homeTeamSecondaryColor", VStr "#3");
  ("awayPitcher", VStr "q1"); ("awayPitcherName", VStr "Eve Elm");
  ("awayPitcherMod", VStr "");
  ("homePitcher", VStr "q2"); ("homePitcherName", VStr "Fay Fig");
  ("homePitcherMod", VStr "");
  ("playCount", VInt play_count)].

Definition demo_updates : list Update :=
  [ {| timestamp := "t0"; data_of := demo_data 0 |};
    {| timestamp := "t1"; data_of := demo_data 1 |} ].

Definition demo_event (code : Z) (d : string) : FeedEvent :=
  {| type := code; description := d; created := "c"; playerTags := [] |}.

(** Feed the events of a script, each with its snapshot if it has one, to
    the machine. *)
Fixpoint run_script (E : Env)
  (script : list (FeedEvent * option (gmap string value))) (s : GameState)
  : option GameState :=
  match script with
  | [] => Some s
  | (e, g) :: rest =>
      match update E e g s with
      | Some (_, s') => run_script E rest s'
      | None => None
      end
  end.

Definition run_game (E : Env)
  (script : list (FeedEvent * option (gmap string value)))
  : option GameState :=
  s ← GameState_init E demo_updates; run_script E script s.

Definition accepted (E : Env)
  (script : list (FeedEvent * option (gmap string value))) : bool :=
  match run_game E script with Some _ => true | None => false end.

Definition no_player : PlayerState :=
  {| id := ""; name := ""; mods := ∅; legacy_item := None |}.
Definition no_team : TeamState :=
  {| nickname := ""; pitcher := no_player; lineup := []; batter_index := -1 |}.
Definition no_game : GameState :=
  {| expects_lets_go := false; expects_play_ball := false;
     expects_half_inning_start := false; expects_batter_up := false;
     expects_pitch := false; expects_inning_end := false;
     expects_game_end := false; expects_reverberate := ∅;
     away := no_team; home := no_team; haunter := None; game_update := ∅ |}.

(** The state a script leads to ([no_game] if it is not accepted). *)
Definition state_after (E : Env)
  (script : list (FeedEvent * option (gmap string value))) : GameState :=
  default no_game (run_game E script).

(** The state and the emitted document after one more event. *)
Definition next (E : Env) (e : FeedEvent) (g : option (gmap string value))
  (s : GameState) : GameState :=
  default no_game (snd <$> update E e g s).
Definition emitted (E : Env) (e : FeedEvent) (g : option (gmap string value))
  (s : GameState) : gmap string value :=
  default ∅ (fst <$> update E e g s).

Definition plain (code : Z) (d : string)
  : FeedEvent * option (gmap string value) :=
  (demo_event code d, None).

(** The start of the game up to the first at-bat. *)
Definition demo_opening : list (FeedEvent * option (gmap string value)) :=
  [ plain 0 "Let's Go!";
    plain 1 "Play ball!";
    plain 2 "Top of 1, Hawai'i Fridays batting.";
    plain 12 "Ann Apple batting for the Fridays." ].

(** Ann Apple doubles and Bob Bean comes to bat with her on second. *)
Definition demo_runner_on_second
  : list (FeedEvent * option (gmap string value)) :=
  demo_opening ++
  [ plain 10 "Ann Apple hits a Double!";
    plain 12 "Bob Bean batting for the Fridays." ].

(** Ann Apple singles and Bob Bean comes to bat with her on first. *)
Definition demo_runner_on_first
  : list (FeedEvent * option (gmap string value)) :=
  demo_opening ++
  [ plain 10 "Ann Apple hits a Single!";
    plain 12 "Bob Bean batting for the Fridays." ].

(** The same game with two batters of one name in the away lineup. *)
Definition twin_env : Env := {|
  Parsers_batter_up := Parsers_batter_up demo_env;
  Parsers_steal := Parsers_steal demo_env;
  Parsers_walk := Parsers_walk demo_env;
  Parsers_strikeout := Parsers_strikeout demo_env;
  Parsers_fielding_out := Parsers_fielding_out demo_env;
  Parsers_hit := Parsers_hit demo_env;
  Parsers_home_run := Parsers_home_run demo_env;
  Parsers_mild_pitch := Parsers_mild_pitch demo_env;
  Parsers_blooddrain := Parsers_blooddrain demo_env;
  Parsers_coffee_bean := Parsers_coffee_bean demo_env;
  load_one_at_time := load_one_at_time demo_env;
  load_at_time := λ t _,
    match t with
    | VStr i =>
        if String.eqb i "away-team" then
          Some ("Fridays", [demo_player "Ann Apple" "p1" [];
                            demo_player "Ann Apple" "p5" []])
        else if String.eqb i "home-team" then
          Some ("Tigers", [demo_player "Cat Cole" "p3" [];
                           demo_player "Dan Dill" "p4" []])
        else None
    | _ => None
    end;
  py_int := py_int demo_env;
  float_str := float_str demo_env;
  list_str := list_str demo_env;
|}.

(** The first Ann Apple singles; the second doubles and the snapshot of that
    event shows her on third with the first still on first; the first comes
    to bat again. *)
Definition twin_runners : list (FeedEvent * option (gmap string value)) :=
  demo_opening ++
  [ plain 10 "Ann Apple hits a Single!";
    plain 12 "Ann Apple batting for the Fridays.";
    (demo_event 10 "Ann Apple hits a Double!",
     Some {[ "basesOccupied" := VList [VInt 0; VInt 2] ]});
    plain 12 "Ann Apple batting for the Fridays." ].

(** The fields of the batter at the plate, for the side [p]. *)
Definition batter_blank (p : string) (d : gmap string value) : Prop :=
  d !! (p +:+ "Batter") = Some VNone
  ∧ d !! (p +:+ "BatterName") = Some (VStr "")
  ∧ d !! (p +:+ "BatterMod") = Some (VStr "")
  ∧ d !! "atBatBalls" = Some (VInt 0)
  ∧ d !! "atBatStrikes" = Some (VInt 0).

(** [halfInningOuts] is a non-negative integer. *)
Definition outs_nonneg (d : gmap string value) : Prop :=
  ∃ h, d !! "halfInningOuts" = Some (VInt h) ∧ 0 ≤ h.

(** ** Outs within the half-inning *)

(** From a state satisfying [I], the computation leads to one satisfying
    [J]. *)
Definition leads {A} (I J : GameState → Prop) (m : M A) : Prop :=
  ∀ s a s', I s → m s = Some (a, s') → J s'.

Definition flags (s : GameState) : list bool :=
  [expects_lets_go s; expects_play_ball s; expects_half_inning_start s;
   expects_batter_up s; expects_pitch s; expects_inning_end s;
   expects_game_end s].

Fixpoint count_true (l : list bool) : nat :=
  match l with
  | [] => 0
  | b :: l' => (if b then 1 else 0) + count_true l'
  end.

Definition outs_keys : list string :=
  ["halfInningOuts"; "awayOuts"; "homeOuts"; "topOfInning"].

(** What the bound on the outs reads of a state. *)
Definition core (s : GameState) : list bool * list (option value) :=
  (flags s, (λ k, game_update s !! k) <$> outs_keys).

(** An invariant that reads the core of a state only. *)
Definition reads_core (I : GameState → Prop) : Prop :=
  ∀ s s', core s = core s' → I s → I s'.

(** The out counters are integers, [topOfInning] is a boolean. *)
Definition outs_typed (s : GameState) (h away_outs home_outs : Z)
  (top : bool) : Prop :=
  game_update s !! "halfInningOuts" = Some (VInt h)
  ∧ game_update s !! "awayOuts" = Some (VInt away_outs)
  ∧ game_update s !! "homeOuts" = Some (VInt home_outs)
  ∧ game_update s !! "topOfInning" = Some (VBool top).

(** [teamOuts] of the side at bat. *)
Definition team_outs (away_outs home_outs : Z) (top : bool) : Z :=
  if top then away_outs else home_outs.

Definition pitching : list bool :=
  [false; false; false; false; true; false; false].
Definition batting : list bool :=
  [false; false; false; true; false; false; false].

(** During an at-bat or between two at-bats of a half-inning:
    [halfInningOuts] is below [teamOuts]. *)
Definition at_bat (s : GameState) : Prop :=
  ∃ h away_outs home_outs top,
    outs_typed s h away_outs home_outs top
    ∧ 0 < away_outs ∧ 0 < home_outs
    ∧ h < team_outs away_outs home_outs top
    ∧ (flags s = pitching ∨ flags s = batting).

(** The same without the bound, as it is right after an out is counted. *)
Definition at_bat_counting (s : GameState) : Prop :=
  ∃ h away_outs home_outs top,
    outs_typed s h away_outs home_outs top
    ∧ 0 < away_outs ∧ 0 < home_outs
    ∧ (flags s = pitching ∨ flags s = batting).

(** The bound of the claim, with what makes it an invariant: one
    expectation flag is set, and outside the at-bats of a half-inning no out
    is counted. *)
Definition out_bound (s : GameState) : Prop :=
  ∃ h away_outs home_outs top,
    outs_typed s h away_outs home_outs top
    ∧ 0 < away_outs ∧ 0 < home_outs
    ∧ h < team_outs away_outs home_outs top
    ∧ count_true (flags s) = 1%nat
    ∧ (expects_pitch s = false → expects_batter_up s = false → h ≤ 0).

(** A node with rule name [tag] occurs in the tree. *)
Fixpoint mentions (tag : string) (t : tree) : bool :=
  match t with
  | Token _ => false
  | Tree d cs =>
      String.eqb d tag
      || (fix any (l : list tree) : bool :=
            match l with
            | [] => false
            | c :: l' => mentions tag c || any l'
            end) cs
  end.

(** No grammar of the parsers finds a free refill in the description of the
    event. *)
Definition no_refill (E : Env) (e : FeedEvent) : bool :=
  forallb
    (λ p : string → option tree,
       match p (description e) with
       | Some t => negb (mentions "use_free_refill" t)
       | None => true
       end)
    [Parsers_batter_up E; Parsers_steal E; Parsers_walk E;
     Parsers_strikeout E; Parsers_fielding_out E; Parsers_hit E;
     Parsers_home_run E; Parsers_mild_pitch E; Parsers_blooddrain E].

(** The fields [update_play_ball] blanks in the document it returns. *)
Definition play_ball_blanks (d : gmap string value) : gmap string value :=
  <["homeTeamBatterCount" := VInt (-1)]>
  (<["homePitcherMod" := VStr ""]>
  (<["homePitcherName" := VStr ""]>
  (<["homePitcher" := VNone]>
  (<["awayPitcherMod" := VStr ""]>
  (<["awayPitcherName" := VStr ""]>
  (<["awayPitcher" := VNone]> d)))))).

(** ** The protocol of the feed *)

(** The expectation the handler of an event type checks first. *)
Definition required_flag (code : Z) : option (GameState → bool) :=
  match code with
  | 0 => Some expects_lets_go
  | 1 => Some expects_play_ball
  | 2 => Some expects_half_inning_start
  | 11 => Some expects_game_end
  | 12 | 92 => Some expects_batter_up
  | 28 => Some expects_inning_end
  | 4 | 5 | 6 | 7 | 8 | 9 | 10 | 13 | 14 | 15 | 25 | 27 | 39 | 52 | 73 =>
      Some expects_pitch
  | _ => None
  end.

(** The flags during the at-bats of a half-inning. *)
Definition in_at_bat (s : GameState) : Prop :=
  flags s = pitching ∨ flags s = batting.

(** Exactly one expectation flag is set. *)
Definition one_expectation (s : GameState) : Prop :=
  count_true (flags s) = 1%nat.

(** An invariant that reads the flags of a state only. *)
Definition reads_flags (I : GameState → Prop) : Prop :=
  ∀ s s', flags s = flags s' → I s → I s'.

(** A team of two with the second batter up. *)
Definition demo_team : TeamState :=
  {| nickname := "Fridays"; pitcher := no_player;
     lineup := [no_player; no_player]; batter_index := 1 |}.

(** Ann Apple takes a strike in the first at-bat. *)
Definition demo_one_strike : list (FeedEvent * option (gmap string value)) :=
  demo_opening ++ [ plain 13 "Strike, looking. 0-1" ].

(** Bob Bean, with Ann Apple on first, is down to his last strike. *)
Definition demo_two_strikes : list (FeedEvent * option (gmap string value)) :=
  demo_runner_on_first ++
  [ plain 13 "Strike, looking. 0-1"; plain 13 "Strike, swinging. 0-2" ].

(** * Reasoning about handlers *)

Lemma M_bind_Some {A B} (m : M A) (k : A → M B) s b s'' :
  bind m k s = Some (b, s'') ↔
  ∃ a s', m s = Some (a, s') ∧ k a s' = Some (b, s'').
Proof.
  unfold bind. destruct (m s) as [[a s']|]; split.
  - eauto.
  - by intros (? & ? & [= <- <-] & ?).
  - done.
  - by intros (? & ? & ? & _).
Qed.

Lemma bind_run {A B} (m : M A) (k : A → M B) s a s' :
  m s = Some (a, s') → bind m k s = k a s'.
Proof. unfold bind. by intros ->. Qed.

(** ** Monad laws, applied to a state *)

Lemma bind_assoc {A B C} (m : M A) (f : A → M B) (k : B → M C) s :
  bind (bind m f) k s = bind m (λ a, bind (f a) k) s.
Proof. unfold bind. by destruct (m s) as [[]|]. Qed.
Lemma bind_ret {A B} (a : A) (k : A → M B) s : bind (ret a) k s = k a s.
Proof. done. Qed.
Lemma bind_fail {A B} (k : A → M B) s : bind fail k s = None.
Proof. done. Qed.
Lemma bind_liftO_Some {A B} (a : A) (k : A → M B) s :
  bind (liftO (Some a)) k s = k a s.
Proof. done. Qed.
Lemma bind_liftO_None {A B} (k : A → M B) s : bind (liftO None) k s = None.
Proof. done. Qed.
Lemma bind_assert_true {B} (k : unit → M B) s : bind (assert true) k s = k tt s.
Proof. done. Qed.
Lemma bind_assert_false {B} (k : unit → M B) s :
  bind (assert false) k s = None.
Proof. done. Qed.

(** Evaluate the pure steps at the head of a computation. *)
Ltac msimpl :=
  repeat first
    [ rewrite bind_assoc
    | rewrite bind_ret
    | rewrite bind_fail
    | rewrite bind_liftO_Some
    | rewrite bind_liftO_None
    | rewrite bind_assert_true
    | rewrite bind_assert_false
    | rewrite String.eqb_refl
    | progress unfold children, data, parse
    | progress cbn [tree_children tree_data head_has_data tree_eqb] ].

(** ** Runs that return *)

Lemma doc_get_run k s v :
  game_update s !! k = Some v → doc_get k s = Some (v, s).
Proof. unfold doc_get. by intros ->. Qed.
Lemma doc_list_run k s l :
  game_update s !! k = Some (VList l) → doc_list k s = Some (l, s).
Proof. intros H. unfold doc_list. by rewrite (bind_run _ _ _ _ _ (doc_get_run _ _ _ H)). Qed.
Lemma doc_set_run k v s :
  doc_set k v s = Some (tt, set_game_update (<[k:=v]> (game_update s)) s).
Proof. done. Qed.
Lemma doc_add_run k n s v w :
  game_update s !! k = Some v → py_add v n = Some w →
  doc_add k n s = Some (tt, set_game_update (<[k:=w]> (game_update s)) s).
Proof.
  intros H1 H2. unfold doc_add.
  rewrite (bind_run _ _ _ _ _ (doc_get_run _ _ _ H1)).
  unfold liftO, bind. by rewrite H2.
Qed.
Lemma doc_sub_run k n s v w :
  game_update s !! k = Some v → py_sub v n = Some w →
  doc_sub k n s = Some (tt, set_game_update (<[k:=w]> (game_update s)) s).
Proof.
  intros H1 H2. unfold doc_sub.
  rewrite (bind_run _ _ _ _ _ (doc_get_run _ _ _ H1)).
  unfold liftO, bind. by rewrite H2.
Qed.
Lemma doc_append_run k x s l :
  game_update s !! k = Some (VList l) →
  doc_append k x s
  = Some (tt, set_game_update (<[k:=VList (l ++ [x])]> (game_update s)) s).
Proof.
  intros H. unfold doc_append.
  by rewrite (bind_run _ _ _ _ _ (doc_list_run _ _ _ H)).
Qed.
Lemma doc_pop_run k i s l l' :
  game_update s !! k = Some (VList l) → py_pop l i = Some l' →
  doc_pop k i s
  = Some (tt, set_game_update (<[k:=VList l']> (game_update s)) s).
Proof.
  intros H1 H2. unfold doc_pop.
  rewrite (bind_run _ _ _ _ _ (doc_list_run _ _ _ H1)).
  unfold liftO, bind. by rewrite H2.
Qed.
Lemma liftO_run {A} (o : option A) a s : o = Some a → liftO o s = Some (a, s).
Proof. by intros ->. Qed.
Lemma assert_run b s : b = true → assert b s = Some (tt, s).
Proof. by intros ->. Qed.
Lemma assert_flag_run f s : f s = true → assert_flag f s = Some (tt, s).
Proof. intros H. unfold assert_flag, bind, gets. by rewrite H. Qed.
Lemma gets_run {A} (f : GameState → A) s : gets f s = Some (f s, s).
Proof. done. Qed.
Lemma modify_run f s : modify f s = Some (tt, f s).
Proof. done. Qed.
Lemma ret_run {A} (a : A) s : ret a s = Some (a, s).
Proof. done. Qed.

(** ** Inversion of a run that returned *)

Lemma ret_Some {A} (a : A) s b s' : ret a s = Some (b, s') → b = a ∧ s' = s.
Proof. by intros [= <- <-]. Qed.
Lemma liftO_Some {A} (o : option A) s a s' :
  liftO o s = Some (a, s') → o = Some a ∧ s' = s.
Proof. unfold liftO. destruct o; [|done]. by intros [= <- <-]. Qed.
Lemma assert_Some b s a s' : assert b s = Some (a, s') → b = true ∧ s' = s.
Proof. destruct b; [|done]. by intros [= _ <-]. Qed.
Lemma gets_Some {A} (f : GameState → A) s a s' :
  gets f s = Some (a, s') → a = f s ∧ s' = s.
Proof. by intros [= <- <-]. Qed.
Lemma modify_Some f s a s' : modify f s = Some (a, s') → s' = f s.
Proof. by intros [= _ <-]. Qed.
Lemma doc_get_Some k s v s' :
  doc_get k s = Some (v, s') → game_update s !! k = Some v ∧ s' = s.
Proof. unfold doc_get. destruct (_ !! _); [|done]. by intros [= <- <-]. Qed.
Lemma doc_set_Some k v s a s' :
  doc_set k v s = Some (a, s') →
  s' = set_game_update (<[k:=v]> (game_update s)) s.
Proof. by intros [= _ <-]. Qed.

Ltac minv_step :=
  match goal with
  | H : bind _ _ _ = Some _ |- _ =>
      let a := fresh "a" in let s := fresh "s" in let H1 := fresh "H" in
      apply M_bind_Some in H as (a & s & H1 & H)
  | H : ret _ _ = Some _ |- _ =>
      apply ret_Some in H as [? ?]; subst
  | H : fail _ = Some _ |- _ => discriminate H
  | H : liftO _ _ = Some _ |- _ =>
      let E := fresh "E" in apply liftO_Some in H as [E ?]; subst
  | H : assert _ _ = Some _ |- _ =>
      let E := fresh "E" in apply assert_Some in H as [E ?]; subst
  | H : gets _ _ = Some _ |- _ =>
      apply gets_Some in H as [? ?]; subst
  | H : modify _ _ = Some _ |- _ =>
      apply modify_Some in H; subst
  | H : doc_get _ _ = Some _ |- _ =>
      let E := fresh "E" in apply doc_get_Some in H as [E ?]; subst
  | H : doc_set _ _ _ = Some _ |- _ =>
      apply doc_set_Some in H; subst
  | H : (let _ := _ in _) _ = Some _ |- _ => lazy zeta in H
  | H : (match ?x with _ => _ end) _ = Some _ |- _ => destruct x eqn:?
  end.
Ltac minv := repeat minv_step.

(** ** Rules for [pres], [readonly], [returns] and [establishes] *)

Lemma pres_readonly {A} I (m : M A) : readonly m → pres I m.
Proof. intros Hm s a s' HI H. by rewrite (Hm _ _ _ H). Qed.

Lemma pres_bind {A B} I (m : M A) (k : A → M B) :
  pres I m → (∀ a, pres I (k a)) → pres I (bind m k).
Proof.
  intros Hm Hk s b s'' HI (a & s' & H1 & H2)%M_bind_Some.
  eapply Hk; [|done]. eapply Hm; done.
Qed.

(** A pure step keeps its equation for the continuation. *)
Lemma pres_bind_liftO {A B} I (o : option A) (k : A → M B) :
  (∀ a, o = Some a → pres I (k a)) → pres I (bind (liftO o) k).
Proof.
  intros Hk s b s'' HI (a & s' & H1 & H2)%M_bind_Some.
  apply liftO_Some in H1 as [-> ->]. eapply Hk; done.
Qed.

Lemma pres_ret {A} I (a : A) : pres I (ret a).
Proof. by intros s ? s' HI [= _ <-]. Qed.

Lemma pres_fail {A} I : pres I (@fail A).
Proof. by intros s a s' _ ?. Qed.

Lemma pres_modify I f : (∀ s, I s → I (f s)) → pres I (modify f).
Proof. intros Hf s ? s' HI [= _ <-]. auto. Qed.

Lemma pres_forM {A} I (l : list A) (f : A → M unit) :
  (∀ x, x ∈ l → pres I (f x)) → pres I (forM_ l f).
Proof.
  induction l as [|x l IH]; intros Hf; simpl.
  - apply pres_ret.
  - apply pres_bind; [apply Hf; left|].
    intros _. apply IH. intros y Hy. apply Hf. by right.
Qed.

Lemma pres_foldM {A B} I (l : list A) (acc : B) (f : B → A → M B) :
  (∀ b x, x ∈ l → pres I (f b x)) → pres I (foldM l acc f).
Proof.
  revert acc. induction l as [|x l IH]; intros acc Hf; simpl.
  - apply pres_ret.
  - apply pres_bind; [apply Hf; left|].
    intros b. apply IH. intros c y Hy. apply Hf. by right.
Qed.

Lemma pres_and {A} (I J : GameState → Prop) (m : M A) :
  pres I m → pres J m → pres (λ s, I s ∧ J s) m.
Proof. intros HI HJ s a s' [H1 H2] Hm. split; [eapply HI|eapply HJ]; done. Qed.

Lemma readonly_liftO {A} (o : option A) : readonly (liftO o).
Proof. intros s a s' H. by apply liftO_Some in H as [_ ->]. Qed.
Lemma readonly_gets {A} (f : GameState → A) : readonly (gets f).
Proof. by intros s a s' [= _ <-]. Qed.
Lemma readonly_assert b : readonly (assert b).
Proof. intros s a s' H. by apply assert_Some in H as [_ ->]. Qed.
Lemma readonly_doc_get k : readonly (doc_get k).
Proof. intros s a s' H. by apply doc_get_Some in H as [_ ->]. Qed.

Lemma returns_bind {A B} Q (m : M A) (k : A → M B) :
  (∀ a, returns Q (k a)) → returns Q (bind m k).
Proof. intros Hk s b s'' (a & s' & H1 & H2)%M_bind_Some. eapply Hk; done. Qed.
Lemma returns_ret {A} (Q : A → Prop) a : Q a → returns Q (ret a).
Proof. by intros ? s ? s' [= <- _]. Qed.
Lemma returns_fail {A} (Q : A → Prop) : returns Q fail.
Proof. by intros s a s' ?. Qed.

(** Either the rest of the computation establishes [Q], or this step does
    and the rest keeps it. *)
Lemma establishes_later {A B} Q (m : M A) (k : A → M B) :
  (∀ a, establishes Q (k a)) → establishes Q (bind m k).
Proof. intros Hk s b s'' (a & s' & H1 & H2)%M_bind_Some. eapply Hk; done. Qed.
Lemma establishes_here {A B} Q (m : M A) (k : A → M B) :
  establishes Q m → (∀ a, pres Q (k a)) → establishes Q (bind m k).
Proof.
  intros Hm Hk s b s'' (a & s' & H1 & H2)%M_bind_Some.
  eapply Hk; [|done]. eapply Hm; done.
Qed.
Lemma establishes_doc_set k v :
  establishes (λ s, holds k v (game_update s)) (doc_set k v).
Proof. intros s a s' ->%doc_set_Some. apply lookup_insert_eq. Qed.
Lemma establishes_fail {A} Q : establishes Q (@fail A).
Proof. by intros s a s' ?. Qed.

Lemma establishes_and {A} (Q R : GameState → Prop) (m : M A) :
  establishes Q m → establishes R m → establishes (λ s, Q s ∧ R s) m.
Proof. intros HQ HR s a s' H. split; [eapply HQ|eapply HR]; done. Qed.
Lemma establishes_pres {A} (Q : GameState → Prop) (m : M A) I :
  establishes Q m → (∀ s, Q s → I s) → pres I m.
Proof. intros HQ HI s a s' _ H. eapply HI, HQ. done. Qed.

Ltac head_of t := lazymatch t with ?f _ => head_of f | _ => t end.

(** [pres_go special]: take a handler apart, leaving to [special] the steps
    that matter to the invariant at hand. *)
Ltac pres_step special :=
  first
    [ special
    | apply pres_ret
    | apply pres_fail
    | apply pres_bind_liftO; intros ? ?
    | apply pres_bind; [|intros ?]
    | apply pres_readonly; first
        [ apply readonly_liftO | apply readonly_gets
        | apply readonly_assert | apply readonly_doc_get ]
    | apply pres_forM; intros ? ?
    | apply pres_foldM; intros ? ? ?
    | lazymatch goal with
      | |- pres _ (let _ := _ in _) => lazy zeta
      | |- pres _ (match ?x with _ => _ end) => destruct x
      | |- pres _ ?m => let h := head_of m in progress unfold h
      end ].
Ltac pres_go special := repeat (pres_step special).

(** [establishes_go special]: find the write that sets the field and check
    that what follows keeps it. *)
Ltac establishes_go special :=
  repeat first
    [ apply establishes_fail
    | apply establishes_here;
        [apply establishes_doc_set | intros ?; solve [pres_go special]]
    | apply establishes_later; intros ?
    | lazymatch goal with
      | |- establishes _ (let _ := _ in _) => lazy zeta
      | |- establishes _ (match ?x with _ => _ end) => destruct x
      | |- establishes _ ?m => let h := head_of m in progress unfold h
      end ].

Ltac returns_go :=
  repeat first
    [ apply returns_fail
    | apply returns_ret; reflexivity
    | apply returns_bind; intros ?
    | lazymatch goal with
      | |- returns _ (let _ := _ in _) => lazy zeta
      | |- returns _ (match ?x with _ => _ end) => destruct x
      | |- returns _ ?m => let h := head_of m in progress unfold h
      end ].

(** ** Keys built with a prefix *)

Lemma ends_with_app p suf : ends_with suf (p +:+ suf) = true.
Proof.
  induction p as [|a p IH]; simpl.
  - destruct suf; simpl; [done|]. by rewrite Ascii.eqb_refl, String.eqb_refl.
  - rewrite IH. apply orb_true_r.
Qed.

Lemma app_neq p suf k : ends_with suf k = false → p +:+ suf ≠ k.
Proof. intros H <-. by rewrite ends_with_app in H. Qed.

Lemma fresh_lit K k : bool_decide (k ∈ K) = false → fresh_for K k.
Proof. intros H. by apply bool_decide_eq_false in H. Qed.

Lemma fresh_app K p suf :
  forallb (λ k, negb (ends_with suf k)) K = true → fresh_for K (p +:+ suf).
Proof.
  intros H Hin. apply Is_true_true_2, forallb_True in H.
  apply Forall_forall with (x := p +:+ suf) in H; [|done].
  rewrite ends_with_app in H. done.
Qed.

Ltac fresh_tac :=
  first [ apply fresh_lit; vm_compute; reflexivity
        | apply fresh_app; vm_compute; reflexivity ].

(** Two different keys. *)
Ltac key_neq :=
  first [ discriminate
        | apply app_neq; vm_compute; reflexivity
        | apply not_eq_sym, app_neq; vm_compute; reflexivity ].

(** Read through the writes to other keys. *)
Ltac doc_simpl :=
  repeat first
    [ rewrite lookup_insert_eq
    | rewrite lookup_insert_ne by key_neq ].

Ltac doc_simpl_all :=
  repeat match goal with
         | H : context [ <[_:=_]> _ !! _ ] |- _ =>
             first [ rewrite lookup_insert_eq in H
                   | rewrite lookup_insert_ne in H by key_neq ]
         end;
  doc_simpl.

(** Two readings of one field agree. *)
Ltac same_lookup :=
  repeat match goal with
         | H1 : ?d !! ?k = Some ?x, H2 : ?d !! ?k = Some ?y |- _ =>
             first [ constr_eq x y; clear H2
                   | assert (y = x) by congruence; clear H2; simplify_eq ]
         end.

Ltac unfold_doc :=
  unfold doc_item_add, doc_item_set, doc_pop, doc_append, doc_add, doc_sub,
    doc_list in *.

Ltac doc_norm := cbn [game_update set_game_update] in *.

(** Normalise a state built by setters. *)
Ltac st_norm :=
  cbn [game_update expects_lets_go expects_play_ball
       expects_half_inning_start expects_batter_up expects_pitch
       expects_inning_end expects_game_end expects_reverberate away home
       haunter set_game_update set_expects_lets_go set_expects_play_ball
       set_expects_half_inning_start set_expects_batter_up
       set_expects_pitch set_expects_inning_end set_expects_game_end
       set_expects_reverberate set_away set_home set_haunter].

(** Run a handler forward on a state whose fields are known. *)
Ltac look := st_norm; doc_simpl; first [eassumption | reflexivity].
Ltac run_prim :=
  first
    [ apply doc_set_run | apply modify_run | apply gets_run | apply ret_run
    | eapply doc_get_run; look
    | eapply doc_list_run; look
    | eapply doc_append_run; look
    | eapply doc_add_run; [look | first [eassumption | reflexivity]]
    | eapply doc_sub_run; [look | first [eassumption | reflexivity]]
    | eapply doc_pop_run; [look | first [eassumption | reflexivity]]
    | apply liftO_run; first [eassumption | reflexivity]
    | apply assert_flag_run; first [eassumption | reflexivity]
    | apply assert_run; first [eassumption | reflexivity] ].
Ltac run_step := erewrite bind_run; [|run_prim]; st_norm.

(** ** Invariants that read some document keys only *)

Lemma pres_doc_set K P k v :
  depends_on K P → fresh_for K k → pres (λ s, P (game_update s)) (doc_set k v).
Proof.
  intros HP Hk s ? s' HI [= _ <-]. simpl. revert HI. apply HP.
  intros k' Hk'. apply lookup_insert_ne. intros ->. done.
Qed.

Lemma pres_modify_doc (P : gmap string value → Prop) f :
  (∀ s, game_update (f s) = game_update s) →
  pres (λ s, P (game_update s)) (modify f).
Proof. intros Hf. apply pres_modify. intros s. by rewrite Hf. Qed.

Lemma holds_depends k v : depends_on [k] (holds k v).
Proof. intros d d' H. unfold holds. rewrite H; [done|]. by left. Qed.

Lemma field_depends k o : depends_on [k] (field k o).
Proof. intros d d' H. unfold field. rewrite H; [done|]. by left. Qed.

Ltac no_more := fail.

(** The steps every document invariant over the keys [K] leaves to the
    caller's [more]. *)
Ltac doc_special HP more :=
  first
    [ more
    | eapply pres_doc_set; [apply HP | fresh_tac]
    | apply pres_modify_doc; intros ?; repeat case_match; reflexivity ].

(** * The dispatch table *)

(** A property of every registered handler holds for the one an event code
    selects. *)
Lemma update_type_elim E
  (Q : (FeedEvent → option (gmap string value)
        → M (option (gmap string value))) → Prop) :
  Q update_lets_go → Q update_play_ball → Q (update_half_inning_start E) →
  Q (update_base_steal E) → Q (update_walk E) → Q (update_strikeout E) →
  Q (update_flyout E) → Q (update_ground_out E) → Q (update_home_run E) →
  Q (update_hit E) → Q (update_game_score E) → Q (update_batter_up E) →
  Q (update_strike E) → Q (update_ball E) → Q (update_foul_ball E) →
  Q update_strike_zapped → Q (update_mild_pitch E) →
  Q (update_inning_end E) → Q (update_coffee_bean E) →
  Q (update_blooddrain E) → Q update_no_state_change_pitch →
  Q update_no_state_change_batter_up →
  ∀ code f, update_type E code = Some f → Q f.
Proof.
  intros. unfold update_type in *.
  repeat case_match; simplify_eq; assumption.
Qed.

(** * The play count *)


Ltac playCount_special :=
  doc_special (holds_depends "playCount") no_more.

Lemma update_play_ball_playCount feed_event g s r s' v :
  game_update s !! "playCount" = Some v →
  update_play_ball feed_event g s = Some (r, s') →
  ∃ v' d, py_add v (VInt 1) = Some v' ∧ r = Some d
          ∧ game_update s' !! "playCount" = Some v'
          ∧ d !! "playCount" = Some v'.
Proof.
  intros Hv H. unfold update_play_ball, assert_flag, doc_add in H. minv.
  cbn [game_update set_game_update set_expects_play_ball
       set_expects_half_inning_start] in *.
  doc_simpl_all. same_lookup.
  eexists _, _. split; [done|]. split; [done|]. by doc_simpl.
Qed.

Lemma handlers_leave_playCount E code f :
  update_type E code = Some f →
  f = update_play_ball ∨ leaves_playCount f.
Proof.
  revert code f. apply update_type_elim.
  2: by left.
  all: right; intros feed_event g v; split;
         [pres_go playCount_special | returns_go].
Qed.

(** Every accepted event advances the play count of the running document
    by one, [update_play_ball] included; the emitted document carries the
    same count. *)
Lemma update_playCount E feed_event g s d s' v :
  game_update s !! "playCount" = Some v →
  update E feed_event g s = Some (d, s') →
  ∃ v', py_add v (VInt 1) = Some v'
        ∧ game_update s' !! "playCount" = Some v'
        ∧ d !! "playCount" = Some v'.
Proof.
  intros Hv H. unfold update in H.
  apply M_bind_Some in H as ([] & s1 & H1 & H).
  apply doc_set_Some in H1.
  apply M_bind_Some in H as (f & s2 & H2 & H).
  apply liftO_Some in H2 as [Hf ->].
  apply M_bind_Some in H as (r & s3 & H3 & H).
  assert (Hv1 : game_update s1 !! "playCount" = Some v).
  { subst s1. cbn [game_update set_game_update]. by doc_simpl. }
  destruct (handlers_leave_playCount _ _ _ Hf) as [->|Hl].
  - destruct (update_play_ball_playCount _ _ _ _ _ _ Hv1 H3)
      as (v' & d' & Hadd & -> & Hs & Hd).
    apply ret_Some in H as [-> ->]. eauto.
  - destruct (Hl feed_event g v) as [Hp Hr].
    pose proof (Hr _ _ _ H3) as ->.
    pose proof (Hp _ _ _ Hv1 H3) as Hv3. unfold holds in Hv3.
    unfold doc_add in H. minv.
    cbn [game_update set_game_update] in *. same_lookup.
    eexists. split; [done|]. by doc_simpl.
Qed.

(** * The baserunner arrays stay parallel *)

Lemma parallel_depends : depends_on baserunner_keys parallel_arrays.
Proof.
  intros d d' H (r & n & m & o & H1 & H2 & H3 & H4 & H5 & ?).
  exists r, n, m, o. unfold baserunner_keys in H.
  rewrite !H by (rewrite !elem_of_cons; tauto). done.
Qed.

Lemma py_pop_length {A} (l l' : list A) i :
  py_pop l i = Some l' → S (length l') = length l.
Proof.
  unfold py_pop. case_bool_decide; [|done]. intros [= <-].
  rewrite length_delete; [lia|]. by apply lookup_lt_is_Some_2.
Qed.

Lemma py_setitem_length {A} (l l' : list A) i x :
  py_setitem l i x = Some l' → length l' = length l.
Proof.
  unfold py_setitem. case_bool_decide; [|done]. intros [= <-].
  apply length_insert.
Qed.

Lemma advance_runners_length l l' hi :
  advance_runners l = Some (l', hi) → length l' = length l.
Proof.
  revert l' hi. induction l as [|x l IH]; intros l' hi; simpl.
  - by intros [= <- _].
  - destruct (advance_runners l) as [[l0 h0]|]; [|done].
    specialize (IH _ _ eq_refl).
    repeat case_match; try done; intros [= <- _]; simpl; by rewrite IH.
Qed.

(** Introduce [parallel_arrays] for a document whose fields can be read
    off; what is left are the length equations. *)
Ltac par_intro :=
  eexists _, _, _, _; doc_simpl; split_and!;
  [ first [eassumption | reflexivity] ..
  | first [eassumption | idtac] | | | ];
  try lia.

Lemma parallel_remove i :
  pres (λ s, parallel_arrays (game_update s)) (_remove_baserunner_by_index i).
Proof.
  intros s [] s' (r & n & m & o & H1 & H2 & H3 & H4 & H5 & L1 & L2 & L3) H.
  unfold _remove_baserunner_by_index in H. unfold_doc. minv. doc_norm.
  doc_simpl_all. same_lookup.
  repeat match goal with
         | H : py_pop _ _ = Some _ |- _ => apply py_pop_length in H
         end.
  par_intro.
  unfold py_sub in *. simpl in *. simplify_eq. do 2 f_equal. lia.
Qed.

Lemma parallel_player_to_base b n :
  pres (λ s, parallel_arrays (game_update s)) (_player_to_base b n).
Proof.
  intros s [] s' (r & nm & m & o & H1 & H2 & H3 & H4 & H5 & L1 & L2 & L3) H.
  unfold _player_to_base in H. unfold_doc. minv. doc_norm.
  doc_simpl_all. same_lookup.
  match goal with
  | H : advance_runners _ = Some ?p |- _ =>
      destruct p; apply advance_runners_length in H;
      rewrite length_app in H
  end.
  simpl in *.
  par_intro; rewrite ?length_app; simpl; try lia.
  unfold py_add in *. simpl in *. simplify_eq. do 2 f_equal. lia.
Qed.

Lemma parallel_maybe_advance g :
  pres (λ s, parallel_arrays (game_update s)) (_maybe_advance_baserunners g).
Proof.
  intros s [] s' (r & nm & m & o & H1 & H2 & H3 & H4 & H5 & L1 & L2 & L3) H.
  unfold _maybe_advance_baserunners in H. unfold_doc. minv;
    [|by exists r, nm, m, o].
  doc_norm. doc_simpl_all. same_lookup.
  match goal with
  | H : bool_decide _ = true |- _ => apply bool_decide_eq_true in H
  end.
  par_intro.
Qed.

Lemma parallel_item_set i x :
  pres (λ s, parallel_arrays (game_update s))
    (doc_item_set "baseRunnerMods" i x).
Proof.
  intros s [] s' (r & nm & m & o & H1 & H2 & H3 & H4 & H5 & L1 & L2 & L3) H.
  unfold_doc. minv. doc_norm. doc_simpl_all. same_lookup.
  match goal with
  | H : py_setitem _ _ _ = Some _ |- _ => apply py_setitem_length in H
  end.
  par_intro.
Qed.

Lemma parallel_item_add i x :
  pres (λ s, parallel_arrays (game_update s))
    (doc_item_add "basesOccupied" i x).
Proof.
  intros s [] s' (r & nm & m & o & H1 & H2 & H3 & H4 & H5 & L1 & L2 & L3) H.
  unfold_doc. minv. doc_norm. doc_simpl_all. same_lookup.
  match goal with
  | H : py_setitem _ _ _ = Some _ |- _ => apply py_setitem_length in H
  end.
  par_intro.
Qed.

Lemma parallel_end_half_inning for_batter :
  pres (λ s, parallel_arrays (game_update s)) (_end_half_inning for_batter).
Proof.
  apply (establishes_pres
           (λ s, (((holds "baseRunners" (VList []) (game_update s)
                    ∧ holds "baseRunnerNames" (VList []) (game_update s))
                   ∧ holds "baseRunnerMods" (VList []) (game_update s))
                  ∧ holds "basesOccupied" (VList []) (game_update s))
                 ∧ holds "baserunnerCount" (VInt 0) (game_update s))).
  - repeat apply establishes_and.
    + establishes_go ltac:(doc_special (holds_depends "baseRunners") no_more).
    + establishes_go
        ltac:(doc_special (holds_depends "baseRunnerNames") no_more).
    + establishes_go
        ltac:(doc_special (holds_depends "baseRunnerMods") no_more).
    + establishes_go
        ltac:(doc_special (holds_depends "basesOccupied") no_more).
    + establishes_go
        ltac:(doc_special (holds_depends "baserunnerCount") no_more).
  - intros s ((((H1 & H2) & H3) & H4) & H5).
    by exists [], [], [], [].
Qed.

Ltac parallel_more :=
  idtac;
  lazymatch goal with
  | |- pres _ (_remove_baserunner_by_index _) => apply parallel_remove
  | |- pres _ (_player_to_base _ _) => apply parallel_player_to_base
  | |- pres _ (_maybe_advance_baserunners _) => apply parallel_maybe_advance
  | |- pres _ (doc_item_set _ _ _) => apply parallel_item_set
  | |- pres _ (doc_item_add _ _ _) => apply parallel_item_add
  | |- pres _ (_end_half_inning _) => apply parallel_end_half_inning
  end.
Ltac parallel_special := doc_special parallel_depends parallel_more.

Lemma parallel_handlers E code f feed_event g :
  update_type E code = Some f →
  pres (λ s, parallel_arrays (game_update s)) (f feed_event g).
Proof.
  revert code f.
  apply (update_type_elim E
           (λ f, pres (λ s, parallel_arrays (game_update s)) (f feed_event g)));
    pres_go parallel_special.
Qed.

Lemma parallel_update E feed_event g :
  pres (λ s, parallel_arrays (game_update s)) (update E feed_event g).
Proof.
  unfold update.
  apply pres_bind; [pres_go parallel_special|]. intros _.
  apply pres_bind_liftO. intros f Hf.
  apply pres_bind; [by eapply parallel_handlers|].
  intros r. pres_go parallel_special.
Qed.

Lemma parallel_init E updates s :
  GameState_init E updates = Some s → parallel_arrays (game_update s).
Proof.
  unfold GameState_init. intros H.
  repeat match type of H with
         | (_ ≫= _) = Some _ => apply bind_Some in H as (? & _ & H)
         end.
  apply (inj Some) in H. subst s. cbn [game_update].
  exists [], [], [], []. split_and!; vm_compute; reflexivity.
Qed.

Lemma run_script_reachable E script s s' :
  reachable E s → run_script E script s = Some s' → reachable E s'.
Proof.
  revert s. induction script as [|[e g] rest IH]; intros s Hs; simpl.
  - by intros [= <-].
  - destruct (update E e g s) as [[d s1]|] eqn:Hu; [|done].
    apply IH. by eapply reachable_update.
Qed.

Lemma state_after_run E script :
  accepted E script = true → run_game E script = Some (state_after E script).
Proof.
  unfold accepted, state_after. by destruct (run_game E script).
Qed.

Lemma state_after_reachable E script :
  accepted E script = true → reachable E (state_after E script).
Proof.
  intros H%state_after_run. unfold run_game in H.
  apply bind_Some in H as (s0 & H0 & H).
  eapply run_script_reachable; [|done]. by eapply reachable_init.
Qed.

(** C8.  After the construction of the machine and after every event it
    accepts, the four baserunner arrays [baseRunners], [baseRunnerNames],
    [baseRunnerMods] and [basesOccupied] have one length, and
    [baserunnerCount] is that length. *)
Theorem baserunner_arrays_parallel E s :
  reachable E s → parallel_arrays (game_update s).
Proof.
  induction 1 as [updates s Hinit | s feed_event g d s' _ IH Hstep].
  - by eapply parallel_init.
  - by eapply parallel_update.
Qed.

(** The game with a runner on second is reachable, and its arrays have
    length one. *)
Lemma baserunner_arrays_parallel_witness :
  game_update (state_after demo_env demo_runner_on_second)
    !! "baserunnerCount" = Some (VInt 1)
  ∧ parallel_arrays (game_update (state_after demo_env demo_runner_on_second)).
Proof.
  split; [vm_compute; reflexivity|].
  apply (baserunner_arrays_parallel demo_env).
  apply state_after_reachable. vm_compute; reflexivity.
Defined.

(** * Placing a player on base *)

Lemma py_le_int x y : py_le (VInt x) (VInt y) = Some (bool_decide (x ≤ y)).
Proof.
  unfold py_le, num_leb. simpl. f_equal.
  destruct (Z.compare_spec x y); case_bool_decide; try done; lia.
Qed.

Lemma py_lt_int x y : py_lt (VInt x) (VInt y) = Some (bool_decide (x < y)).
Proof.
  unfold py_lt, num_ltb. simpl. f_equal.
  destruct (Z.compare_spec x y); case_bool_decide; try done; lia.
Qed.

Lemma py_eq_int x y : py_eq (VInt x) (VInt y) = bool_decide (x = y).
Proof.
  simpl. unfold num_eqb. simpl.
  destruct (Z.compare_spec x y); case_bool_decide; try done; lia.
Qed.

Lemma py_add_int x y : py_add (VInt x) (VInt y) = Some (VInt (x + y)).
Proof. done. Qed.
Lemma py_sub_int x y : py_sub (VInt x) (VInt y) = Some (VInt (x - y)).
Proof. done. Qed.

(** On integer bases the loop returns integer bases: every runner ends
    strictly ahead of the runners behind him, and the last value is the base
    of the leading runner. *)
Lemma advance_runners_int (l : list Z) :
  ∃ (l' : list Z) (hi : Z),
    advance_runners (VInt <$> l) = Some (VInt <$> l', VInt hi)
    ∧ length l' = length l
    ∧ increasing_from_back l'
    ∧ -1 ≤ hi
    ∧ (∀ x, x ∈ l' → x ≤ hi)
    ∧ (∀ x, x ∈ l' → 0 ≤ x).
Proof.
  induction l as [|x l (l' & hi & IH & Hlen & Hinc & Hhi & Hmax & Hpos)].
  - exists [], (-1). split_and!; try done.
    all: try (intros x Hx; by apply elem_of_nil in Hx).
  - rewrite fmap_cons. cbn [advance_runners]. rewrite IH, py_le_int.
    case_bool_decide as Hle.
    + exists ((hi + 1) :: l'), (hi + 1). simpl. split_and!; try done.
      * by rewrite Hlen.
      * intros [|i] [|j] a b Hij Ha Hb; simpl in *; try lia.
        -- injection Ha as <-.
           assert (b ≤ hi) by (apply Hmax; by eapply list_elem_of_lookup_2).
           lia.
        -- eapply (Hinc i j); [lia|done..].
      * lia.
      * intros a [->|Ha]%elem_of_cons; [lia|]. specialize (Hmax _ Ha). lia.
      * intros a [->|Ha]%elem_of_cons; [lia|]. by apply Hpos.
    + exists (x :: l'), x. simpl. split_and!; try done.
      * by rewrite Hlen.
      * intros [|i] [|j] a b Hij Ha Hb; simpl in *; try lia.
        -- injection Ha as <-.
           assert (b ≤ hi) by (apply Hmax; by eapply list_elem_of_lookup_2).
           lia.
        -- eapply (Hinc i j); [lia|done..].
      * lia.
      * intros a [->|Ha]%elem_of_cons; [lia|]. specialize (Hmax _ Ha). lia.
      * intros a [->|Ha]%elem_of_cons; [lia|]. by apply Hpos.
Qed.

Lemma increasing_from_back_NoDup l : increasing_from_back l → NoDup l.
Proof.
  intros H. apply NoDup_alt. intros i j x Hi Hj.
  destruct (Nat.lt_trichotomy i j) as [Hlt|[->|Hlt]]; [|done|].
  - pose proof (H i j x x Hlt Hi Hj). lia.
  - pose proof (H j i x x Hlt Hj Hi). lia.
Qed.

(** C7.  On a document whose four baserunner arrays are lists, whose
    [basesOccupied] holds integers and whose [baserunnerCount] is a number,
    [_player_to_base] returns, and the [basesOccupied] it leaves, read from
    its last element to its first, is strictly increasing, so that no two
    runners share a base.  (The order of the bases before the call does not
    matter to that.) *)
Theorem player_to_base_ordered (player : PlayerState) (b : Z) (s : GameState)
    (runners names ms : list value) (occupied : list Z) (count : value) :
  game_update s !! "baseRunners" = Some (VList runners) →
  game_update s !! "baseRunnerNames" = Some (VList names) →
  game_update s !! "baseRunnerMods" = Some (VList ms) →
  game_update s !! "basesOccupied" = Some (VList (VInt <$> occupied)) →
  game_update s !! "baserunnerCount" = Some count →
  is_Some (py_add count (VInt 1)) →
  increasing_from_back occupied →
  ∃ s' occupied',
    _player_to_base player b s = Some (tt, s')
    ∧ game_update s' !! "basesOccupied" = Some (VList (VInt <$> occupied'))
    ∧ length occupied' = S (length occupied)
    ∧ increasing_from_back occupied'
    ∧ NoDup occupied'.
Proof.
  intros H1 H2 H3 H4 H5 [c' Hc] _.
  destruct (advance_runners_int (occupied ++ [b]))
    as (l' & hi & Hadv & Hlen & Hinc & _).
  rewrite fmap_app in Hadv. simpl in Hadv.
  unfold _player_to_base.
  do 7 run_step.
  eexists _, l'. split; [run_prim|]. doc_norm. doc_simpl.
  split_and!; try done.
  - rewrite Hlen, length_app. simpl. lia.
  - by apply increasing_from_back_NoDup.
Qed.

(** * Single handlers *)

Lemma next_emitted E e g s :
  (match update E e g s with Some _ => true | None => false end) = true →
  update E e g s = Some (emitted E e g s, next E e g s).
Proof. unfold emitted, next. by destruct (update E e g s) as [[]|]. Qed.

(** ** The play count of [update_play_ball] *)

(** C2.  [update_play_ball] adds one to [playCount] itself and returns a
    document of its own, so the driver does not add its one: across the
    driver's call for a [play_ball] event the play count of the running
    document grows by one, as for every other event, and the emitted
    document carries the same count. *)
Theorem play_ball_playCount E feed_event g s d s' n :
  type feed_event = 1 →
  game_update s !! "playCount" = Some (VInt n) →
  update E feed_event g s = Some (d, s') →
  game_update s' !! "playCount" = Some (VInt (n + 1))
  ∧ d !! "playCount" = Some (VInt (n + 1)).
Proof.
  intros _ Hn H.
  destruct (update_playCount E _ _ _ _ _ _ Hn H) as (v' & Hv & ? & ?).
  rewrite py_add_int in Hv. by injection Hv as <-.
Qed.

Lemma play_ball_playCount_witness :
  let s := state_after demo_env [plain 0 "Let's Go!"] in
  let e := demo_event 1 "Play ball!" in
  game_update s !! "playCount" = Some (VInt 1)
  ∧ game_update (next demo_env e None s) !! "playCount" = Some (VInt 2)
  ∧ emitted demo_env e None s !! "playCount" = Some (VInt 2).
Proof.
  intros s e. split; [vm_compute; reflexivity|].
  apply (play_ball_playCount demo_env e None s _ _ 1).
  - reflexivity.
  - vm_compute; reflexivity.
  - apply next_emitted. vm_compute; reflexivity.
Defined.

(** ** Events without a state change *)

Lemma update_coffee_bean_readonly E feed_event g :
  readonly (update_coffee_bean E feed_event g)
  ∧ returns (λ r, r = None) (update_coffee_bean E feed_event g).
Proof.
  split.
  - intros s r s' H. unfold update_coffee_bean, assert_flag in H.
    minv. repeat (case_match; try done). by minv.
  - returns_go.
Qed.

(** C4.  An accepted [coffee_bean] event (type 39) leaves [lastUpdate] as it
    was: [update_coffee_bean] checks the parse and changes nothing, so the
    event's description is not copied. *)
Theorem coffee_bean_keeps_lastUpdate E feed_event g s d s' :
  type feed_event = 39 →
  update E feed_event g s = Some (d, s') →
  game_update s' !! "lastUpdate" = game_update s !! "lastUpdate".
Proof.
  intros Ht H. unfold update in H. rewrite Ht in H.
  cbn [update_type] in H.
  apply M_bind_Some in H as ([] & s1 & H1 & H).
  apply doc_set_Some in H1. subst s1.
  apply M_bind_Some in H as (f & s2 & H2 & H).
  apply liftO_Some in H2 as [[= <-] ->].
  apply M_bind_Some in H as (r & s3 & H3 & H).
  destruct (update_coffee_bean_readonly E feed_event g) as [Hro Hr].
  pose proof (Hr _ _ _ H3) as ->. apply Hro in H3 as ->.
  unfold doc_add in H. minv. doc_norm. by doc_simpl.
Qed.

Lemma coffee_bean_keeps_lastUpdate_witness :
  let s := state_after demo_env demo_runner_on_second in
  let e := demo_event 39
    "Bob Bean is Beaned by a Flat White. Bob Bean gains a Free Refill." in
  game_update s !! "lastUpdate"
    = Some (VStr "Bob Bean batting for the Fridays.")
  ∧ game_update (next demo_env e None s) !! "lastUpdate"
    = game_update s !! "lastUpdate".
Proof.
  intros s e. split; [vm_compute; reflexivity|].
  apply (coffee_bean_keeps_lastUpdate demo_env e None s
           (emitted demo_env e None s)).
  - reflexivity.
  - apply next_emitted. vm_compute; reflexivity.
Defined.

(** The two handlers that do copy the description change [lastUpdate] and
    nothing else. *)
Lemma no_state_change_pitch_frame E feed_event g s v w :
  type feed_event = 73 →
  expects_pitch s = true →
  game_update s !! "playCount" = Some v →
  py_add v (VInt 1) = Some w →
  let d := <["playCount" := w]>
             (<["lastUpdate" := VStr (description feed_event)]>
                (<["scoreUpdate" := VStr ""]> (game_update s))) in
  update E feed_event g s = Some (d, set_game_update d s).
Proof.
  intros Ht Hp Hv Hw d. unfold update. rewrite Ht. cbn [update_type].
  do 2 run_step. unfold update_no_state_change_pitch.
  erewrite (bind_run (_ ;; _)); [|do 2 run_step; run_prim].
  cbn iota. run_step. subst d. doc_norm. destruct s. reflexivity.
Qed.

Lemma no_state_change_batter_up_frame E feed_event g s v w :
  type feed_event = 92 →
  expects_batter_up s = true →
  game_update s !! "playCount" = Some v →
  py_add v (VInt 1) = Some w →
  let d := <["playCount" := w]>
             (<["lastUpdate" := VStr (description feed_event)]>
                (<["scoreUpdate" := VStr ""]> (game_update s))) in
  update E feed_event g s = Some (d, set_game_update d s).
Proof.
  intros Ht Hp Hv Hw d. unfold update. rewrite Ht. cbn [update_type].
  do 2 run_step. unfold update_no_state_change_batter_up.
  erewrite (bind_run (_ ;; _)); [|do 2 run_step; run_prim].
  cbn iota. run_step. subst d. doc_norm. destruct s. reflexivity.
Qed.

(** ** The line of the final score *)

(** C9.  [update_game_score] lists the home team first exactly when
    [homeScore > awayScore] holds in Python; with integer scores that is
    [awayScore < homeScore], so that on equal scores the away team comes
    first. *)
Theorem game_score_description_order E s (home_score away_score : value)
    (home_wins : bool) :
  game_update s !! "homeScore" = Some home_score →
  game_update s !! "awayScore" = Some away_score →
  py_lt away_score home_score = Some home_wins →
  let away_text := nickname (away s) +:+ " " +:+ py_str E away_score in
  let home_text := nickname (home s) +:+ " " +:+ py_str E home_score in
  game_score_description E s
  = Some (if home_wins then home_text +:+ ", " +:+ away_text
          else away_text +:+ ", " +:+ home_text, s)
  ∧ (∀ h a, home_score = VInt h → away_score = VInt a →
            home_wins = bool_decide (a < h))
  ∧ (∀ n, home_score = VInt n → away_score = VInt n → home_wins = false).
Proof.
  intros Hh Ha Hlt away_text home_text. split_and!.
  - unfold game_score_description. do 7 run_step. reflexivity.
  - intros h a -> ->. rewrite py_lt_int in Hlt. by injection Hlt.
  - intros n -> ->. rewrite py_lt_int in Hlt. injection Hlt as <-.
    case_bool_decide; [lia|done].
Qed.

Lemma game_score_description_order_witness :
  let s := state_after demo_env demo_opening in
  game_score_description demo_env s = Some ("Fridays 0, Tigers 0", s).
Proof.
  intros s.
  destruct (game_score_description_order demo_env s (VInt 0) (VInt 0) false)
    as (H & _ & _).
  - vm_compute; reflexivity.
  - vm_compute; reflexivity.
  - reflexivity.
  - rewrite H. f_equal.
Defined.

(** ** A hit with a batter heating up *)

Lemma foldM_fail_token {B} s0 rest (acc : B) f s :
  (∀ b s, f b (Token s0) s = None) →
  foldM (Token s0 :: rest) acc f s = None.
Proof. intros Hf. simpl. unfold bind. by rewrite Hf. Qed.

Lemma _update_scores_token E s0 rest s :
  _update_scores E (Token s0 :: rest) s = None.
Proof.
  unfold _update_scores. unfold bind at 1.
  by rewrite foldM_fail_token.
Qed.

Lemma _update_scores_heating_up E c rest s :
  _update_scores E (Tree "heating_up" c :: rest) s = None.
Proof. unfold _update_scores. unfold bind at 1. reflexivity. Qed.

(** C10.  When the child after the [hit] node is a [heating_up] node,
    [update_hit] fails unless the name in it is the parsed batter name; when
    the two names agree, the outcome - the state, the returned value, or the
    failure - is the one of the same parse without the [heating_up] child.
    (The source looks for the child in that one place, so the rest of the
    parse does not start with another [heating_up] node.) *)
Theorem update_hit_heating_up E feed_event g s root hit batter_name base_name
    heating_up_name rest :
  let with_child :=
    Tree root (Tree hit [Token batter_name; base_name]
               :: Tree "heating_up" [Token heating_up_name] :: rest) in
  let without_child :=
    Tree root (Tree hit [Token batter_name; base_name] :: rest) in
  (heating_up_name ≠ batter_name →
   update_hit_parsed E with_child feed_event g s = None)
  ∧ (heating_up_name = batter_name →
     (∀ c rest', rest ≠ Tree "heating_up" c :: rest') →
     update_hit_parsed E with_child feed_event g s
     = update_hit_parsed E without_child feed_event g s).
Proof.
  intros with_child without_child. split.
  - intros Hne. unfold with_child, update_hit_parsed. msimpl.
    destruct (String.eqb_spec heating_up_name batter_name); [done|].
    by msimpl.
  - intros -> Hrest. unfold with_child, without_child, update_hit_parsed.
    msimpl.
    destruct rest as [|[t|d c] rest']; msimpl.
    + reflexivity.
    + destruct (batter s) as [[b s1]|] eqn:Hb; [|by unfold bind; rewrite Hb].
      rewrite (bind_run _ _ _ _ _ Hb).
      destruct (tree_eq_str _ _); msimpl; try done.
      all: unfold bind at 1; by rewrite _update_scores_token.
    + destruct (String.eqb_spec d "heating_up") as [->|Hd].
      * by destruct (Hrest c rest').
      * by msimpl.
Qed.

Lemma update_hit_heating_up_witness :
  let s := state_after demo_env demo_opening in
  let hit := Tree "hit" [Token "Ann Apple"; Token "Double"] in
  update_hit_parsed demo_env
    (Tree "start" [hit; Tree "heating_up" [Token "Bob Bean"]])
    (demo_event 10 "Ann Apple hits a Double! Bob Bean is Heating Up!")
    None s = None
  ∧ update_hit_parsed demo_env
      (Tree "start" [hit; Tree "heating_up" [Token "Ann Apple"]])
      (demo_event 10 "Ann Apple hits a Double!") None s
    = update_hit_parsed demo_env (Tree "start" [hit])
        (demo_event 10 "Ann Apple hits a Double!") None s.
Proof.
  intros s hit. split.
  - by apply (update_hit_heating_up demo_env _ None s "start" "hit"
                "Ann Apple" (Token "Double") "Bob Bean" []).
  - by apply (update_hit_heating_up demo_env _ None s "start" "hit"
                "Ann Apple" (Token "Double") "Ann Apple" []).
Defined.

(** ** Examples on the small game *)

Lemma increasing_from_back_singleton x : increasing_from_back [x].
Proof.
  intros i j a b Hij Ha Hb.
  apply lookup_lt_Some in Ha, Hb. simpl in *. lia.
Qed.

(** With Ann Apple on first, a second player put on first pushes her to
    second. *)
Lemma player_to_base_ordered_witness :
  let s := state_after demo_env demo_runner_on_first in
  increasing_from_back [0]
  ∧ ∃ s' occupied',
      _player_to_base no_player 0 s = Some (tt, s')
      ∧ game_update s' !! "basesOccupied" = Some (VList (VInt <$> occupied'))
      ∧ length occupied' = 2%nat
      ∧ increasing_from_back occupied'
      ∧ NoDup occupied'.
Proof.
  intros s. split; [apply increasing_from_back_singleton|].
  apply (player_to_base_ordered no_player 0 s
           [VStr "p1"] [VStr "Ann Apple"] [VStr ""] [0] (VInt 1)).
  - vm_compute; reflexivity.
  - vm_compute; reflexivity.
  - vm_compute; reflexivity.
  - vm_compute; reflexivity.
  - vm_compute; reflexivity.
  - by eexists.
  - apply increasing_from_back_singleton.
Defined.

(** C6.  Two runners named Ann Apple are on base, the one listed first
    (id p1) on first and the one listed second (id p5) on third.  The second
    steals home: [update_base_steal] finds her by her base, but scores by name
    the first runner called Ann Apple, so that the runner on first leaves the
    arrays and the stealer stays, on base 3. *)
Theorem steal_scores_first_namesake :
  let s := state_after twin_env twin_runners in
  let e := demo_event 4 "Ann Apple steals fourth base!" in
  accepted twin_env twin_runners = true
  ∧ game_update s !! "baseRunners" = Some (VList [VStr "p1"; VStr "p5"])
  ∧ game_update s !! "baseRunnerNames"
    = Some (VList [VStr "Ann Apple"; VStr "Ann Apple"])
  ∧ game_update s !! "basesOccupied" = Some (VList [VInt 0; VInt 2])
  ∧ game_update s !! "awayBases" = Some (VInt 4)
  ∧ (match update twin_env e None s with
     | Some (_, s') =>
         game_update s' !! "baseRunners" = Some (VList [VStr "p5"])
         ∧ game_update s' !! "basesOccupied" = Some (VList [VInt 3])
         ∧ game_update s' !! "awayScore" = Some (VInt 1)
     | None => False
     end).
Proof. intros s e. vm_compute. split_and!; reflexivity. Qed.

(** A runner on first who steals second, with four bases: [basesOccupied]
    goes from [[0]] to [[1]] and nothing is scored. *)
Lemma steal_second_example :
  let s := state_after demo_env demo_runner_on_first in
  let e := demo_event 4 "Ann Apple steals second base!" in
  game_update s !! "basesOccupied" = Some (VList [VInt 0])
  ∧ game_update (next demo_env e None s) !! "basesOccupied"
    = Some (VList [VInt 1])
  ∧ game_update (next demo_env e None s) !! "awayScore" = Some (VInt 0)
  ∧ game_update (next demo_env e None s) !! "scoreUpdate" = Some (VStr "").
Proof. intros s e. vm_compute. split_and!; reflexivity. Qed.

(** C1, as stated, fails: with one runner, on second, a solo home run is
    refused (the handler takes no runner off for a solo home run and then
    requires the bases to be empty). *)
Lemma solo_home_run_with_runner_fails :
  let s := state_after demo_env demo_runner_on_second in
  let e := demo_event 9 "Bob Bean hits a solo home run!" in
  accepted demo_env demo_runner_on_second = true
  ∧ game_update s !! "baseRunners" = Some (VList [VStr "p1"])
  ∧ game_update s !! "basesOccupied" = Some (VList [VInt 1])
  ∧ expects_pitch s = true
  ∧ update_home_run demo_env e None s = None
  ∧ update demo_env e None s = None.
Proof. intros s e. vm_compute. split_and!; reflexivity. Qed.

(** C3, as stated, fails: at no outs a home run with a free refill leaves
    [halfInningOuts] at -1. *)
Lemma free_refill_makes_outs_negative :
  let s := state_after demo_env demo_runner_on_second in
  let e := demo_event 9
    "Bob Bean hits a 2-run home run! Bob Bean used their Free Refill." in
  accepted demo_env demo_runner_on_second = true
  ∧ game_update s !! "halfInningOuts" = Some (VInt 0)
  ∧ game_update (next demo_env e None s) !! "halfInningOuts"
    = Some (VInt (-1))
  ∧ ¬ outs_nonneg (game_update (next demo_env e None s)).
Proof.
  intros s e.
  assert (H : game_update (next demo_env e None s) !! "halfInningOuts"
              = Some (VInt (-1))) by (vm_compute; reflexivity).
  split; [vm_compute; reflexivity|].
  split; [vm_compute; reflexivity|].
  split; [exact H|].
  intros (h & Hh & Hpos). rewrite H in Hh. injection Hh as <-. lia.
Qed.

(** ** Home runs *)

Lemma prefix_run s t negate :
  game_update s !! "topOfInning" = Some (VBool t) →
  prefix negate s
  = Some (if negb (eqb t negate) then "away" else "home", s).
Proof.
  intros H. unfold prefix. rewrite (bind_run _ _ _ _ _ (doc_get_run _ _ _ H)).
  by destruct t, negate.
Qed.

Lemma top_or_bottom_run s t negate :
  game_update s !! "topOfInning" = Some (VBool t) →
  top_or_bottom negate s
  = Some (if negb (eqb t negate) then "top" else "bottom", s).
Proof.
  intros H. unfold top_or_bottom.
  rewrite (bind_run _ _ _ _ _ (doc_get_run _ _ _ H)).
  by destruct t, negate.
Qed.

Ltac run_side :=
  first [ erewrite bind_run; [|eapply prefix_run; look]
        | erewrite bind_run; [|eapply top_or_bottom_run; look] ];
  cbn [negb eqb String.append].
Ltac run_go := repeat (msimpl; first [run_side | run_step]).

(** C1, amended.  With exactly one runner on base, a two-run home run
    ([multi_hr] with count 2) without extras is accepted by
    [update_home_run]: the baserunner arrays are emptied, the score of the
    batting team grows by 2, [scoreUpdate] is ["2 Runs scored!"] and the
    at-bat is over (batter fields blank, counters zero, the next event
    expected is a batter-up). *)
Theorem two_run_home_run E feed_event g s root home_run batter_name n
    (runner runner_name runner_mod base : value) (count : Z) (top : bool)
    (score half_score inning_score score' half_score' inning_score' : value) :
  let p := if top then "away" else "home" in
  let tb := if top then "top" else "bottom" in
  expects_pitch s = true →
  Parsers_home_run E (description feed_event)
  = Some (Tree root [Tree home_run
                       [batter_name; Tree "multi_hr" [Token n]]]) →
  py_int E n = Some 2 →
  game_update s !! "baseRunners" = Some (VList [runner]) →
  game_update s !! "baseRunnerNames" = Some (VList [runner_name]) →
  game_update s !! "baseRunnerMods" = Some (VList [runner_mod]) →
  game_update s !! "basesOccupied" = Some (VList [base]) →
  game_update s !! "baserunnerCount" = Some (VInt count) →
  game_update s !! "topOfInning" = Some (VBool top) →
  game_update s !! (p +:+ "Score") = Some score →
  game_update s !! "halfInningScore" = Some half_score →
  game_update s !! (tb +:+ "InningScore") = Some inning_score →
  py_add score (VInt 2) = Some score' →
  py_add half_score (VInt 2) = Some half_score' →
  py_add inning_score (VInt 2) = Some inning_score' →
  ∃ s',
    update_home_run E feed_event g s = Some (None, s')
    ∧ game_update s' !! "baseRunners" = Some (VList [])
    ∧ game_update s' !! "baseRunnerNames" = Some (VList [])
    ∧ game_update s' !! "baseRunnerMods" = Some (VList [])
    ∧ game_update s' !! "basesOccupied" = Some (VList [])
    ∧ game_update s' !! "baserunnerCount" = Some (VInt (count - 1))
    ∧ game_update s' !! (p +:+ "Score") = Some score'
    ∧ game_update s' !! "halfInningScore" = Some half_score'
    ∧ game_update s' !! (tb +:+ "InningScore") = Some inning_score'
    ∧ game_update s' !! "scoreUpdate" = Some (VStr "2 Runs scored!")
    ∧ game_update s' !! "lastUpdate" = Some (VStr (description feed_event))
    ∧ batter_blank p (game_update s')
    ∧ expects_pitch s' = false
    ∧ expects_batter_up s' = true
    ∧ haunter s' = None.
Proof.
  intros p tb Hpitch Hparse Hint H1 H2 H3 H4 H5 Htop Hs Hh Hi Hs' Hh' Hi'.
  subst p tb. destruct top; cbn [String.append] in *.
  all: eexists; split.
  all: try (unfold batter_blank; cbn [String.append]).
  1,3: unfold update_home_run; run_step;
       unfold parse at 1; rewrite Hparse; msimpl;
       change (String.eqb "multi_hr" "solo_hr") with false; cbv iota; msimpl;
       change (String.eqb "multi_hr" "multi_hr") with true; msimpl;
       unfold int_of_tree; rewrite Hint; msimpl;
       unfold _apply_scoring_extras; cbn [forM_]; msimpl;
       change (Z.to_nat (2 - 1)) with 1%nat; cbn [replicate forM_]; msimpl;
       unfold _remove_baserunner_by_index; run_go;
       unfold _score_runs; run_go; unfold _record_runs;
       change (num_eqb (NInt 2) (NInt 1)) with false;
       change (num_eqb (NInt 2) (NInt 0)) with false;
       cbv iota; cbn [negb of_num py_str];
       change (pretty 2 +:+ " Runs scored!") with "2 Runs scored!";
       run_go; unfold _end_atbat; run_go; run_prim.
  all: split_and!; try reflexivity; try look.
Qed.

Lemma two_run_home_run_witness :
  let s := state_after demo_env demo_runner_on_second in
  let e := demo_event 9 "Bob Bean hits a 2-run home run!" in
  expects_pitch s = true
  ∧ game_update s !! "awayScore" = Some (VInt 0)
  ∧ ∃ s', update_home_run demo_env e None s = Some (None, s')
          ∧ game_update s' !! "baseRunners" = Some (VList [])
          ∧ game_update s' !! "awayScore" = Some (VInt 2)
          ∧ game_update s' !! "scoreUpdate" = Some (VStr "2 Runs scored!")
          ∧ expects_batter_up s' = true.
Proof.
  intros s e.
  split; [vm_compute; reflexivity|]. split; [vm_compute; reflexivity|].
  destruct (two_run_home_run demo_env e None s "start" "home_run"
              (Token "Bob Bean") "2" (VStr "p1") (VStr "Ann Apple") (VStr "")
              (VInt 1) 1 true (VInt 0) (VInt 0) (VInt 0)
              (VInt 2) (VInt 2) (VInt 2))
    as (s' & H0 & H1 & _ & _ & _ & _ & H6 & _ & _ & H9 & _ & _ & _ & H13 & _);
    try (vm_compute; reflexivity).
  exists s'. split_and!; assumption.
Defined.

(** ** Outs and reverberation *)

Lemma prefix_Some negate s p s' :
  prefix negate s = Some (p, s') →
  s' = s ∧ (p = "away" ∨ p = "home").
Proof.
  unfold prefix. intros H. minv. split; [done|]. case_match; auto.
Qed.

(** The first half of [_update_out] with [for_batter] set leaves the batter
    counts alone. *)
Lemma _update_out_count_batter_count k o :
  k = "awayTeamBatterCount" ∨ k = "homeTeamBatterCount" →
  pres (λ s, field k o (game_update s)) (_update_out_count true).
Proof.
  intros [->| ->]; unfold _update_out_count, _end_half_inning; cbn [negb].
  - pres_go ltac:(doc_special (field_depends "awayTeamBatterCount") no_more).
  - pres_go ltac:(doc_special (field_depends "homeTeamBatterCount") no_more).
Qed.

Lemma _update_out_count_Some for_batter s p s1 :
  _update_out_count for_batter s = Some (p, s1) →
  prefix false s = Some (p, s) ∧ (p = "away" ∨ p = "home").
Proof.
  unfold _update_out_count. intros H.
  apply M_bind_Some in H as ([] & sa & Ha & H).
  apply M_bind_Some in H as (p' & sb & Hp & H).
  pose proof (prefix_Some _ _ _ _ Hp) as [-> Hor].
  assert (p = p') as ->.
  { match type of H with
    | ?m _ = _ => assert (Hr : returns (λ r, r = p') m) by returns_go
    end.
    by eapply Hr. }
  split; [|done]. clear H Hor.
  unfold prefix in Hp |- *. unfold doc_add in Ha. minv.
  doc_norm. doc_simpl_all.
  erewrite bind_run; [|by eapply doc_get_run]. reflexivity.
Qed.

(** C5.  Once the out is counted ([_update_out_count], which names the
    batting side [p] and leaves the state [s1]), [_update_out] sets the
    latch [expects_reverberate[p]]: without a snapshot it becomes unknown
    ([None]) and the call returns; with a snapshot whose batter count is one
    below the running count it becomes [True] and the running count is taken
    down by one; with equal counts it becomes [False]; any other difference
    is refused.  With [for_batter] set, the running count compared is the
    one from before the call. *)
Theorem update_out_reverberation (for_batter : bool) (s s1 : GameState)
    (p : string) :
  _update_out_count for_batter s = Some (p, s1) →
  let key := p +:+ "TeamBatterCount" in
  prefix false s = Some (p, s)
  ∧ (for_batter = true →
     game_update s1 !! key = game_update s !! key)
  ∧ _update_out None for_batter s
    = Some (tt, set_expects_reverberate
                  (<[p:=VNone]> (expects_reverberate s1)) s1)
  ∧ (∀ g mine theirs,
       game_update s1 !! key = Some (VInt mine) →
       g !! key = Some (VInt theirs) →
       (mine = theirs + 1 →
        _update_out (Some g) for_batter s
        = Some (tt, set_game_update
                      (<[key:=VInt theirs]> (game_update s1))
                      (set_expects_reverberate
                         (<[p:=VBool true]> (expects_reverberate s1)) s1)))
       ∧ (mine = theirs →
          _update_out (Some g) for_batter s
          = Some (tt, set_expects_reverberate
                        (<[p:=VBool false]> (expects_reverberate s1)) s1))
       ∧ (mine ≠ theirs → mine ≠ theirs + 1 →
          _update_out (Some g) for_batter s = None)).
Proof.
  intros Hc key. destruct (_update_out_count_Some _ _ _ _ Hc) as [Hp Hor].
  split_and!.
  - done.
  - intros ->.
    eapply (_update_out_count_batter_count key); [|reflexivity|exact Hc].
    subst key. by destruct Hor as [->| ->]; [left|right].
  - unfold _update_out. rewrite (bind_run _ _ _ _ _ Hc). reflexivity.
  - intros g mine theirs Hm Ht. unfold _update_out.
    rewrite (bind_run _ _ _ _ _ Hc). unfold _update_out_reverberate.
    fold key. split_and!.
    + intros ->. run_go. cbn [of_num].
      replace (theirs + 1 - theirs) with 1 by lia.
      change (negb (py_eq (VInt 1) (VInt 0))) with true. cbv iota.
      change (py_eq (VInt 1) (VInt 1)) with true. msimpl.
      unfold set_reverberate. run_go.
      erewrite doc_sub_run; [|look|apply py_sub_int]. st_norm.
      by replace (theirs + 1 - 1) with theirs by lia.
    + intros ->. run_go. cbn [of_num].
      replace (theirs - theirs) with 0 by lia.
      change (negb (py_eq (VInt 0) (VInt 0))) with false. cbv iota.
      reflexivity.
    + intros Hne1 Hne2. run_go. cbn [of_num].
      rewrite !py_eq_int. rewrite !bool_decide_eq_false_2 by lia.
      cbn [negb]. by msimpl.
Qed.

Lemma option_pair_eta {A B} (o : option (A * B)) a d :
  fst <$> o = Some a → o = Some (a, default d (snd <$> o)).
Proof. destruct o as [[x y]|]; simpl; [|done]. by intros [= ->]. Qed.

(** An out for the batter with a runner on second; the running batter count
    of the away side is 1. *)
Lemma update_out_reverberation_witness :
  let s := state_after demo_env demo_runner_on_second in
  let s1 := default no_game (snd <$> _update_out_count true s) in
  let key := "away" +:+ "TeamBatterCount" in
  _update_out_count true s = Some ("away", s1)
  ∧ game_update s1 !! key = Some (VInt 1)
  ∧ _update_out None true s
    = Some (tt, set_expects_reverberate
                  (<["away":=VNone]> (expects_reverberate s1)) s1)
  ∧ _update_out (Some {[ key := VInt 0 ]}) true s
    = Some (tt, set_game_update
                  (<[key:=VInt 0]> (game_update s1))
                  (set_expects_reverberate
                     (<["away":=VBool true]> (expects_reverberate s1)) s1))
  ∧ _update_out (Some {[ key := VInt 1 ]}) true s
    = Some (tt, set_expects_reverberate
                  (<["away":=VBool false]> (expects_reverberate s1)) s1).
Proof.
  intros s s1 key.
  assert (Hc : _update_out_count true s = Some ("away", s1)).
  { apply option_pair_eta. vm_compute. reflexivity. }
  assert (Hm : game_update s1 !! key = Some (VInt 1)).
  { vm_compute. reflexivity. }
  destruct (update_out_reverberation true s s1 "away" Hc)
    as (_ & _ & Hnone & Hsome).
  split; [exact Hc|]. split; [exact Hm|]. split; [exact Hnone|].
  split.
  - destruct (Hsome {[ key := VInt 0 ]} 1 0 Hm) as (H1 & _ & _).
    + vm_compute. reflexivity.
    + apply H1. reflexivity.
  - destruct (Hsome {[ key := VInt 1 ]} 1 1 Hm) as (_ & H2 & _).
    + vm_compute. reflexivity.
    + apply H2. reflexivity.
Defined.

(** * The bound on the outs *)

(** ** Rules for [leads] *)

Lemma leads_stay {A B} I J (m : M A) (k : A → M B) :
  pres I m → (∀ a, leads I J (k a)) → leads I J (bind m k).
Proof.
  intros Hm Hk s b s'' HI (a & s' & H1 & H2)%M_bind_Some.
  eapply Hk; [|done]. eapply Hm; done.
Qed.

Lemma leads_switch {A B} I J (m : M A) (k : A → M B) :
  leads I J m → (∀ a, pres J (k a)) → leads I J (bind m k).
Proof.
  intros Hm Hk s b s'' HI (a & s' & H1 & H2)%M_bind_Some.
  eapply Hk; [|done]. eapply Hm; done.
Qed.

Lemma leads_weaken {A} (I J : GameState → Prop) (m : M A) :
  pres I m → (∀ s, I s → J s) → leads I J m.
Proof. intros Hm HIJ s a s' HI H. eapply HIJ, Hm; done. Qed.

Lemma leads_fail {A} I J : leads I J (@fail A).
Proof. by intros s a s' _ ?. Qed.

(** ** Invariants that read the core only *)

Lemma core_doc_set k v s :
  fresh_for outs_keys k →
  core (set_game_update (<[k:=v]> (game_update s)) s) = core s.
Proof.
  intros Hk. unfold core. f_equal. unfold outs_keys in *. cbn [fmap list_fmap].
  cbn [game_update set_game_update].
  rewrite !lookup_insert_ne; [done|..];
    intros ->; apply Hk; rewrite !elem_of_cons; tauto.
Qed.

Lemma pres_core_doc_set I k v :
  reads_core I → fresh_for outs_keys k → pres I (doc_set k v).
Proof.
  intros HI Hk s a s' Hs ->%doc_set_Some. revert Hs. apply HI.
  symmetry. by apply core_doc_set.
Qed.

Lemma pres_core_modify I f :
  reads_core I → (∀ s, core (f s) = core s) → pres I (modify f).
Proof.
  intros HI Hf. apply pres_modify. intros s. apply HI. by rewrite Hf.
Qed.

Lemma outs_typed_core s s' h oa oh top :
  core s = core s' → outs_typed s h oa oh top → outs_typed s' h oa oh top.
Proof.
  intros Hc (H1 & H2 & H3 & H4).
  apply (f_equal snd) in Hc. unfold core, outs_keys in Hc.
  cbn [snd fmap list_fmap] in Hc. injection Hc as E1 E2 E3 E4.
  unfold outs_typed. by rewrite <- E1, <- E2, <- E3, <- E4.
Qed.

Lemma flags_core s s' : core s = core s' → flags s' = flags s.
Proof. intros Hc. apply (f_equal fst) in Hc. by symmetry. Qed.

Lemma at_bat_reads_core : reads_core at_bat.
Proof.
  intros s s' Hc (h & oa & oh & top & Ht & ? & ? & ? & Hf).
  exists h, oa, oh, top. rewrite (flags_core _ _ Hc).
  split_and!; try done. by eapply outs_typed_core.
Qed.

Lemma at_bat_counting_reads_core : reads_core at_bat_counting.
Proof.
  intros s s' Hc (h & oa & oh & top & Ht & ? & ? & Hf).
  exists h, oa, oh, top. rewrite (flags_core _ _ Hc).
  split_and!; try done. by eapply outs_typed_core.
Qed.

Lemma out_bound_reads_core : reads_core out_bound.
Proof.
  intros s s' Hc (h & oa & oh & top & Ht & ? & ? & ? & Hf & Hq).
  pose proof (flags_core _ _ Hc) as Hfl.
  exists h, oa, oh, top. rewrite Hfl.
  split_and!; try done; [by eapply outs_typed_core|].
  unfold flags in Hfl. injection Hfl as E1 E2 E3 E4 E5 E6 E7.
  intros Hp Hb. apply Hq; congruence.
Qed.

Lemma at_bat_out_bound s : at_bat s → out_bound s.
Proof.
  intros (h & oa & oh & top & Ht & ? & ? & ? & Hf).
  exists h, oa, oh, top. split_and!; try done.
  - by destruct Hf as [->| ->].
  - unfold flags, pitching, batting in Hf.
    intros Hp Hb. destruct Hf as [[= _ _ _ _ Hf _ _]|[= _ _ _ Hf _ _ _]];
      congruence.
Qed.

Lemma at_bat_counting_weaken s : at_bat s → at_bat_counting s.
Proof.
  intros (h & oa & oh & top & Ht & ? & ? & ? & Hf). by exists h, oa, oh, top.
Qed.

(** With one flag set, the flag that is set tells them all. *)
Lemma one_flag (l : list bool) i :
  count_true l = 1%nat → l !! i = Some true → length l = 7%nat →
  l = <[i:=true]> (replicate 7 false).
Proof.
  intros Hc Hi Hl.
  do 7 (destruct l as [|? l]; [done|]). destruct l; [|done]. clear Hl.
  repeat match goal with b : bool |- _ => destruct b end;
    simpl in Hc; try discriminate Hc;
    do 7 (destruct i as [|i]; [first [discriminate Hi | reflexivity]|]);
    discriminate Hi.
Qed.

Lemma out_bound_pitching s :
  out_bound s → expects_pitch s = true → at_bat s.
Proof.
  intros (h & oa & oh & top & Ht & ? & ? & ? & Hf & Hq) Hp.
  exists h, oa, oh, top. split_and!; try done. left.
  by apply (one_flag _ 4 Hf (f_equal Some Hp)).
Qed.

Lemma out_bound_batting s :
  out_bound s → expects_batter_up s = true → at_bat s.
Proof.
  intros (h & oa & oh & top & Ht & ? & ? & ? & Hf & Hq) Hp.
  exists h, oa, oh, top. split_and!; try done. right.
  by apply (one_flag _ 3 Hf (f_equal Some Hp)).
Qed.

Lemma assert_flag_Some f s a s' :
  assert_flag f s = Some (a, s') → f s = true ∧ s' = s.
Proof. unfold assert_flag. intros H. minv. done. Qed.

(** The flags of a state in which the flag at position [i] is set. *)
Ltac the_flag i Hc Hflag :=
  let Hf := fresh "Hf" in
  pose proof (one_flag _ i Hc (f_equal Some Hflag) eq_refl) as Hf;
  simpl in Hf; unfold flags in Hf;
  let E1 := fresh "F" in let E2 := fresh "F" in let E3 := fresh "F" in
  let E4 := fresh "F" in let E5 := fresh "F" in let E6 := fresh "F" in
  let E7 := fresh "F" in
  injection Hf as E1 E2 E3 E4 E5 E6 E7.

Lemma enter_pitch {A} (k : M A) :
  leads at_bat out_bound k → pres out_bound (assert_flag expects_pitch ;; k).
Proof.
  intros Hk s a s' Hs H. unfold assert_flag in H. minv.
  eapply Hk; [|done]. by apply out_bound_pitching.
Qed.

Lemma enter_batter_up {A} (k : M A) :
  leads at_bat out_bound k →
  pres out_bound (assert_flag expects_batter_up ;; k).
Proof.
  intros Hk s a s' Hs H. unfold assert_flag in H. minv.
  eapply Hk; [|done]. by apply out_bound_batting.
Qed.

(** ** The steps that move the counters or the flags *)

Ltac flags_of H :=
  unfold flags, pitching, batting in H;
  let E1 := fresh "F" in let E2 := fresh "F" in let E3 := fresh "F" in
  let E4 := fresh "F" in let E5 := fresh "F" in let E6 := fresh "F" in
  let E7 := fresh "F" in
  injection H as E1 E2 E3 E4 E5 E6 E7.

Ltac flags_done :=
  unfold flags, pitching, batting; st_norm;
  repeat match goal with
         | F : ?x = true |- context [?x] => rewrite F
         | F : ?x = false |- context [?x] => rewrite F
         end;
  try reflexivity.

(** The keys of the side at bat, once the side is known. *)
Ltac side_keys :=
  repeat match goal with
         | H : context [ "away" +:+ ?q ] |- _ =>
             let r := eval vm_compute in ("away" +:+ q) in
             change ("away" +:+ q) with r in H
         | H : context [ "home" +:+ ?q ] |- _ =>
             let r := eval vm_compute in ("home" +:+ q) in
             change ("home" +:+ q) with r in H
         end.

(** A free refill takes an out off the count. *)
Lemma at_bat_free_refill : pres at_bat (doc_sub "halfInningOuts" (VInt 1)).
Proof.
  intros s [] s' (h & oa & oh & top & (H1 & H2 & H3 & H4) & Hoa & Hoh & Hlt & Hf) Hrun.
  unfold doc_sub in Hrun. minv. same_lookup.
  rewrite py_sub_int in *. simplify_eq.
  exists (h - 1), oa, oh, top. unfold outs_typed. st_norm. doc_simpl.
  split_and!; try done. lia.
Qed.

Lemma at_bat_end_atbat : pres at_bat _end_atbat.
Proof.
  intros s [] s' (h & oa & oh & top & (H1 & H2 & H3 & H4) & Hoa & Hoh & Hlt & Hf) Hrun.
  unfold _end_atbat, prefix in Hrun. minv.
  exists h, oa, oh, top. unfold outs_typed. st_norm. doc_simpl.
  split_and!; try done. right.
  destruct Hf as [Hf|Hf]; flags_of Hf; flags_done.
Qed.

Lemma at_bat_counting_end_atbat : pres at_bat_counting _end_atbat.
Proof.
  intros s [] s' (h & oa & oh & top & (H1 & H2 & H3 & H4) & Hoa & Hoh & Hf) Hrun.
  unfold _end_atbat, prefix in Hrun. minv.
  exists h, oa, oh, top. unfold outs_typed. st_norm. doc_simpl.
  split_and!; try done. right.
  destruct Hf as [Hf|Hf]; flags_of Hf; flags_done.
Qed.

(** The batter is up: the next event is a pitch. *)
Lemma at_bat_pitch_next {A} (a : A) :
  pres at_bat
    (modify (set_expects_batter_up false) ;;
     modify (set_expects_pitch true) ;; ret a).
Proof.
  intros s ? s' (h & oa & oh & top & (H1 & H2 & H3 & H4) & Hoa & Hoh & Hlt & Hf) Hrun.
  minv.
  exists h, oa, oh, top. unfold outs_typed. st_norm.
  split_and!; try done. left.
  destruct Hf as [Hf|Hf]; flags_of Hf; flags_done.
Qed.

(** The first out of a double play is counted only if it leaves the
    half-inning open. *)
Lemma at_bat_double_play {A} (k : M A) :
  pres at_bat k →
  pres at_bat
    (doc_add "halfInningOuts" (VInt 1) ;;
     h <- doc_get "halfInningOuts" ;;
     p <- prefix false ;;
     o <- doc_get (p +:+ "Outs") ;;
     inside <- liftO (py_lt h o) ;;
     assert inside ;;
     k).
Proof.
  intros Hk s a s'
    (h & oa & oh & top & (H1 & H2 & H3 & H4) & Hoa & Hoh & Hlt & Hf) Hrun.
  unfold doc_add, prefix in Hrun. minv. eapply Hk; [|done]. clear Hrun.
  doc_norm. doc_simpl_all. same_lookup.
  rewrite py_add_int in *. simplify_eq.
  exists (h + 1), oa, oh, top. unfold outs_typed. st_norm. doc_simpl.
  split_and!; try done.
  destruct top; simpl in *; side_keys; doc_simpl_all; same_lookup;
    rewrite py_lt_int in *; simplify_eq;
    match goal with
    | H : bool_decide _ = true |- _ => apply bool_decide_eq_true in H
    end; done.
Qed.

(** *** The end of a half-inning *)

Lemma end_half_inning_keeps fb k v :
  k ∈ ["awayOuts"; "homeOuts"; "topOfInning"] →
  pres (λ s, holds k v (game_update s)) (_end_half_inning fb).
Proof.
  rewrite !elem_of_cons, elem_of_nil. intros [->|[->|[->|[]]]].
  - pres_go ltac:(doc_special (holds_depends "awayOuts") no_more).
  - pres_go ltac:(doc_special (holds_depends "homeOuts") no_more).
  - pres_go ltac:(doc_special (holds_depends "topOfInning") no_more).
Qed.

Lemma end_half_inning_outs fb :
  establishes (λ s, holds "halfInningOuts" (VInt 0) (game_update s))
    (_end_half_inning fb).
Proof.
  establishes_go ltac:(doc_special (holds_depends "halfInningOuts") no_more).
Qed.

Lemma leads_seq {A B} I K J (m : M A) (k : A → M B) :
  leads I K m → (∀ a, leads K J (k a)) → leads I J (bind m k).
Proof.
  intros Hm Hk s b s'' HI (a & s' & H1 & H2)%M_bind_Some.
  eapply Hk; [|done]. eapply Hm; done.
Qed.

Lemma flags_doc_set l k v : pres (λ s, flags s = l) (doc_set k v).
Proof. by intros s a s' Hs ->%doc_set_Some. Qed.

Lemma flags_modify l f :
  (∀ s, flags (f s) = flags s) → pres (λ s, flags s = l) (modify f).
Proof. intros Hf. apply pres_modify. intros s. by rewrite Hf. Qed.

Ltac flags_special :=
  idtac;
  lazymatch goal with
  | |- pres _ (doc_set _ _) => apply flags_doc_set
  | |- pres _ (modify _) =>
      apply flags_modify; intros ?; repeat case_match; reflexivity
  end.

Ltac flags_stay :=
  repeat (apply leads_stay; [solve [pres_go flags_special]|intros ?]).

Ltac flags_close :=
  let s := fresh "s" in let Hs := fresh "Hs" in let Hrun := fresh "Hrun" in
  intros s ? ? Hs Hrun; minv; flags_of Hs; split_and?; flags_done.

Lemma end_atbat_flags :
  leads (λ s, flags s = pitching ∨ flags s = batting)
    (λ s, flags s = batting) _end_atbat.
Proof.
  intros s a s' Hf Hrun. unfold _end_atbat, prefix in Hrun. minv.
  destruct Hf as [Hf|Hf]; flags_of Hf; flags_done.
Qed.

Lemma end_half_inning_flags fb :
  leads (λ s, flags s = pitching ∨ flags s = batting)
    (λ s, count_true (flags s) = 1%nat
          ∧ expects_pitch s = false ∧ expects_batter_up s = false)
    (_end_half_inning fb).
Proof.
  unfold _end_half_inning.
  apply (leads_seq _ (λ s, flags s = batting)); [apply end_atbat_flags|].
  intros _. flags_stay.
  apply (leads_seq _
           (λ s, flags s = [false; false; false; false; false; false; false]));
    [flags_close|].
  intros _. flags_stay.
  match goal with |- leads _ _ (if ?b then _ else _) => destruct b end.
  - unfold _end_game. flags_stay. flags_close.
  - flags_stay.
    match goal with |- leads _ _ (if ?b then _ else _) => destruct b end;
      flags_close.
Qed.

Lemma leads_end_half_inning fb :
  leads at_bat_counting out_bound (_end_half_inning fb).
Proof.
  intros s a s' (h & oa & oh & top & (H1 & H2 & H3 & H4) & Hoa & Hoh & Hf) Hrun.
  destruct (end_half_inning_flags fb _ _ _ Hf Hrun) as (Hc & Hp & Hb).
  exists 0, oa, oh, top. split_and!; try done.
  - split_and!.
    + by eapply end_half_inning_outs.
    + eapply (end_half_inning_keeps fb "awayOuts"); [|done..].
      rewrite !elem_of_cons. tauto.
    + eapply (end_half_inning_keeps fb "homeOuts"); [|done..].
      rewrite !elem_of_cons. tauto.
    + eapply (end_half_inning_keeps fb "topOfInning"); [|done..].
      rewrite !elem_of_cons. tauto.
  - by destruct top.
Qed.

(** *** An out *)

Lemma leads_update_out_count fb :
  leads at_bat out_bound (_update_out_count fb).
Proof.
  intros s p s'
    (h & oa & oh & top & (H1 & H2 & H3 & H4) & Hoa & Hoh & Hlt & Hf) Hrun.
  unfold _update_out_count, doc_add, prefix in Hrun. minv.
  all: doc_norm; doc_simpl_all; same_lookup.
  all: rewrite py_add_int in *; simplify_eq.
  all: destruct top; simpl in *; side_keys; doc_simpl_all; same_lookup.
  all: rewrite py_le_int in *; simplify_eq.
  all: repeat match goal with
              | H : bool_decide _ = true |- _ => apply bool_decide_eq_true in H
              | H : bool_decide _ = false |- _ =>
                  apply bool_decide_eq_false in H
              end.
  all: first
    [ eapply leads_end_half_inning; [|eassumption];
      eexists (h + 1), oa, oh, _; unfold outs_typed; st_norm; doc_simpl;
      split_and!; done
    | eapply at_bat_out_bound, at_bat_end_atbat; [|eassumption];
      eexists (h + 1), oa, oh, _; unfold outs_typed; st_norm; doc_simpl;
      split_and!; first [done | simpl; lia]
    | eapply at_bat_out_bound;
      eexists (h + 1), oa, oh, _; unfold outs_typed; st_norm; doc_simpl;
      split_and!; first [done | simpl; lia] ].
Qed.

(** ** The handlers *)

Ltac core_special HI more :=
  idtac;
  first
    [ more
    | lazymatch goal with
      | |- pres _ (doc_set _ _) => apply (pres_core_doc_set _ _ _ HI); fresh_tac
      | |- pres _ (modify _) =>
          apply (pres_core_modify _ _ HI); intros ?; repeat case_match;
          reflexivity
      end ].

Ltac out_bound_special := core_special out_bound_reads_core no_more.

Ltac at_bat_more :=
  idtac;
  lazymatch goal with
  | |- pres _ (doc_sub "halfInningOuts" _) => apply at_bat_free_refill
  | |- pres _ _end_atbat => apply at_bat_end_atbat
  | |- pres _ (bind (doc_add "halfInningOuts" _) _) => apply at_bat_double_play
  | |- pres _ (bind (modify (set_expects_batter_up false)) _) =>
      apply at_bat_pitch_next
  end.
Ltac at_bat_special := core_special at_bat_reads_core at_bat_more.

Lemma leads_update_out g fb : leads at_bat out_bound (_update_out g fb).
Proof.
  unfold _update_out. apply leads_switch; [apply leads_update_out_count|].
  intros p. pres_go out_bound_special.
Qed.

(** From the at-bat to the bound: the steps before an out keep the at-bat,
    those after it keep the bound. *)
Ltac leads_step :=
  lazymatch goal with
  | |- leads _ _ (_update_out _ _) => apply leads_update_out
  | |- leads _ _ fail => apply leads_fail
  | |- leads _ _ (bind (_update_out _ _) _) =>
      apply leads_switch;
      [apply leads_update_out | intros ?; solve [pres_go out_bound_special]]
  | |- leads _ _ (bind _ _) =>
      first
        [ apply leads_stay; [solve [pres_go at_bat_special] | intros ?]
        | apply leads_switch;
          [ | intros ?; solve [pres_go out_bound_special]] ]
  | |- leads _ _ (let _ := _ in _) => lazy zeta
  | |- leads _ _ (match ?x with _ => _ end) => destruct x
  | |- leads _ _ ?m =>
      first
        [ apply leads_weaken;
          [solve [pres_go at_bat_special] | apply at_bat_out_bound]
        | let h := head_of m in progress unfold h ]
  end.
Ltac leads_go := repeat leads_step.

Ltac pitch_handler :=
  lazymatch goal with
  | |- pres _ ?m => let h := head_of m in unfold h
  end;
  apply enter_pitch; leads_go.

Lemma out_bound_lets_go ev g : pres out_bound (update_lets_go ev g).
Proof.
  intros s a s' (h & oa & oh & top & (H1 & H2 & H3 & H4) & Hoa & Hoh & Hlt
                 & Hc & Hq) Hrun.
  unfold update_lets_go in Hrun.
  apply M_bind_Some in Hrun as ([] & ? & [Hflag ->]%assert_flag_Some & Hrun).
  the_flag 0%nat Hc Hflag. minv.
  exists h, oa, oh, top. unfold outs_typed. st_norm. doc_simpl.
  split_and!; try done. flags_done.
Qed.

Lemma out_bound_play_ball ev g : pres out_bound (update_play_ball ev g).
Proof.
  intros s a s' (h & oa & oh & top & (H1 & H2 & H3 & H4) & Hoa & Hoh & Hlt
                 & Hc & Hq) Hrun.
  unfold update_play_ball in Hrun.
  apply M_bind_Some in Hrun as ([] & ? & [Hflag ->]%assert_flag_Some & Hrun).
  the_flag 1%nat Hc Hflag. unfold doc_add in Hrun. minv.
  specialize (Hq ltac:(done) ltac:(done)).
  exists h, oa, oh, false. unfold outs_typed. st_norm. doc_simpl.
  split_and!; try done; [simpl; lia|flags_done].
Qed.

Lemma out_bound_inning_end E ev g : pres out_bound (update_inning_end E ev g).
Proof.
  intros s a s' (h & oa & oh & top & (H1 & H2 & H3 & H4) & Hoa & Hoh & Hlt
                 & Hc & Hq) Hrun.
  unfold update_inning_end in Hrun.
  apply M_bind_Some in Hrun as ([] & ? & [Hflag ->]%assert_flag_Some & Hrun).
  the_flag 5%nat Hc Hflag. minv.
  exists h, oa, oh, top. unfold outs_typed. st_norm. doc_simpl.
  split_and!; try done. flags_done.
Qed.

Lemma out_bound_half_inning_start E ev g :
  pres out_bound (update_half_inning_start E ev g).
Proof.
  intros s a s' (h & oa & oh & top & (H1 & H2 & H3 & H4) & Hoa & Hoh & Hlt
                 & Hc & Hq) Hrun.
  unfold update_half_inning_start in Hrun.
  apply M_bind_Some in Hrun as ([] & ? & [Hflag ->]%assert_flag_Some & Hrun).
  the_flag 2%nat Hc Hflag. unfold doc_add, prefix in Hrun.
  specialize (Hq ltac:(done) ltac:(done)).
  minv.
  all: doc_norm; doc_simpl_all; same_lookup.
  all: exists h, oa, oh, (negb (truthy (VBool top))); unfold outs_typed;
       st_norm; doc_simpl.
  all: split_and!; try done; [destruct top; simpl; lia|flags_done].
Qed.

Lemma out_bound_handlers E code f ev g :
  update_type E code = Some f → pres out_bound (f ev g).
Proof.
  revert code f.
  apply (update_type_elim E (λ f, pres out_bound (f ev g))).
  - apply out_bound_lets_go.
  - apply out_bound_play_ball.
  - apply out_bound_half_inning_start.
  - pitch_handler.
  - pitch_handler.
  - pitch_handler.
  - unfold update_flyout. apply pres_bind; [|intros ?; apply pres_ret].
    pitch_handler.
  - unfold update_ground_out. apply pres_bind; [|intros ?; apply pres_ret].
    pitch_handler.
  - pitch_handler.
  - pitch_handler.
  - pres_go out_bound_special.
  - unfold update_batter_up. apply enter_batter_up.
    apply leads_weaken; [pres_go at_bat_special|apply at_bat_out_bound].
  - pitch_handler.
  - pitch_handler.
  - pitch_handler.
  - pitch_handler.
  - pitch_handler.
  - apply out_bound_inning_end.
  - pitch_handler.
  - pitch_handler.
  - pitch_handler.
  - pres_go out_bound_special.
Qed.

Lemma out_bound_update E ev g : pres out_bound (update E ev g).
Proof.
  unfold update.
  apply pres_bind; [pres_go out_bound_special|]. intros _.
  apply pres_bind_liftO. intros f Hf.
  apply pres_bind; [by eapply out_bound_handlers|].
  intros r. pres_go out_bound_special.
Qed.

(** * Outs are not negative unless a free refill is used *)

Lemma outs_nonneg_depends : depends_on ["halfInningOuts"] outs_nonneg.
Proof.
  intros d d' H (h & Hh & Hpos). exists h. rewrite H; [done|]. by left.
Qed.

Lemma nonneg_count_out :
  pres (λ s, outs_nonneg (game_update s)) (doc_add "halfInningOuts" (VInt 1)).
Proof.
  intros s a s' (h & Hh & Hpos) Hrun. unfold doc_add in Hrun. minv.
  same_lookup. rewrite py_add_int in *. simplify_eq.
  exists (h + 1). st_norm. doc_simpl. split; [done|lia].
Qed.

Lemma nonneg_reset :
  pres (λ s, outs_nonneg (game_update s)) (doc_set "halfInningOuts" (VInt 0)).
Proof.
  intros s a s' _ ->%doc_set_Some. exists 0. st_norm. by doc_simpl.
Qed.

(** ** Parse trees without a free refill *)

Lemma mentions_children tag t cs :
  mentions tag t = false → tree_children t = Some cs →
  Forall (λ c, mentions tag c = false) cs.
Proof.
  destruct t as [|d l]; [done|]. simpl. intros H [= <-].
  apply orb_false_iff in H as [_ H].
  induction l as [|c l IH]; [done|].
  apply orb_false_iff in H as [H1 H2]. constructor; auto.
Qed.

Lemma mentions_data tag t d :
  mentions tag t = false → tree_data t = Some d → String.eqb d tag = false.
Proof.
  destruct t as [|d' l]; [done|]. simpl. intros H [= <-].
  by apply orb_false_iff in H as [H _].
Qed.

(** Without a free refill among the extras there are no extras. *)
Lemma apply_extras_no_refill I l :
  Forall (λ c, mentions "use_free_refill" c = false) l →
  pres I (_apply_scoring_extras l).
Proof.
  intros Hl. destruct l as [|t l]; [apply pres_ret|].
  apply Forall_cons in Hl as [Ht _].
  intros s a s' _ Hrun. unfold _apply_scoring_extras in Hrun.
  cbn [forM_] in Hrun. unfold data in Hrun.
  apply M_bind_Some in Hrun as (? & ? & Hrun & _).
  apply M_bind_Some in Hrun as (d & ? & [Hd ->]%liftO_Some & Hrun).
  apply M_bind_Some in Hrun as (? & ? & [Ha ->]%assert_Some & _).
  by rewrite (mentions_data _ _ _ Ht Hd) in Ha.
Qed.

Lemma Forall_removelast {A} (P : A → Prop) l :
  Forall P l → Forall P (removelast l).
Proof.
  induction 1 as [|x l Hx Hl IH]; [done|]. simpl.
  destruct l; [done|]. by constructor.
Qed.

Lemma split_ends_Forall {A} (P : A → Prop) l x m z :
  Forall P l → split_ends l = Some (x, m, z) → Forall P m.
Proof.
  intros Hl. unfold split_ends. destruct Hl as [|y l Hy Hl]; [done|].
  destruct (last l); [|done]. intros [= <- <- <-].
  by apply Forall_removelast.
Qed.

(** ** Handlers, with the values they pass on *)

Lemma pres_bind_ret_l {A B} I (a : A) (k : A → M B) :
  pres I (k a) → pres I (bind (ret a) k).
Proof. intros Hk s b s' Hs H. by eapply Hk. Qed.

Lemma pres_bind_assoc {A B C} I (m : M A) (f : A → M B) (k : B → M C) :
  pres I (bind m (λ a, bind (f a) k)) → pres I (bind (bind m f) k).
Proof. intros Hk s b s' Hs H. rewrite bind_assoc in H. by eapply Hk. Qed.

Lemma pres_bind_fail {A B} I (k : A → M B) : pres I (bind fail k).
Proof. by intros s b s' Hs H. Qed.

Lemma no_refill_parse E ev p t :
  no_refill E ev = true →
  p ∈ [Parsers_batter_up E; Parsers_steal E; Parsers_walk E;
       Parsers_strikeout E; Parsers_fielding_out E; Parsers_hit E;
       Parsers_home_run E; Parsers_mild_pitch E; Parsers_blooddrain E] →
  p (description ev) = Some t →
  mentions "use_free_refill" t = false.
Proof.
  unfold no_refill. intros H Hp Ht.
  apply Is_true_true_2, forallb_True in H.
  apply (proj1 (Forall_forall _ _)) with (x := p) in H; [|done].
  rewrite Ht in H. by apply Is_true_true_1, negb_true_iff in H.
Qed.

(** What is known of the lists of extras in the context. *)
Ltac nm_sat :=
  repeat match goal with
         | Hnr : no_refill _ ?ev = true,
           H : ?p (description ?ev) = Some ?t |- _ =>
             assert (mentions "use_free_refill" t = false)
               by (apply (no_refill_parse _ _ p t Hnr);
                   [repeat constructor | exact H]);
             clear H
         | Hm : mentions _ ?t = false, H : tree_children ?t = Some _ |- _ =>
             pose proof (mentions_children _ _ _ Hm H); clear H
         | H : Forall _ (_ :: _) |- _ =>
             let H1 := fresh "H" in let H2 := fresh "H" in
             apply Forall_cons in H as [H1 H2]; cbv beta in H1
         | HF : Forall _ ?l, H : split_ends ?l = Some _ |- _ =>
             pose proof (split_ends_Forall _ _ _ _ _ HF H); clear H
         | H : _ ∈ _ :: _ |- _ => apply elem_of_cons in H as [->|H]
         | HF : Forall _ ?l, H : ?x ∈ ?l |- _ =>
             let Hx := fresh "H" in
             pose proof (proj1 (Forall_forall _ _) HF _ H) as Hx;
             cbv beta in Hx; clear H
         end.
Ltac nm_solve :=
  nm_sat; repeat (apply List.Forall_cons; [assumption|]);
  first [assumption | apply Forall_nil_2].

Ltac flow_step special :=
  first
    [ special
    | apply pres_ret
    | apply pres_fail
    | lazymatch goal with
      | |- pres _ (bind (ret _) _) => apply pres_bind_ret_l; lazy beta iota
      | |- pres _ (bind (bind _ _) _) => apply pres_bind_assoc
      | |- pres _ (bind fail _) => apply pres_bind_fail
      | |- pres _ (bind (let _ := _ in _) _) => lazy zeta
      | |- pres _ (bind (match ?x with _ => _ end) _) =>
          first [is_var x; destruct x | destruct x eqn:?]
      | |- pres _ (bind (liftO _) _) => apply pres_bind_liftO; intros ? ?
      | |- pres _ (bind (parse _ _) _) => unfold parse
      | |- pres _ (bind (children _) _) => unfold children
      | |- pres _ (bind (data _) _) => unfold data
      | |- pres _ (bind _ _) => apply pres_bind; [|intros ?]
      | |- pres _ (let _ := _ in _) => lazy zeta
      | |- pres _ (match ?x with _ => _ end) =>
          first [is_var x; destruct x | destruct x eqn:?]
      | |- pres _ (forM_ _ _) => apply pres_forM; intros ? ?
      | |- pres _ (foldM _ _ _) => apply pres_foldM; intros ? ? ?
      | |- pres _ ?m =>
          first
            [ apply pres_readonly; first
                [ apply readonly_liftO | apply readonly_gets
                | apply readonly_assert | apply readonly_doc_get ]
            | let h := head_of m in progress unfold h ]
      end ].
Ltac flow_go special := repeat (flow_step special).

Ltac nonneg_more :=
  idtac;
  lazymatch goal with
  | |- pres _ (doc_add "halfInningOuts" (VInt 1)) => apply nonneg_count_out
  | |- pres _ (doc_set "halfInningOuts" (VInt 0)) => apply nonneg_reset
  | |- pres _ (_apply_scoring_extras _) =>
      apply apply_extras_no_refill; nm_solve
  end.
Ltac nonneg_special := doc_special outs_nonneg_depends nonneg_more.

Lemma nonneg_handlers E code f ev g :
  no_refill E ev = true → update_type E code = Some f →
  pres (λ s, outs_nonneg (game_update s)) (f ev g).
Proof.
  intros Hnr. revert code f.
  apply (update_type_elim E
           (λ f, pres (λ s, outs_nonneg (game_update s)) (f ev g)));
    flow_go nonneg_special.
Qed.

Lemma nonneg_update E ev g :
  no_refill E ev = true →
  pres (λ s, outs_nonneg (game_update s)) (update E ev g).
Proof.
  intros Hnr. unfold update.
  apply pres_bind; [pres_go nonneg_special|]. intros _.
  apply pres_bind_liftO. intros f Hf.
  apply pres_bind; [by eapply nonneg_handlers|].
  intros r. pres_go nonneg_special.
Qed.

(** * The emitted document *)

(** The dispatch table, with the codes. *)
Lemma update_type_cases E
  (Q : Z → (FeedEvent → option (gmap string value)
            → M (option (gmap string value))) → Prop) :
  Q 0 update_lets_go → Q 1 update_play_ball →
  Q 2 (update_half_inning_start E) →
  Q 4 (update_base_steal E) → Q 5 (update_walk E) →
  Q 6 (update_strikeout E) →
  Q 7 (update_flyout E) → Q 8 (update_ground_out E) →
  Q 9 (update_home_run E) →
  Q 10 (update_hit E) → Q 11 (update_game_score E) →
  Q 12 (update_batter_up E) →
  Q 13 (update_strike E) → Q 14 (update_ball E) → Q 15 (update_foul_ball E) →
  Q 25 update_strike_zapped → Q 27 (update_mild_pitch E) →
  Q 28 (update_inning_end E) → Q 39 (update_coffee_bean E) →
  Q 52 (update_blooddrain E) → Q 73 update_no_state_change_pitch →
  Q 92 update_no_state_change_batter_up →
  ∀ code f, update_type E code = Some f → Q code f.
Proof.
  intros. unfold update_type in *.
  repeat case_match; simplify_eq; assumption.
Qed.

Lemma handlers_return_none E code f ev g :
  update_type E code = Some f → code ≠ 1 →
  returns (λ r, r = None) (f ev g).
Proof.
  revert code f.
  apply (update_type_cases E
           (λ code f, code ≠ 1 → returns (λ r, r = None) (f ev g))).
  2: { intros H. exfalso. by apply H. }
  all: intros _; returns_go.
Qed.

(** But for [play_ball], the document [update] returns is the running
    document as the event leaves it. *)
Lemma update_emitted E ev g s d s' :
  type ev ≠ 1 → update E ev g s = Some (d, s') → d = game_update s'.
Proof.
  intros Ht H. unfold update in H.
  apply M_bind_Some in H as ([] & s1 & _ & H).
  apply M_bind_Some in H as (f & s2 & [Hf ->]%liftO_Some & H).
  apply M_bind_Some in H as (r & s3 & H3 & H).
  pose proof (handlers_return_none _ _ _ ev g Hf Ht _ _ _ H3) as ->.
  unfold doc_add in H. by minv.
Qed.

(** For [play_ball] it is the running document with the pitchers and the
    home batter count blanked. *)
Lemma update_emitted_play_ball E ev g s d s' :
  type ev = 1 → update E ev g s = Some (d, s') →
  d = play_ball_blanks (game_update s').
Proof.
  intros Ht H. unfold update in H. rewrite Ht in H. cbn [update_type] in H.
  apply M_bind_Some in H as ([] & s1 & _ & H).
  apply M_bind_Some in H as (f & s2 & [[= <-] ->]%liftO_Some & H).
  unfold update_play_ball, doc_add in H. by minv.
Qed.

Lemma update_emitted_outs E ev g s d s' k :
  update E ev g s = Some (d, s') → k ∈ outs_keys →
  d !! k = game_update s' !! k.
Proof.
  intros H Hk. destruct (decide (type ev = 1)) as [Ht|Ht].
  - rewrite (update_emitted_play_ball _ _ _ _ _ _ Ht H).
    unfold outs_keys in Hk. rewrite !elem_of_cons, elem_of_nil in Hk.
    unfold play_ball_blanks.
    destruct Hk as [->|[->|[->|[->|[]]]]]; by doc_simpl.
  - by rewrite (update_emitted _ _ _ _ _ _ Ht H).
Qed.

(** * The outs of a half-inning *)

(** C3, amended.  In a state in which one expectation flag is set, the out
    counters are integers, [awayOuts] and [homeOuts] are positive,
    [halfInningOuts] is below the [teamOuts] of the side at bat and, outside
    the at-bats, not positive, every event the machine accepts leads to such
    a state again: after every transition [halfInningOuts < teamOuts] (the
    transition that reaches [teamOuts] ends the half-inning and resets the
    count), and the document the driver returns carries the same counters.
    The count stays non-negative across an event in whose description no
    parser finds a free refill; a free refill takes one off without a check
    and can make it negative. *)
Theorem half_inning_outs_bound E ev g s d s' :
  out_bound s →
  update E ev g s = Some (d, s') →
  out_bound s'
  ∧ (∀ k, k ∈ outs_keys → d !! k = game_update s' !! k)
  ∧ (no_refill E ev = true → outs_nonneg (game_update s) →
     outs_nonneg (game_update s')).
Proof.
  intros Hs H. split_and!.
  - by eapply out_bound_update.
  - intros k Hk. by eapply update_emitted_outs.
  - intros Hnr Hpos. by eapply nonneg_update.
Qed.

(** Ann Apple's single in the first at-bat of the game. *)
Lemma half_inning_outs_bound_witness :
  let s := state_after demo_env demo_opening in
  let e := demo_event 10 "Ann Apple hits a Single!" in
  out_bound s
  ∧ out_bound (next demo_env e None s)
  ∧ outs_nonneg (game_update (next demo_env e None s)).
Proof.
  intros s e.
  assert (Hs : out_bound s).
  { exists 0, 3, 3, true. unfold outs_typed.
    split; [split; [vm_compute; reflexivity|];
            split; [vm_compute; reflexivity|];
            split; vm_compute; reflexivity|].
    split; [reflexivity|]. split; [reflexivity|]. split; [reflexivity|].
    split; [vm_compute; reflexivity|]. intros _ _. exact (Z.le_refl 0). }
  destruct (half_inning_outs_bound demo_env e None s
              (emitted demo_env e None s) (next demo_env e None s) Hs)
    as (H1 & H2 & H3).
  { apply next_emitted. vm_compute; reflexivity. }
  split; [exact Hs|]. split; [exact H1|].
  apply H3; [vm_compute; reflexivity|].
  exists 0. split; [vm_compute; reflexivity|exact (Z.le_refl 0)].
Defined.

(** * Players, teams and the construction *)

(** X1.  [advance_batter] steps to the next batter of the lineup and wraps
    to the first after the last; it changes nothing else of the team. *)
Theorem advance_batter_wraps t :
  lineup t ≠ [] →
  -1 ≤ batter_index t < Z.of_nat (length (lineup t)) →
  batter_index (advance_batter t)
  = (batter_index t + 1) mod Z.of_nat (length (lineup t))
  ∧ 0 ≤ batter_index (advance_batter t) < Z.of_nat (length (lineup t))
  ∧ lineup (advance_batter t) = lineup t
  ∧ pitcher (advance_batter t) = pitcher t
  ∧ nickname (advance_batter t) = nickname t.
Proof.
  intros Hne Hi. unfold advance_batter. cbn [batter_index set_batter_index
    lineup pitcher nickname].
  assert (0 < Z.of_nat (length (lineup t))).
  { destruct (lineup t); [done|]. simpl. lia. }
  destruct (Z.leb_spec (Z.of_nat (length (lineup t))) (batter_index t + 1)).
  - assert (batter_index t + 1 = Z.of_nat (length (lineup t))) as -> by lia.
    rewrite Z_mod_same_full. split_and!; try done; lia.
  - rewrite Z.mod_small by lia. split_and!; try done; lia.
Qed.

Lemma advance_batter_wraps_witness :
  batter_index (advance_batter demo_team) = 0
  ∧ lineup (advance_batter demo_team) = lineup demo_team.
Proof.
  destruct (advance_batter_wraps demo_team) as (H1 & _ & H2 & _).
  - discriminate.
  - split; [discriminate|reflexivity].
  - split; [exact H1|exact H2].
Defined.

(** X2.  [show_mod_from_list] shows the first mod of the priority list the
    player has, and the empty string if the player has none of them. *)
Theorem show_mod_first_in_order l p :
  show_mod_from_list l p = default "" (head (filter (λ m, m ∈ mods p) l)).
Proof.
  induction l as [|m l IH]; [done|]. simpl. rewrite filter_cons.
  case_bool_decide; by case_decide.
Qed.

(** X3.  [first_truthy] returns the value of the first update in which the
    key holds a truthy value; if the key is falsy in all of them it returns
    [None]. *)
Theorem first_truthy_finds us k v :
  first_truthy us k = Some v →
  (v = VNone
   ∧ ∀ u, u ∈ us → ∃ w, data_of u !! k = Some w ∧ truthy w = false)
  ∨ (truthy v = true
     ∧ ∃ i u, us !! i = Some u ∧ data_of u !! k = Some v
       ∧ ∀ j u', (j < i)%nat → us !! j = Some u' →
           ∃ w, data_of u' !! k = Some w ∧ truthy w = false).
Proof.
  induction us as [|u us IH]; simpl.
  - intros [= <-]. left. split; [done|]. by intros u Hu%elem_of_nil.
  - destruct (data_of u !! k) as [w|] eqn:Hw; [|done].
    destruct (truthy w) eqn:Ht.
    + intros [= <-]. right. split; [done|]. exists 0%nat, u.
      split_and!; try done. intros j u' Hj. lia.
    + intros [(-> & Hall)|(Hv & i & u' & Hi & Hk & Hbefore)]%IH.
      * left. split; [done|]. intros u' [->|Hu']%elem_of_cons; eauto.
      * right. split; [done|]. exists (S i), u'. split_and!; try done.
        intros [|j] u'' Hj; simpl.
        -- intros [= <-]. eauto.
        -- apply Hbefore. lia.
Qed.

Lemma first_truthy_finds_witness :
  first_truthy demo_updates "awayOuts" = Some (VInt 3)
  ∧ ((VInt 3 = VNone
      ∧ ∀ u, u ∈ demo_updates →
          ∃ w, data_of u !! "awayOuts" = Some w ∧ truthy w = false)
     ∨ (truthy (VInt 3) = true
        ∧ ∃ i u, demo_updates !! i = Some u
          ∧ data_of u !! "awayOuts" = Some (VInt 3)
          ∧ ∀ j u', (j < i)%nat → demo_updates !! j = Some u' →
              ∃ w, data_of u' !! "awayOuts" = Some w ∧ truthy w = false)).
Proof.
  split; [vm_compute; reflexivity|].
  apply (first_truthy_finds demo_updates "awayOuts" (VInt 3)).
  vm_compute; reflexivity.
Defined.

Lemma TeamState_init_index E us ts p t :
  TeamState_init E us ts p = Some t → batter_index t = -1.
Proof.
  unfold TeamState_init. intros H.
  repeat match type of H with
         | (_ ≫= _) = Some _ => apply bind_Some in H as (? & _ & H)
         end.
  repeat case_match; try done. by injection H as <-.
Qed.

(** X4.  The machine [GameState.__init__] builds expects ["Let's Go!"] and
    nothing else, no side reverberates, nobody haunts, no batter of either
    team has been up, and the document starts at play 0 in the top of
    inning 0 with no outs and empty bases. *)
Theorem init_state E us s :
  GameState_init E us = Some s →
  flags s = [true; false; false; false; false; false; false]
  ∧ expects_reverberate s
    = <["home" := VBool false]> (<["away" := VBool false]> ∅)
  ∧ haunter s = None
  ∧ batter_index (away s) = -1 ∧ batter_index (home s) = -1
  ∧ game_update s !! "playCount" = Some (VInt 0)
  ∧ game_update s !! "inning" = Some (VInt 0)
  ∧ game_update s !! "topOfInning" = Some (VBool true)
  ∧ game_update s !! "halfInningOuts" = Some (VInt 0)
  ∧ game_update s !! "baserunnerCount" = Some (VInt 0)
  ∧ game_update s !! "baseRunners" = Some (VList [])
  ∧ game_update s !! "lastUpdate" = Some (VStr "").
Proof.
  unfold GameState_init. intros H.
  apply bind_Some in H as (tu & _ & H).
  apply bind_Some in H as (a & Ha%TeamState_init_index & H).
  apply bind_Some in H as (h & Hh%TeamState_init_index & H).
  repeat match type of H with
         | (_ ≫= _) = Some _ => apply bind_Some in H as (? & _ & H)
         end.
  apply (inj Some) in H. subst s.
  cbn [flags expects_lets_go expects_play_ball expects_half_inning_start
       expects_batter_up expects_pitch expects_inning_end expects_game_end
       expects_reverberate haunter away home game_update].
  split_and!; try done; vm_compute; reflexivity.
Qed.

Lemma init_state_witness :
  flags (state_after demo_env [])
  = [true; false; false; false; false; false; false]
  ∧ game_update (state_after demo_env []) !! "playCount" = Some (VInt 0).
Proof.
  destruct (init_state demo_env demo_updates (state_after demo_env []))
    as (H1 & _ & _ & _ & _ & H2 & _).
  - vm_compute; reflexivity.
  - split; [exact H1|exact H2].
Defined.

(** * The driver *)

(** X5.  Every event [update] accepts, whatever its type, adds exactly one
    to [playCount], and the document [update] returns carries the new
    count. *)
Theorem every_event_advances_playCount E ev g s d s' n :
  game_update s !! "playCount" = Some (VInt n) →
  update E ev g s = Some (d, s') →
  game_update s' !! "playCount" = Some (VInt (n + 1))
  ∧ d !! "playCount" = Some (VInt (n + 1)).
Proof.
  intros Hn H.
  destruct (update_playCount E _ _ _ _ _ _ Hn H) as (v' & Hv & ? & ?).
  rewrite py_add_int in Hv. by injection Hv as <-.
Qed.

Lemma every_event_advances_playCount_witness :
  let s := state_after demo_env demo_opening in
  let e := demo_event 10 "Ann Apple hits a Single!" in
  game_update s !! "playCount" = Some (VInt 4)
  ∧ game_update (next demo_env e None s) !! "playCount" = Some (VInt 5)
  ∧ emitted demo_env e None s !! "playCount" = Some (VInt 5).
Proof.
  intros s e. split; [vm_compute; reflexivity|].
  apply (every_event_advances_playCount demo_env e None s _ _ 4).
  - vm_compute; reflexivity.
  - apply next_emitted. vm_compute; reflexivity.
Defined.

(** X6.  For every event type but [play_ball] the document [update] returns
    is the running document as the event leaves it. *)
Theorem update_returns_running_document E ev g s d s' :
  type ev ≠ 1 → update E ev g s = Some (d, s') → d = game_update s'.
Proof. apply update_emitted. Qed.

Lemma update_returns_running_document_witness :
  let s := state_after demo_env demo_opening in
  let e := demo_event 10 "Ann Apple hits a Single!" in
  emitted demo_env e None s = game_update (next demo_env e None s).
Proof.
  intros s e.
  apply (update_returns_running_document demo_env e None s).
  - discriminate.
  - apply next_emitted. vm_compute; reflexivity.
Defined.

(** X7.  For [play_ball] the document [update] returns is the running
    document with the two pitchers and the home batter count blanked, while
    the running document keeps the pitchers it held. *)
Theorem play_ball_returns_blanked_document E ev g s d s' :
  type ev = 1 → update E ev g s = Some (d, s') →
  d = play_ball_blanks (game_update s')
  ∧ ∀ k, k ∈ ["awayPitcher"; "awayPitcherName"; "awayPitcherMod";
              "homePitcher"; "homePitcherName"; "homePitcherMod";
              "awayTeamBatterCount"; "homeTeamBatterCount"] →
         game_update s' !! k = game_update s !! k.
Proof.
  intros Ht H. split; [by eapply update_emitted_play_ball|].
  unfold update in H. rewrite Ht in H. cbn [update_type] in H.
  apply M_bind_Some in H as ([] & s1 & ->%doc_set_Some & H).
  apply M_bind_Some in H as (f & s2 & [[= <-] ->]%liftO_Some & H).
  unfold update_play_ball, doc_add, assert_flag in H. minv.
  intros k Hk. rewrite !elem_of_cons, elem_of_nil in Hk. st_norm.
  destruct Hk as [->|[->|[->|[->|[->|[->|[->|[->|[]]]]]]]]]; by doc_simpl.
Qed.

Lemma play_ball_returns_blanked_document_witness :
  let s := state_after demo_env [plain 0 "Let's Go!"] in
  let e := demo_event 1 "Play ball!" in
  game_update s !! "awayPitcher" = Some (VStr "q1")
  ∧ emitted demo_env e None s !! "awayPitcher" = Some VNone
  ∧ game_update (next demo_env e None s) !! "awayPitcher" = Some (VStr "q1").
Proof.
  intros s e.
  assert (Hs : game_update s !! "awayPitcher" = Some (VStr "q1"))
    by (vm_compute; reflexivity).
  destruct (play_ball_returns_blanked_document demo_env e None s
              (emitted demo_env e None s) (next demo_env e None s))
    as [H1 H2].
  - reflexivity.
  - apply next_emitted. vm_compute; reflexivity.
  - split; [exact Hs|]. split.
    + rewrite H1. reflexivity.
    + rewrite (H2 "awayPitcher"); [exact Hs|]. left.
Defined.

Ltac first_flag H :=
  repeat lazymatch type of H with
         | assert_flag _ _ = Some _ => fail
         | bind _ _ _ = Some _ =>
             let a := fresh in let s := fresh in
             apply M_bind_Some in H as (a & s & H & _)
         | ?m _ = Some _ => let h := head_of m in unfold h in H
         end;
  apply assert_flag_Some in H as [H _].

(** X8.  An event is accepted only if its type has a handler and the
    expectation flag of that handler is set. *)
Theorem accepted_event_expected E ev g s d s' :
  update E ev g s = Some (d, s') →
  ∃ fl, required_flag (type ev) = Some fl ∧ fl s = true.
Proof.
  intros H. unfold update in H.
  apply M_bind_Some in H as ([] & s1 & ->%doc_set_Some & H).
  apply M_bind_Some in H as (f & s2 & [Hf ->]%liftO_Some & H).
  apply M_bind_Some in H as (r & s3 & H & _).
  revert r s3 H. revert Hf. generalize (type ev). intros code Hf.
  revert code f Hf.
  apply (update_type_cases E
           (λ code f, ∀ r s3,
              f ev g (set_game_update
                        (<["scoreUpdate":=VStr ""]> (game_update s)) s)
              = Some (r, s3) →
              ∃ fl, required_flag code = Some fl ∧ fl s = true));
    intros r s3 H; (eexists; split; [reflexivity|]); first_flag H;
    exact H.
Qed.

Lemma accepted_event_expected_witness :
  let s := state_after demo_env demo_opening in
  let e := demo_event 10 "Ann Apple hits a Single!" in
  ∃ fl, required_flag 10 = Some fl ∧ fl s = true.
Proof.
  intros s e.
  apply (accepted_event_expected demo_env e None s
           (emitted demo_env e None s) (next demo_env e None s)).
  apply next_emitted. vm_compute; reflexivity.
Defined.

(** * One expectation at a time *)

Lemma pres_flags_doc_set I k v : reads_flags I → pres I (doc_set k v).
Proof. intros HI s a s' Hs ->%doc_set_Some. revert Hs. by apply HI. Qed.

Lemma pres_flags_modify I f :
  reads_flags I → (∀ s, flags (f s) = flags s) → pres I (modify f).
Proof.
  intros HI Hf. apply pres_modify. intros s. apply HI. by rewrite Hf.
Qed.

Lemma in_at_bat_reads_flags : reads_flags in_at_bat.
Proof. intros s s' H. unfold in_at_bat. by rewrite H. Qed.

Lemma one_expectation_reads_flags : reads_flags one_expectation.
Proof. intros s s' H. unfold one_expectation. by rewrite H. Qed.

Ltac flags_only HI more :=
  idtac;
  first
    [ more
    | lazymatch goal with
      | |- pres _ (doc_set _ _) => apply (pres_flags_doc_set _ _ _ HI)
      | |- pres _ (modify _) =>
          apply (pres_flags_modify _ _ HI); intros ?; repeat case_match;
          reflexivity
      end ].

Lemma in_at_bat_one s : in_at_bat s → one_expectation s.
Proof. unfold one_expectation. by intros [->| ->]. Qed.

Lemma in_at_bat_end_atbat : pres in_at_bat _end_atbat.
Proof.
  intros s a s' Hs H. right. by eapply end_atbat_flags.
Qed.

Lemma in_at_bat_pitch_next {A} (a : A) :
  pres in_at_bat
    (modify (set_expects_batter_up false) ;;
     modify (set_expects_pitch true) ;; ret a).
Proof.
  intros s ? s' Hf Hrun. minv. left.
  destruct Hf as [Hf|Hf]; flags_of Hf; flags_done.
Qed.

Ltac in_at_bat_more :=
  idtac;
  lazymatch goal with
  | |- pres _ _end_atbat => apply in_at_bat_end_atbat
  | |- pres _ (bind (modify (set_expects_batter_up false)) _) =>
      apply in_at_bat_pitch_next
  end.
Ltac in_at_bat_special := flags_only in_at_bat_reads_flags in_at_bat_more.
Ltac one_expectation_special :=
  flags_only one_expectation_reads_flags no_more.

Lemma leads_post {A} (I J J' : GameState → Prop) (m : M A) :
  leads I J m → (∀ s, J s → J' s) → leads I J' m.
Proof. intros Hm HJ s a s' Hs H. eapply HJ, Hm; done. Qed.

Lemma expectation_update_out g fb :
  leads in_at_bat one_expectation (_update_out g fb).
Proof.
  unfold _update_out.
  apply leads_switch; [|intros p; pres_go one_expectation_special].
  unfold _update_out_count.
  repeat (apply leads_stay; [solve [pres_go in_at_bat_special]|intros ?]).
  apply leads_switch; [|intros ?; apply pres_ret].
  repeat match goal with
         | |- leads _ _ (if ?b then _ else _) => destruct b
         end.
  - eapply leads_post; [apply end_half_inning_flags|]. by intros s (? & _).
  - apply leads_weaken; [apply in_at_bat_end_atbat|apply in_at_bat_one].
  - apply leads_weaken; [apply pres_ret|apply in_at_bat_one].
Qed.

Lemma enter_flag {A} fl i l (k : M A) :
  (∀ s, flags s !! i = Some (fl s)) →
  l = <[i:=true]> (replicate 7 false) →
  leads (λ s, flags s = l) one_expectation k →
  pres one_expectation (assert_flag fl ;; k).
Proof.
  intros Hfl -> Hk s a s' Hs H.
  apply M_bind_Some in H as ([] & ? & [Hflag ->]%assert_flag_Some & H).
  eapply Hk; [|done]. apply one_flag; [done| |done].
  by rewrite Hfl, Hflag.
Qed.

Lemma enter_in_at_bat {A} fl i (k : M A) :
  (∀ s, flags s !! i = Some (fl s)) →
  <[i:=true]> (replicate 7 false) = pitching
  ∨ <[i:=true]> (replicate 7 false) = batting →
  leads in_at_bat one_expectation k →
  pres one_expectation (assert_flag fl ;; k).
Proof.
  intros Hfl Hi Hk. eapply enter_flag; [done|done|].
  intros s a s' Hs. apply Hk. unfold in_at_bat. rewrite Hs.
  destruct Hi as [->| ->]; auto.
Qed.

(** From the at-bat to one expectation. *)
Ltac expect_step :=
  lazymatch goal with
  | |- leads _ _ (_update_out _ _) => apply expectation_update_out
  | |- leads _ _ fail => apply leads_fail
  | |- leads _ _ (bind (_update_out _ _) _) =>
      apply leads_switch;
      [ apply expectation_update_out
      | intros ?; solve [pres_go one_expectation_special] ]
  | |- leads _ _ (bind _ _) =>
      first
        [ apply leads_stay; [solve [pres_go in_at_bat_special] | intros ?]
        | apply leads_switch;
          [ | intros ?; solve [pres_go one_expectation_special]] ]
  | |- leads _ _ (let _ := _ in _) => lazy zeta
  | |- leads _ _ (match ?x with _ => _ end) => destruct x
  | |- leads _ _ ?m =>
      first
        [ apply leads_weaken;
          [solve [pres_go in_at_bat_special] | apply in_at_bat_one]
        | let h := head_of m in progress unfold h ]
  end.

(** A handler that moves the expectation from one flag to the next. *)
Ltac flags_move :=
  let s := fresh "s" in let Hs := fresh "Hs" in let Hrun := fresh "Hrun" in
  intros s ? ? Hs Hrun; minv; flags_of Hs; unfold flags; st_norm;
  repeat match goal with
         | F : ?x = true |- context [?x] => rewrite F
         | F : ?x = false |- context [?x] => rewrite F
         end;
  reflexivity.
Ltac flags_walk :=
  repeat first
    [ apply leads_stay; [solve [pres_go flags_special]|intros ?]
    | eapply (leads_seq _ (λ s, flags s = _)); [flags_move|intros ?] ];
  apply leads_weaken;
  [ solve [pres_go flags_special]
  | let s := fresh "s" in let Hs := fresh "Hs" in
    intros s Hs; unfold one_expectation; rewrite Hs; reflexivity ].

Ltac handler_head :=
  lazymatch goal with
  | |- pres _ ?m => let h := head_of m in unfold h
  end.

Lemma expectation_handlers E code f ev g :
  update_type E code = Some f → pres one_expectation (f ev g).
Proof.
  revert code f.
  apply (update_type_elim E (λ f, pres one_expectation (f ev g))).
  - handler_head.
    apply (enter_flag expects_lets_go 0
             [true; false; false; false; false; false; false]);
      [done|done|flags_walk].
  - handler_head.
    apply (enter_flag expects_play_ball 1
             [false; true; false; false; false; false; false]);
      [done|done|flags_walk].
  - handler_head.
    apply (enter_flag expects_half_inning_start 2
             [false; false; true; false; false; false; false]);
      [done|done|flags_walk].
  - handler_head. apply (enter_in_at_bat expects_pitch 4); [done|by left|].
    repeat expect_step.
  - handler_head. apply (enter_in_at_bat expects_pitch 4); [done|by left|].
    repeat expect_step.
  - handler_head. apply (enter_in_at_bat expects_pitch 4); [done|by left|].
    repeat expect_step.
  - unfold update_flyout. apply pres_bind; [|intros ?; apply pres_ret].
    handler_head. apply (enter_in_at_bat expects_pitch 4); [done|by left|].
    repeat expect_step.
  - unfold update_ground_out. apply pres_bind; [|intros ?; apply pres_ret].
    handler_head. apply (enter_in_at_bat expects_pitch 4); [done|by left|].
    repeat expect_step.
  - handler_head. apply (enter_in_at_bat expects_pitch 4); [done|by left|].
    repeat expect_step.
  - handler_head. apply (enter_in_at_bat expects_pitch 4); [done|by left|].
    repeat expect_step.
  - pres_go one_expectation_special.
  - handler_head.
    apply (enter_in_at_bat expects_batter_up 3); [done|by right|].
    apply leads_weaken; [pres_go in_at_bat_special|apply in_at_bat_one].
  - pres_go one_expectation_special.
  - pres_go one_expectation_special.
  - pres_go one_expectation_special.
  - pres_go one_expectation_special.
  - handler_head. apply (enter_in_at_bat expects_pitch 4); [done|by left|].
    repeat expect_step.
  - handler_head.
    apply (enter_flag expects_inning_end 5
             [false; false; false; false; false; true; false]);
      [done|done|flags_walk].
  - pres_go one_expectation_special.
  - pres_go one_expectation_special.
  - pres_go one_expectation_special.
  - pres_go one_expectation_special.
Qed.

Lemma expectation_update E ev g : pres one_expectation (update E ev g).
Proof.
  unfold update.
  apply pres_bind; [pres_go one_expectation_special|]. intros _.
  apply pres_bind_liftO. intros f Hf.
  apply pres_bind; [by eapply expectation_handlers|].
  intros r. pres_go one_expectation_special.
Qed.

Lemma GameState_init_flags E us s :
  GameState_init E us = Some s →
  flags s = [true; false; false; false; false; false; false].
Proof.
  unfold GameState_init. intros H.
  repeat match type of H with
         | (_ ≫= _) = Some _ => apply bind_Some in H as (? & _ & H)
         end.
  apply (inj Some) in H. by subst s.
Qed.

(** X9.  In every state the machine goes through, exactly one of the seven
    expectation flags is set. *)
Theorem one_expectation_flag E s : reachable E s → one_expectation s.
Proof.
  induction 1 as [updates s Hinit | s feed_event g d s' _ IH Hstep].
  - unfold one_expectation. by rewrite (GameState_init_flags _ _ _ Hinit).
  - by eapply expectation_update.
Qed.

Lemma one_expectation_flag_witness :
  expects_pitch (state_after demo_env demo_runner_on_second) = true
  ∧ one_expectation (state_after demo_env demo_runner_on_second).
Proof.
  split; [vm_compute; reflexivity|].
  apply (one_expectation_flag demo_env).
  apply state_after_reachable. vm_compute; reflexivity.
Defined.

(** * Pitches *)

(** Take the driver off an accepted event of a known type: [Hh] is the run
    of the handler, [H] what the driver does after it. *)
Ltac update_inv H Ht Hh :=
  unfold update in H; rewrite Ht in H; cbn [update_type] in H;
  apply M_bind_Some in H as ([] & ? & ->%doc_set_Some & H);
  apply M_bind_Some in H as (? & ? & [[= <-] ->]%liftO_Some & H);
  apply M_bind_Some in H as (? & ? & Hh & H).

Ltac decide_all :=
  repeat match goal with
         | H : bool_decide _ = true |- _ => apply bool_decide_eq_true in H
         | H : bool_decide _ = false |- _ => apply bool_decide_eq_false in H
         end.

Ltac ints :=
  repeat (progress
            (rewrite ?py_add_int, ?py_sub_int, ?py_lt_int, ?py_le_int,
               ?py_eq_int in *);
          simplify_eq).

(** X10.  A foul ball adds a strike only while that leaves the count below
    the strike limit of the side at bat: it never completes a strikeout. *)
Theorem foul_ball_strikes E ev g s d s' top (strikes limit : Z) :
  type ev = 15 →
  game_update s !! "topOfInning" = Some (VBool top) →
  game_update s !! "atBatStrikes" = Some (VInt strikes) →
  game_update s !! ((if top then "away" else "home") +:+ "Strikes")
  = Some (VInt limit) →
  update E ev g s = Some (d, s') →
  game_update s' !! "atBatStrikes"
  = Some (VInt (if bool_decide (strikes + 1 < limit) then strikes + 1
                else strikes))
  ∧ expects_pitch s' = true.
Proof.
  intros Ht Htop Hs Hl H. update_inv H Ht Hh.
  unfold update_foul_ball, assert_flag, prefix, doc_add, _update_count in *.
  cbn [_update_count_loop] in Hh. minv.
  all: doc_norm; doc_simpl_all; same_lookup.
  all: destruct top; simpl in *; side_keys; doc_simpl_all; same_lookup.
  all: ints; simplify_eq; st_norm; doc_simpl.
  all: split; [|done]; rewrite ?Hs;
       match goal with H : bool_decide _ = _ |- _ => by rewrite H end.
Qed.

Lemma foul_ball_strikes_witness :
  let s := state_after demo_env demo_opening in
  let e := demo_event 15 "Foul Ball. 0-1" in
  game_update (next demo_env e None s) !! "atBatStrikes" = Some (VInt 1)
  ∧ expects_pitch (next demo_env e None s) = true.
Proof.
  intros s e.
  apply (foul_ball_strikes demo_env e None s (emitted demo_env e None s)
           (next demo_env e None s) true 0 3).
  - reflexivity.
  - vm_compute; reflexivity.
  - vm_compute; reflexivity.
  - vm_compute; reflexivity.
  - apply next_emitted. vm_compute; reflexivity.
Defined.

(** X11.  The Electricity can zap a strike away only if there is one: the
    event is accepted with a positive strike count only, and takes one strike
    off. *)
Theorem strike_zapped_takes_strike E ev g s d s' (strikes : Z) :
  type ev = 25 →
  game_update s !! "atBatStrikes" = Some (VInt strikes) →
  update E ev g s = Some (d, s') →
  0 < strikes
  ∧ game_update s' !! "atBatStrikes" = Some (VInt (strikes - 1))
  ∧ game_update s' !! "lastUpdate"
    = Some (VStr "The Electricity zaps a strike away!").
Proof.
  intros Ht Hs H. update_inv H Ht Hh.
  unfold update_strike_zapped, assert_flag, doc_add, doc_sub in *. minv.
  doc_norm. doc_simpl_all. same_lookup. ints. decide_all.
  st_norm. doc_simpl. done.
Qed.

Lemma strike_zapped_takes_strike_witness :
  let s := state_after demo_env demo_one_strike in
  let e := demo_event 25 "The Electricity zaps a strike away!" in
  game_update s !! "atBatStrikes" = Some (VInt 1)
  ∧ game_update (next demo_env e None s) !! "atBatStrikes" = Some (VInt 0).
Proof.
  intros s e.
  assert (Hs : game_update s !! "atBatStrikes" = Some (VInt 1))
    by (vm_compute; reflexivity).
  destruct (strike_zapped_takes_strike demo_env e None s
              (emitted demo_env e None s) (next demo_env e None s) 1)
    as (_ & H & _).
  - reflexivity.
  - exact Hs.
  - apply next_emitted. vm_compute; reflexivity.
  - split; [exact Hs|exact H].
Defined.

(** X12.  A ball is accepted only if its description gives the count after
    the pitch; it adds one to [atBatBalls], whatever the count is, and copies
    the description to [lastUpdate]. *)
Theorem ball_counted E ev g s d s' (balls : Z) (strikes : value) :
  type ev = 14 →
  game_update s !! "atBatBalls" = Some (VInt balls) →
  game_update s !! "atBatStrikes" = Some strikes →
  update E ev g s = Some (d, s') →
  description ev
  = "Ball" +:+ ". " +:+ pretty (balls + 1) +:+ "-" +:+ py_str E strikes
  ∧ game_update s' !! "atBatBalls" = Some (VInt (balls + 1))
  ∧ game_update s' !! "atBatStrikes" = Some strikes
  ∧ game_update s' !! "lastUpdate" = Some (VStr (description ev)).
Proof.
  intros Ht Hb Hs H. update_inv H Ht Hh.
  unfold update_ball, assert_flag, doc_add, _update_count in *.
  cbn [_update_count_loop] in Hh. minv.
  doc_norm. doc_simpl_all. same_lookup. ints.
  match goal with
  | H : String.eqb _ _ = true |- _ => apply String.eqb_eq in H; rewrite H
  end.
  st_norm. doc_simpl. done.
Qed.

Lemma ball_counted_witness :
  let s := state_after demo_env demo_opening in
  let e := demo_event 14 "Ball. 1-0" in
  game_update (next demo_env e None s) !! "atBatBalls" = Some (VInt 1).
Proof.
  intros s e.
  destruct (ball_counted demo_env e None s (emitted demo_env e None s)
              (next demo_env e None s) 0 (VInt 0)) as (_ & H & _).
  - reflexivity.
  - vm_compute; reflexivity.
  - vm_compute; reflexivity.
  - apply next_emitted. vm_compute; reflexivity.
  - exact H.
Defined.

(** X13.  A strike is accepted only if its description is one of the three
    kinds of strike followed by the count after the pitch; it adds one to
    [atBatStrikes] without comparing it to the strike limit. *)
Theorem strike_counted E ev g s d s' (balls : value) (strikes : Z) :
  type ev = 13 →
  game_update s !! "atBatBalls" = Some balls →
  game_update s !! "atBatStrikes" = Some (VInt strikes) →
  update E ev g s = Some (d, s') →
  (∃ text, text ∈ ["Strike, swinging"; "Strike, looking"; "Strike, flinching"]
     ∧ description ev
       = text +:+ ". " +:+ py_str E balls +:+ "-" +:+ pretty (strikes + 1))
  ∧ game_update s' !! "atBatStrikes" = Some (VInt (strikes + 1))
  ∧ game_update s' !! "atBatBalls" = Some balls
  ∧ game_update s' !! "lastUpdate" = Some (VStr (description ev)).
Proof.
  intros Ht Hb Hs H. update_inv H Ht Hh.
  unfold update_strike, assert_flag, doc_add, _update_count in *.
  cbn [_update_count_loop] in Hh. minv.
  all: doc_norm; doc_simpl_all; same_lookup; ints.
  all: match goal with
       | H : String.eqb (description _) _ = true |- _ =>
           apply String.eqb_eq in H
       end.
  all: st_norm; doc_simpl; split_and!; try done;
       [eexists; split; [|eassumption]; rewrite !elem_of_cons; tauto
       |by f_equal; f_equal].
Qed.

Lemma strike_counted_witness :
  let s := state_after demo_env demo_opening in
  let e := demo_event 13 "Strike, looking. 0-1" in
  game_update (next demo_env e None s) !! "atBatStrikes" = Some (VInt 1).
Proof.
  intros s e.
  destruct (strike_counted demo_env e None s (emitted demo_env e None s)
              (next demo_env e None s) (VInt 0) 0) as (_ & H & _).
  - reflexivity.
  - vm_compute; reflexivity.
  - vm_compute; reflexivity.
  - apply next_emitted. vm_compute; reflexivity.
  - exact H.
Defined.

(** X14.  A strikeout is accepted only when the batter is one strike away
    from the strike limit of his side. *)
Theorem strikeout_at_limit E ev g s d s' parsed top (strikes limit : Z) :
  type ev = 6 →
  Parsers_strikeout E (description ev) = Some parsed →
  tree_data parsed = Some "strikeout" →
  game_update s !! "topOfInning" = Some (VBool top) →
  game_update s !! "atBatStrikes" = Some (VInt strikes) →
  game_update s !! ((if top then "away" else "home") +:+ "Strikes")
  = Some (VInt limit) →
  update E ev g s = Some (d, s') →
  strikes + 1 = limit.
Proof.
  intros Ht Hp Hd Htop Hs Hl H. update_inv H Ht Hh.
  unfold update_strikeout, assert_flag, parse, data, children, prefix,
    batter, batting_team in Hh.
  minv.
  all: simplify_eq.
  all: try match goal with
           | H : String.eqb "strikeout" "strikeout" = false |- _ =>
               by rewrite String.eqb_refl in H
           end.
  all: doc_norm; doc_simpl_all; same_lookup.
  all: destruct top; simpl in *; side_keys; doc_simpl_all; same_lookup; ints;
       decide_all; done.
Qed.

Lemma strikeout_at_limit_witness :
  let s := state_after demo_env demo_two_strikes in
  let e := demo_event 6 "Bob Bean strikes out looking." in
  game_update s !! "atBatStrikes" = Some (VInt 2)
  ∧ game_update s !! "awayStrikes" = Some (VInt 3)
  ∧ 2 + 1 = 3.
Proof.
  intros s e.
  assert (Hs : game_update s !! "atBatStrikes" = Some (VInt 2))
    by (vm_compute; reflexivity).
  assert (Hl : game_update s !! "awayStrikes" = Some (VInt 3))
    by (vm_compute; reflexivity).
  split; [exact Hs|]. split; [exact Hl|].
  apply (strikeout_at_limit demo_env e None s (emitted demo_env e None s)
           (next demo_env e None s)
           (Tree "strikeout" [Token "Bob Bean"; Token "looking"]) true 2 3).
  - reflexivity.
  - reflexivity.
  - reflexivity.
  - vm_compute; reflexivity.
  - exact Hs.
  - exact Hl.
  - apply next_emitted. vm_compute; reflexivity.
Defined.

(** * The sides, the at-bat and the half-inning *)

(** X15.  In the top of an inning the away team bats and the home team
    fields, in the bottom it is the other way round; [prefix] and
    [top_or_bottom] name the side at bat, and with [negate] the other. *)
Theorem sides_of_half_inning s top :
  game_update s !! "topOfInning" = Some (VBool top) →
  prefix false s = Some (if top then "away" else "home", s)
  ∧ prefix true s = Some (if top then "home" else "away", s)
  ∧ top_or_bottom false s = Some (if top then "top" else "bottom", s)
  ∧ top_or_bottom true s = Some (if top then "bottom" else "top", s)
  ∧ batting_team s = Some (if top then away s else home s, s)
  ∧ fielding_team s = Some (if top then home s else away s, s).
Proof.
  intros H. unfold prefix, top_or_bottom, batting_team, fielding_team.
  rewrite !(bind_run _ _ _ _ _ (doc_get_run _ _ _ H)).
  by destruct top.
Qed.

Lemma sides_of_half_inning_witness :
  let s := state_after demo_env demo_opening in
  prefix false s = Some ("away", s)
  ∧ (nickname <$> (fst <$> batting_team s)) = Some "Fridays".
Proof.
  intros s.
  destruct (sides_of_half_inning s true) as (H1 & _ & _ & _ & H2 & _).
  - vm_compute; reflexivity.
  - split; [exact H1|]. rewrite H2. vm_compute; reflexivity.
Defined.

(** X16.  [_end_atbat] blanks the batter of the side at bat, zeroes the
    count, expects a batter-up instead of a pitch and ends a haunting; it
    leaves the rest of the document and the teams as they are. *)
Theorem end_atbat_effect s top :
  game_update s !! "topOfInning" = Some (VBool top) →
  ∃ s', _end_atbat s = Some (tt, s')
    ∧ batter_blank (if top then "away" else "home") (game_update s')
    ∧ expects_pitch s' = false ∧ expects_batter_up s' = true
    ∧ haunter s' = None
    ∧ away s' = away s ∧ home s' = home s
    ∧ ∀ k, k ∉ [(if top then "away" else "home") +:+ "Batter";
                (if top then "away" else "home") +:+ "BatterName";
                (if top then "away" else "home") +:+ "BatterMod";
                "atBatBalls"; "atBatStrikes"] →
           game_update s' !! k = game_update s !! k.
Proof.
  intros Htop. destruct top; cbn [String.append].
  all: eexists; split.
  1,3: unfold _end_atbat; run_go; run_prim.
  all: unfold batter_blank; cbn [String.append]; st_norm.
  all: split_and!; try reflexivity; try look.
  all: intros k Hk; rewrite !lookup_insert_ne; [done|..];
       intros <-; apply Hk; rewrite !elem_of_cons; tauto.
Qed.

Lemma end_atbat_effect_witness :
  let s := state_after demo_env demo_one_strike in
  game_update s !! "atBatStrikes" = Some (VInt 1)
  ∧ ∃ s', _end_atbat s = Some (tt, s')
          ∧ game_update s' !! "atBatStrikes" = Some (VInt 0)
          ∧ expects_batter_up s' = true.
Proof.
  intros s. split; [vm_compute; reflexivity|].
  destruct (end_atbat_effect s true)
    as (s' & H0 & (_ & _ & _ & _ & H1) & _ & H2 & _).
  - vm_compute; reflexivity.
  - exists s'. split; [exact H0|]. split; [exact H1|exact H2].
Defined.

(** X17.  [_score_runs] adds the runs to the score of the side at bat, to
    the score of the half-inning and to the score of the top or the bottom
    of the inning, and hands the runs back. *)
Theorem score_runs_adds s top (n score half inning_score : Z) :
  game_update s !! "topOfInning" = Some (VBool top) →
  game_update s !! ((if top then "away" else "home") +:+ "Score")
  = Some (VInt score) →
  game_update s !! "halfInningScore" = Some (VInt half) →
  game_update s !! ((if top then "top" else "bottom") +:+ "InningScore")
  = Some (VInt inning_score) →
  ∃ s', _score_runs (NInt n) s = Some (NInt n, s')
    ∧ game_update s' !! ((if top then "away" else "home") +:+ "Score")
      = Some (VInt (score + n))
    ∧ game_update s' !! "halfInningScore" = Some (VInt (half + n))
    ∧ game_update s' !! ((if top then "top" else "bottom") +:+ "InningScore")
      = Some (VInt (inning_score + n))
    ∧ game_update s' !! ((if top then "home" else "away") +:+ "Score")
      = game_update s !! ((if top then "home" else "away") +:+ "Score").
Proof.
  intros Htop Hs Hh Hi. destruct top; cbn [String.append] in *.
  all: eexists; split.
  1,3: unfold _score_runs; cbn [of_num]; run_go; run_prim.
  all: st_norm; split_and!; try reflexivity; try look.
Qed.

Lemma score_runs_adds_witness :
  let s := state_after demo_env demo_opening in
  ∃ s', _score_runs (NInt 2) s = Some (NInt 2, s')
        ∧ game_update s' !! "awayScore" = Some (VInt 2)
        ∧ game_update s' !! "topInningScore" = Some (VInt 2).
Proof.
  intros s.
  destruct (score_runs_adds s true 2 0 0 0) as (s' & H0 & H1 & _ & H2 & _).
  - vm_compute; reflexivity.
  - vm_compute; reflexivity.
  - vm_compute; reflexivity.
  - vm_compute; reflexivity.
  - exists s'. split; [exact H0|]. split; [exact H1|exact H2].
Defined.
